(** * The nested list manager: an ordered tree kept in a flat collection

    A shallow embedding of [NestedListManager] (src/nestedListManager.py)
    and the properties of its operations.

    Modelling choices.
    - The [IntProperty] fields are integers ([Z]); the collection is a list
      in storage order.  A live reference to an element of the collection
      (what [get_item_by_id] returns and what [sorted] shuffles around) is
      its storage slot: a position in the list, paired with the record
      stored there.
    - [sorted(..., key=...)] is a stable sort.  It is modelled by a stable
      insertion sort; any two stable sorts agree extensionally.
    - The [while] loop of [move_item] and the recursion of
      [flatten_hierarchy] need not terminate.  They take a [fuel] bound,
      and [None] stands for a run that did not finish within it.
    - Integers are unbounded and the recursion depth is not limited: the
      32-bit storage of the host's properties and the interpreter's
      recursion limit are outside the model. *)

From stdpp Require Import base numbers list strings sorting pretty.

Local Open Scope Z_scope.

(** ** Data model *)

Record NestedListItem : Type := mkItem {
  id : Z;          (* unique identifier *)
  name : string;   (* item name *)
  parent_id : Z;   (* id of the parent, -1 means no parent *)
  order : Z        (* order within the same parent *)
}.

Record NestedListManager : Type := mkManager {
  items : list NestedListItem;
  active_index : Z;
  next_id : Z
}.

#[global] Instance NestedListItem_eq_dec : EqDecision NestedListItem.
Proof. solve_decision. Defined.

#[global] Instance NestedListManager_eq_dec : EqDecision NestedListManager.
Proof. solve_decision. Defined.

(** The property defaults: what [items.add()] creates. *)
Definition default_item : NestedListItem :=
  {| id := 0; name := EmptyString; parent_id := -1; order := 0 |}.

(** A store with no items and [next_id = 0]. *)
Definition empty_manager : NestedListManager :=
  {| items := []; active_index := 0; next_id := 0 |}.

Definition set_id (x : NestedListItem) (v : Z) : NestedListItem :=
  {| id := v; name := name x; parent_id := parent_id x; order := order x |}.
Definition set_name (x : NestedListItem) (v : string) : NestedListItem :=
  {| id := id x; name := v; parent_id := parent_id x; order := order x |}.
Definition set_parent_id (x : NestedListItem) (v : Z) : NestedListItem :=
  {| id := id x; name := name x; parent_id := v; order := order x |}.
Definition set_order (x : NestedListItem) (v : Z) : NestedListItem :=
  {| id := id x; name := name x; parent_id := parent_id x; order := v |}.

Definition with_items (s : NestedListManager) (l : list NestedListItem)
  : NestedListManager :=
  {| items := l; active_index := active_index s; next_id := next_id s |}.
Definition with_next_id (s : NestedListManager) (n : Z) : NestedListManager :=
  {| items := items s; active_index := active_index s; next_id := n |}.

(** ** Python helpers *)

(** [max(xs, default=d)] *)
Definition max_default (d : Z) (xs : list Z) : Z :=
  match xs with
  | [] => d
  | x :: xs' => foldl Z.max x xs'
  end.

(** [sorted(l, key=key)]: stable, ascending. *)
Fixpoint insert_by {A : Type} (key : A → Z) (x : A) (l : list A) : list A :=
  match l with
  | [] => [x]
  | y :: l' =>
      if bool_decide (key x ≤ key y) then x :: y :: l'
      else y :: insert_by key x l'
  end.

Definition sorted {A : Type} (key : A → Z) (l : list A) : list A :=
  foldr (insert_by key) [] l.

(** The collection with each record tagged by its storage slot. *)
Definition slots (l : list NestedListItem) : list (nat * NestedListItem) :=
  imap pair l.

(** ** Operations of the manager *)

(** [[i for i in self.items if i.parent_id == parent]] *)
Definition children_of (s : NestedListManager) (parent : Z)
  : list (nat * NestedListItem) :=
  filter (λ e, parent_id e.2 = parent) (slots (items s)).

(** [sorted([i for i in self.items if i.parent_id == parent],
            key=lambda i: i.order)] *)
Definition sorted_children (s : NestedListManager) (parent : Z)
  : list (nat * NestedListItem) :=
  sorted (λ e, order e.2) (children_of s parent).

Definition get_next_order (s : NestedListManager) (parent : Z) : Z :=
  max_default (-1) ((λ e, order e.2) <$> children_of s parent) + 1.

(** The first slot holding the given id, with its record. *)
Definition find_item (s : NestedListManager) (item_id : Z)
  : option (nat * NestedListItem) :=
  list_find (λ x, id x = item_id) (items s).

Definition get_item_by_id (s : NestedListManager) (item_id : Z)
  : option NestedListItem :=
  snd <$> find_item s item_id.

Definition get_collection_index_from_id (s : NestedListManager) (item_id : Z)
  : Z :=
  match find_item s item_id with
  | Some (index, _) => Z.of_nat index
  | None => -1
  end.

(** [add_item]: the new element is appended first, its [id], [name] and
    [parent_id] are assigned, and only then is [get_next_order] evaluated,
    on a collection that already holds the new element with its [order]
    still at the default. *)
Definition add_item (s : NestedListManager) (nm : string) (parent : Z)
  : Z * NestedListManager :=
  let new_item :=
    set_parent_id (set_name (set_id default_item (next_id s)) nm) parent in
  let s1 := with_items s (items s ++ [new_item]) in
  let new_item' := set_order new_item (get_next_order s1 parent) in
  let s2 := with_items s (items s ++ [new_item']) in
  (id new_item', with_next_id s2 (next_id s + 1)).

(** The ancestor walk of [move_item]:
    [while current: if current.id == item_id: return False; current = ...].
    [Some true]: the walk met [item_id]; [Some false]: it ran off the top;
    [None]: still walking when the fuel ran out. *)
Fixpoint ancestor_walk (fuel : nat) (s : NestedListManager) (item_id : Z)
    (current : option NestedListItem) : option bool :=
  match current with
  | None => Some false
  | Some c =>
      if bool_decide (id c = item_id) then Some true
      else match fuel with
           | O => None
           | S fuel' =>
               ancestor_walk fuel' s item_id (get_item_by_id s (parent_id c))
           end
  end.

Definition move_item (fuel : nat) (s : NestedListManager)
    (item_id new_parent_id : Z) : option (bool * NestedListManager) :=
  match find_item s item_id with
  | Some (i, item) =>
      if bool_decide (new_parent_id = -1)
         || bool_decide (is_Some (get_item_by_id s new_parent_id))
      then
        match ancestor_walk fuel s item_id (get_item_by_id s new_parent_id) with
        | None => None
        | Some true => Some (false, s)
        | Some false =>
            let item1 := set_parent_id item new_parent_id in
            let s1 := with_items s (<[i := item1]> (items s)) in
            let item2 := set_order item1 (get_next_order s1 new_parent_id) in
            Some (true, with_items s (<[i := item2]> (items s)))
        end
      else Some (false, s)
  | None => Some (false, s)
  end.

(** [siblings.index(item)]: elements are compared by identity. *)
Definition index_of_slot (i : nat) (l : list (nat * NestedListItem))
  : option nat :=
  fst <$> list_find (λ e, e.1 = i) l.

(** [item.order, swap_item.order = swap_item.order, item.order] *)
Definition swap_orders (s : NestedListManager)
    (a b : nat * NestedListItem) : NestedListManager :=
  with_items s
    (<[b.1 := set_order b.2 (order a.2)]>
       (<[a.1 := set_order a.2 (order b.2)]> (items s))).

Definition reorder_item (s : NestedListManager) (item_id : Z)
    (direction : string) : bool * NestedListManager :=
  match find_item s item_id with
  | None => (false, s)
  | Some (i, item) =>
      let siblings := sorted_children s (parent_id item) in
      match index_of_slot i siblings with
      | None => (false, s)   (* not taken, see [find_item_in_siblings] *)
      | Some idx =>
          if bool_decide (direction = "UP") && bool_decide (0 < idx)%nat then
            match siblings !! (idx - 1)%nat with
            | Some swap_item => (true, swap_orders s (i, item) swap_item)
            | None => (false, s)
            end
          else if bool_decide (direction = "DOWN")
                  && bool_decide (Z.of_nat idx < Z.of_nat (length siblings) - 1)
          then
            match siblings !! (idx + 1)%nat with
            | Some swap_item => (true, swap_orders s (i, item) swap_item)
            | None => (false, s)
            end
          else (false, s)
      end
  end.

(** One round of the [for item in children] loop of [collect_items]:
    [collected.append((item, level))], then
    [collected.extend(collect_items(item.id, level + 1))]. *)
Definition collect_step (rec : Z → option (list (NestedListItem * Z)))
    (level : Z) (acc : option (list (NestedListItem * Z)))
    (item : NestedListItem) : option (list (NestedListItem * Z)) :=
  match acc with
  | None => None
  | Some collected =>
      match rec (id item) with
      | None => None
      | Some sub => Some ((collected ++ [(item, level)]) ++ sub)
      end
  end.

(** [collect_items(parent_id, level)], the local function of
    [flatten_hierarchy]. *)
Fixpoint collect_items (fuel : nat) (s : NestedListManager)
    (parent : Z) (level : Z) : option (list (NestedListItem * Z)) :=
  match fuel with
  | O => None
  | S fuel' =>
      foldl (collect_step (λ i, collect_items fuel' s i (level + 1)) level)
        (Some []) (snd <$> sorted_children s parent)
  end.

(** The same loop without its accumulator: what one sibling group
    contributes, given what each member's subtree contributes. *)
Fixpoint collect_group (rec : Z → option (list (NestedListItem * Z)))
    (level : Z) (g : list NestedListItem)
  : option (list (NestedListItem * Z)) :=
  match g with
  | [] => Some []
  | x :: g' =>
      match rec (id x) with
      | None => None
      | Some sub =>
          match collect_group rec level g' with
          | None => None
          | Some rest => Some ((x, level) :: sub ++ rest)
          end
      end
  end.

Definition flatten_hierarchy (fuel : nat) (s : NestedListManager)
  : option (list (NestedListItem * Z)) :=
  collect_items fuel s (-1) 0.

Definition get_id_from_flattened_index (fuel : nat) (s : NestedListManager)
    (flattened_index : Z) : option Z :=
  match flatten_hierarchy fuel s with
  | None => None
  | Some flattened =>
      if bool_decide (0 ≤ flattened_index
                      ∧ flattened_index < Z.of_nat (length flattened))
      then Some (default (-1)
                   ((λ e, id e.1) <$> flattened !! Z.to_nat flattened_index))
      else Some (-1)
  end.

(** [manager.items.remove(collection_index)], as called by the remove
    operator, which only passes the slot of an item it has found.  The
    host raises on an index outside the collection: [None]. *)
Definition remove_index (s : NestedListManager) (index : nat)
  : option NestedListManager :=
  if bool_decide (index < length (items s))%nat
  then Some (with_items s (delete index (items s)))
  else None.

(** ** Runs of operations *)

Inductive op : Type :=
  | OpAdd (nm : string) (parent : Z)
  | OpMove (item_id new_parent_id : Z)
  | OpReorder (item_id : Z) (direction : string)
  | OpRemove (index : nat).

(** One call; the id it returns when it is an [add_item].  [None]: the
    call does not return (out of fuel, or the host raises). *)
Definition run_op (fuel : nat) (s : NestedListManager) (o : op)
  : option (option Z * NestedListManager) :=
  match o with
  | OpAdd nm parent =>
      let r := add_item s nm parent in Some (Some r.1, r.2)
  | OpMove item_id new_parent_id =>
      match move_item fuel s item_id new_parent_id with
      | None => None
      | Some r => Some (None, r.2)
      end
  | OpReorder item_id direction =>
      Some (None, (reorder_item s item_id direction).2)
  | OpRemove index =>
      match remove_index s index with
      | None => None
      | Some s' => Some (None, s')
      end
  end.

(** A sequence of calls; the ids returned by its [add_item]s, in order. *)
Fixpoint run_ops (fuel : nat) (s : NestedListManager) (os : list op)
  : option (list Z * NestedListManager) :=
  match os with
  | [] => Some ([], s)
  | o :: os' =>
      match run_op fuel s o with
      | None => None
      | Some (r, s') =>
          match run_ops fuel s' os' with
          | None => None
          | Some (ids, s'') => Some (option_list r ++ ids, s'')
          end
      end
  end.

(** States reached from the empty store by calls that return. *)
Inductive reachable : NestedListManager → Prop :=
  | reachable_empty : reachable empty_manager
  | reachable_step s o fuel r s' :
      reachable s → run_op fuel s o = Some (r, s') → reachable s'.

(** ** Predicates on stores *)

Definition key_le {A : Type} (key : A → Z) (x y : A) : Prop := key x ≤ key y.

(** Ids are unique, non-negative and below the allocation counter. *)
Record well_formed (s : NestedListManager) : Prop := {
  wf_NoDup : NoDup (id <$> items s);
  wf_range : ∀ x, x ∈ items s → 0 ≤ id x < next_id s;
  wf_next_id : 0 ≤ next_id s
}.

(** [ancestor s a x]: [a] is met on the way up from the item with id [x],
    following [parent_id]. *)
Inductive ancestor (s : NestedListManager) : Z → Z → Prop :=
  | ancestor_parent c : c ∈ items s → ancestor s (parent_id c) (id c)
  | ancestor_up c a :
      c ∈ items s → ancestor s a (parent_id c) → ancestor s a (id c).

Definition acyclic (s : NestedListManager) : Prop :=
  ∀ c, c ∈ items s → ¬ ancestor s (id c) (id c).

(** The upward walk of [move_item] from [current] meets [item_id]. *)
Inductive walk_reaches (s : NestedListManager) (item_id : Z)
  : option NestedListItem → Prop :=
  | walk_here c : id c = item_id → walk_reaches s item_id (Some c)
  | walk_up c :
      id c ≠ item_id →
      walk_reaches s item_id (get_item_by_id s (parent_id c)) →
      walk_reaches s item_id (Some c).

(** [depth_in s n x]: [n] parent links lead from [x] to the sentinel. *)
Inductive depth_in (s : NestedListManager) : nat → NestedListItem → Prop :=
  | depth_root x : parent_id x = -1 → depth_in s 0 x
  | depth_child n x y :
      parent_id x ≠ -1 → y ∈ items s → id y = parent_id x →
      depth_in s n y → depth_in s (S n) x.

(** Every item hangs from the sentinel. *)
Definition rooted (s : NestedListManager) : Prop :=
  ∀ x, x ∈ items s → ∃ n, depth_in s n x.

(** Calls that respect what [add_item] leaves unchecked: the parent given
    to [add_item] is the sentinel or the id of an existing item.  (No
    removal: it can orphan the removed item's children.) *)
Definition checked_op (s : NestedListManager) (o : op) : Prop :=
  match o with
  | OpAdd _ parent => parent = -1 ∨ is_Some (get_item_by_id s parent)
  | OpRemove _ => False
  | _ => True
  end.

Inductive reachable_checked : NestedListManager → Prop :=
  | reachable_checked_empty : reachable_checked empty_manager
  | reachable_checked_step s o fuel r s' :
      reachable_checked s → checked_op s o →
      run_op fuel s o = Some (r, s') → reachable_checked s'.

(** ** The traversal as the specification words it

    A sibling group is the items sharing a parent, in ascending [order].
    The flattened view lists, for each member of a group in turn, the
    member at the current depth, then its own group one level deeper, then
    the rest of the group. *)

Definition sibling_group (s : NestedListManager) (parent : Z)
    (g : list NestedListItem) : Prop :=
  g ≡ₚ filter (λ x, parent_id x = parent) (items s)
  ∧ StronglySorted (key_le order) g.

Inductive preorder (s : NestedListManager)
  : list NestedListItem → Z → list (NestedListItem * Z) → Prop :=
  | preorder_nil depth : preorder s [] depth []
  | preorder_cons x g depth kids sub rest :
      sibling_group s (id x) kids →
      preorder s kids (depth + 1) sub →
      preorder s g depth rest →
      preorder s (x :: g) depth ((x, depth) :: sub ++ rest).

Definition flatten_spec (s : NestedListManager)
    (l : list (NestedListItem * Z)) : Prop :=
  ∃ roots, sibling_group s (-1) roots ∧ preorder s roots 0 l.

(** ** The operators

    The [execute] methods of the operators, as functions of the manager
    found in the context.  The dialog of [invoke], [self.report] and the
    drawing code are the host's. *)

Inductive status : Type := FINISHED | CANCELLED.

Definition with_active_index (s : NestedListManager) (n : Z)
  : NestedListManager :=
  {| items := items s; active_index := n; next_id := next_id s |}.

(** [for i, (item, _) in enumerate(flattened):
       if item.id == item_id: manager.active_index = i; break] *)
Definition select_item (s : NestedListManager)
    (flattened : list (NestedListItem * Z)) (item_id : Z)
  : NestedListManager :=
  match list_find (λ e, id e.1 = item_id) flattened with
  | Some (i, _) => with_active_index s (Z.of_nat i)
  | None => s
  end.

(** [NLM_OT_AddItem.execute]; the name is [f"Item {manager.next_id}"]. *)
Definition NLM_OT_AddItem_execute (fuel : nat) (s : NestedListManager)
  : option (status * NestedListManager) :=
  let r := add_item s ("Item " +:+ pretty (next_id s)) (-1) in
  match flatten_hierarchy fuel r.2 with
  | None => None
  | Some flattened => Some (FINISHED, select_item r.2 flattened r.1)
  end.

(** [NLM_OT_RemoveItem.execute] *)
Definition NLM_OT_RemoveItem_execute (fuel : nat) (s : NestedListManager)
  : option (status * NestedListManager) :=
  match get_id_from_flattened_index fuel s (active_index s) with
  | None => None
  | Some item_id =>
      if bool_decide (item_id ≠ -1) then
        let collection_index := get_collection_index_from_id s item_id in
        if bool_decide (collection_index ≠ -1) then
          match remove_index s (Z.to_nat collection_index) with
          | None => None
          | Some s1 =>
              match flatten_hierarchy fuel s1 with
              | None => None
              | Some flattened =>
                  Some (FINISHED,
                        with_active_index s1
                          (Z.min (active_index s1)
                             (Z.of_nat (length flattened) - 1)))
              end
          end
        else Some (CANCELLED, s)
      else Some (CANCELLED, s)
  end.

(** [NLM_OT_MoveItem.execute], with the operator's [new_parent_id]. *)
Definition NLM_OT_MoveItem_execute (fuel : nat) (new_parent_id : Z)
    (s : NestedListManager) : option (status * NestedListManager) :=
  match get_id_from_flattened_index fuel s (active_index s) with
  | None => None
  | Some item_id =>
      if bool_decide (item_id ≠ -1) then
        match move_item fuel s item_id new_parent_id with
        | None => None
        | Some (true, s') => Some (FINISHED, s')
        | Some (false, s') => Some (CANCELLED, s')
        end
      else Some (CANCELLED, s)
  end.

(** The body shared by [NLM_OT_MoveUp.execute] and
    [NLM_OT_MoveDown.execute], which differ in the direction only. *)
Definition reorder_execute (direction : string) (fuel : nat)
    (s : NestedListManager) : option (status * NestedListManager) :=
  match get_id_from_flattened_index fuel s (active_index s) with
  | None => None
  | Some item_id =>
      if bool_decide (item_id ≠ -1) then
        match reorder_item s item_id direction with
        | (true, s') =>
            match flatten_hierarchy fuel s' with
            | None => None
            | Some flattened => Some (FINISHED, select_item s' flattened item_id)
            end
        | (false, s') => Some (CANCELLED, s')
        end
      else Some (CANCELLED, s)
  end.

Definition NLM_OT_MoveUp_execute : nat → NestedListManager
    → option (status * NestedListManager) :=
  reorder_execute "UP".

Definition NLM_OT_MoveDown_execute : nat → NestedListManager
    → option (status * NestedListManager) :=
  reorder_execute "DOWN".

(** ** More predicates on stores *)

(** [hangs s q n x]: [n] parent links lead from the parent of [x] to the
    id [q]; with [n = 0], [x] is a child of [q]. *)
Inductive hangs (s : NestedListManager) (q : Z)
  : nat → NestedListItem → Prop :=
  | hangs_child x : parent_id x = q → hangs s q 0 x
  | hangs_below n x y :
      y ∈ items s → id y = parent_id x → hangs s q n y →
      hangs s q (S n) x.

(** Two different slots under one parent hold different orders. *)
Definition orders_distinct (s : NestedListManager) : Prop :=
  ∀ i j x y,
    items s !! i = Some x → items s !! j = Some y → i ≠ j →
    parent_id x = parent_id y → order x ≠ order y.

(** Each level is at most one more than the level before it. *)
Fixpoint gentle (prev : Z) (levels : list Z) : Prop :=
  match levels with
  | [] => True
  | d :: levels' => d ≤ prev + 1 ∧ gentle d levels'
  end.

(** Exchanging the orders of the records in slots [i] and [j] of one
    sibling group.  [swap_rewritten] is what a slot holds afterwards;
    [swap_moved] is where an entry of the sorted group ends up: the two
    entries trade places, each carrying its new order. *)
Definition swap_rewritten (i j : nat) (x y : NestedListItem)
    (e : nat * NestedListItem) : nat * NestedListItem :=
  if decide (e.1 = i) then (i, set_order x (order y))
  else if decide (e.1 = j) then (j, set_order y (order x)) else e.

Definition swap_moved (i j : nat) (x y : NestedListItem)
    (e : nat * NestedListItem) : nat * NestedListItem :=
  if decide (e.1 = i) then (j, set_order y (order x))
  else if decide (e.1 = j) then (i, set_order x (order y)) else e.

(** ** Proof steps used more than once *)

(** Evaluates a [filter] over an explicit list of items. *)
Ltac eval_filter :=
  rewrite ?filter_cons, ?filter_nil; simpl;
  repeat (case_decide; simplify_eq/=; try done; try lia); try done.

(** Splits membership in an explicit list into its cases. *)
Ltac elem_cases :=
  repeat match goal with
         | H : _ ∈ _ :: _ |- _ => apply elem_of_cons in H as [->|H]
         | H : _ ∈ [] |- _ => by apply elem_of_nil in H
         end.

(** * Properties *)

(** ** Facts about the helpers *)

Section sorted_facts.
Context {A : Type} (key : A → Z).

Lemma insert_by_Permutation x l : insert_by key x l ≡ₚ x :: l.
Proof.
  induction l as [|y l IH]; simpl; [done|].
  case_bool_decide; [done|]. rewrite IH. apply Permutation_swap.
Qed.

Lemma sorted_Permutation l : sorted key l ≡ₚ l.
Proof.
  induction l as [|x l IH]; simpl; [done|].
  by rewrite insert_by_Permutation, IH.
Qed.

Lemma insert_by_StronglySorted x l :
  StronglySorted (key_le key) l → StronglySorted (key_le key) (insert_by key x l).
Proof.
  induction 1 as [|y l Hl IH Hy]; simpl.
  - repeat constructor.
  - case_bool_decide as Hxy.
    + constructor; [by constructor|]. constructor; [done|].
      eapply Forall_impl; [exact Hy|]. unfold key_le. intros; lia.
    + constructor; [done|].
      rewrite insert_by_Permutation. constructor; [|done].
      unfold key_le. lia.
Qed.

Lemma sorted_StronglySorted l : StronglySorted (key_le key) (sorted key l).
Proof.
  induction l as [|x l IH]; simpl; [constructor|].
  by apply insert_by_StronglySorted.
Qed.

Lemma insert_by_sublist x l : l `sublist_of` insert_by key x l.
Proof.
  induction l as [|y l IH]; simpl; [apply sublist_nil_l|].
  case_bool_decide; [by apply sublist_cons|by apply sublist_skip].
Qed.

Lemma insert_by_before x y l :
  y ∈ l → key x ≤ key y → [x; y] `sublist_of` insert_by key x l.
Proof.
  induction l as [|z l IH]; [by intros ?%elem_of_nil|].
  intros Hy Hxy. simpl. case_bool_decide as Hxz.
  - apply sublist_skip. apply sublist_cons_l.
    apply list_elem_of_split in Hy as (l1 & l2 & ->).
    exists l1, l2. split; [done|apply sublist_nil_l].
  - apply sublist_cons. apply IH; [|done].
    apply elem_of_cons in Hy as [->|]; [lia|done].
Qed.

(** Stability: elements whose keys are in order keep their relative
    position. *)
Lemma sorted_stable x y l :
  [x; y] `sublist_of` l → key x ≤ key y → [x; y] `sublist_of` sorted key l.
Proof.
  intros Hsub Hxy. induction l as [|z l IH]; [by inv Hsub|].
  simpl. apply sublist_cons_r in Hsub as [Hsub|(l' & [= <- <-] & Hsub)].
  - etrans; [by apply IH|]. apply insert_by_sublist.
  - apply insert_by_before; [|done].
    rewrite sorted_Permutation. eapply sublist_subseteq; [exact Hsub|].
    apply list_elem_of_singleton; done.
Qed.

Lemma sorted_length l : length (sorted key l) = length l.
Proof. by rewrite sorted_Permutation. Qed.

Lemma sorted_elem_of x l : x ∈ sorted key l ↔ x ∈ l.
Proof. by rewrite sorted_Permutation. Qed.
End sorted_facts.

Lemma StronglySorted_lookup_lt {A} (R : relation A) (l : list A) i j x y :
  StronglySorted R l → l !! i = Some x → l !! j = Some y → (i < j)%nat → R x y.
Proof.
  intros Hl. revert i j. induction Hl as [|z l Hl IH Hz]; intros i j Hi Hj Hij.
  - done.
  - destruct j as [|j]; [lia|]. destruct i as [|i]; simplify_eq/=.
    + eapply Forall_forall in Hz; [exact Hz|]. by eapply list_elem_of_lookup_2.
    + eapply IH; [done..|lia].
Qed.

Lemma sublist_pair_lookup {A} (l : list A) x y :
  [x; y] `sublist_of` l ↔
  ∃ i j, (i < j)%nat ∧ l !! i = Some x ∧ l !! j = Some y.
Proof.
  split.
  - intros (l1 & l2 & -> & (l3 & l4 & -> & _)%sublist_cons_l)%sublist_cons_l.
    exists (length l1), (length l1 + S (length l3))%nat. split_and!; [lia|..].
    + by rewrite list_lookup_middle.
    + rewrite lookup_app_r by lia.
      replace (length l1 + S (length l3) - length l1)%nat
        with (S (length l3)) by lia.
      simpl. by rewrite list_lookup_middle.
  - revert x y. induction l as [|z l IH]; intros x y (i & j & Hij & Hi & Hj);
      [done|].
    destruct j as [|j]; [lia|]. destruct i as [|i]; simplify_eq/=.
    + apply sublist_skip. apply sublist_cons_l.
      apply list_elem_of_lookup_2, list_elem_of_split in Hj as (l1 & l2 & ->).
      exists l1, l2. split; [done|apply sublist_nil_l].
    + apply sublist_cons, IH. exists i, j. split_and!; [lia|done..].
Qed.

(** ** Storage slots, sibling groups and lookups *)

Lemma slots_lookup (l : list NestedListItem) i :
  slots l !! i = pair i <$> l !! i.
Proof. unfold slots. apply list_lookup_imap. Qed.

Lemma elem_of_slots (l : list NestedListItem) i x :
  (i, x) ∈ slots l ↔ l !! i = Some x.
Proof.
  rewrite list_elem_of_lookup. split.
  - intros (j & Hj). rewrite slots_lookup in Hj.
    destruct (l !! j) eqn:E; simplify_eq/=. done.
  - intros Hi. exists i. by rewrite slots_lookup, Hi.
Qed.

Lemma slots_fst (l : list NestedListItem) : (slots l).*1 = seq 0 (length l).
Proof.
  unfold slots. apply list_eq. intros i.
  rewrite list_lookup_fmap, list_lookup_imap.
  destruct (l !! i) as [x|] eqn:E; simpl.
  - symmetry. apply lookup_seq. split; [done|]. by eapply lookup_lt_Some.
  - symmetry. apply lookup_seq_ge. by apply lookup_ge_None.
Qed.

Lemma slots_snd (l : list NestedListItem) : (slots l).*2 = l.
Proof.
  unfold slots. apply list_eq. intros i.
  rewrite list_lookup_fmap, list_lookup_imap. by destruct (l !! i).
Qed.

Lemma slots_app (l k : list NestedListItem) :
  slots (l ++ k) = slots l ++ imap (λ n, pair (length l + n)%nat) k.
Proof. unfold slots. apply imap_app. Qed.

Lemma children_of_snd s p :
  (children_of s p).*2 = filter (λ x, parent_id x = p) (items s).
Proof.
  unfold children_of. rewrite <-(slots_snd (items s)) at 2.
  generalize (slots (items s)). intros k.
  induction k as [|e k IH]; [done|].
  rewrite (fmap_cons snd e k), (filter_cons _ e k), (filter_cons _ (e.2)).
  destruct (decide (parent_id e.2 = p)); [rewrite fmap_cons|]; by rewrite IH.
Qed.

Lemma elem_of_children_of s p i x :
  (i, x) ∈ children_of s p ↔ items s !! i = Some x ∧ parent_id x = p.
Proof.
  unfold children_of. rewrite list_elem_of_filter, elem_of_slots. simpl. tauto.
Qed.

Lemma children_of_NoDup_fst s p : NoDup (children_of s p).*1.
Proof.
  unfold children_of.
  eapply sublist_NoDup; [|apply fmap_sublist, sublist_filter].
  rewrite slots_fst. apply NoDup_seq.
Qed.

Lemma elem_of_sorted_children s p i x :
  (i, x) ∈ sorted_children s p ↔ items s !! i = Some x ∧ parent_id x = p.
Proof.
  unfold sorted_children. by rewrite sorted_elem_of, elem_of_children_of.
Qed.

Lemma sorted_children_NoDup_fst s p : NoDup (sorted_children s p).*1.
Proof.
  unfold sorted_children. rewrite sorted_Permutation.
  apply children_of_NoDup_fst.
Qed.

Lemma sorted_children_sorted s p :
  StronglySorted (key_le (λ e, order e.2)) (sorted_children s p).
Proof. apply sorted_StronglySorted. Qed.

Lemma sorted_children_length s p :
  length (sorted_children s p) = length (children_of s p).
Proof. apply sorted_length. Qed.

(** The sorted children are the sibling group of the specification. *)
Lemma sorted_children_group s p : sibling_group s p (sorted_children s p).*2.
Proof.
  split.
  - unfold sorted_children. rewrite sorted_Permutation.
    by rewrite children_of_snd.
  - eapply StronglySorted_fmap
      with (R1 := key_le (λ e : nat * NestedListItem, order e.2));
      [|apply sorted_children_sorted].
    by intros x y.
Qed.

Lemma find_item_Some s k i x :
  find_item s k = Some (i, x) ↔
  items s !! i = Some x ∧ id x = k
  ∧ ∀ j y, items s !! j = Some y → (j < i)%nat → id y ≠ k.
Proof. unfold find_item. apply (list_find_Some (λ x, id x = k)). Qed.

Lemma find_item_None s k :
  find_item s k = None ↔ ∀ x, x ∈ items s → id x ≠ k.
Proof.
  unfold find_item. rewrite (list_find_None (λ x, id x = k)).
  apply Forall_forall.
Qed.

Lemma get_item_by_id_Some s k x :
  get_item_by_id s k = Some x → x ∈ items s ∧ id x = k.
Proof.
  unfold get_item_by_id. destruct (find_item s k) as [[i y]|] eqn:E; [|done].
  intros [= ->]. apply find_item_Some in E as (? & ? & _).
  split; [by eapply list_elem_of_lookup_2|done].
Qed.

Lemma get_item_by_id_None s k :
  get_item_by_id s k = None ↔ ∀ x, x ∈ items s → id x ≠ k.
Proof.
  unfold get_item_by_id. rewrite fmap_None. apply find_item_None.
Qed.

Lemma get_item_by_id_is_Some s k :
  is_Some (get_item_by_id s k) ↔ ∃ x, x ∈ items s ∧ id x = k.
Proof.
  split.
  - intros [x Hx]. exists x. by apply get_item_by_id_Some.
  - intros (x & Hx & Hk). apply not_eq_None_Some. intros Hn.
    by eapply get_item_by_id_None in Hn.
Qed.

(** With unique ids, a lookup by id finds the item itself. *)
Lemma get_item_by_id_unique s x :
  NoDup (id <$> items s) → x ∈ items s → get_item_by_id s (id x) = Some x.
Proof.
  intros Hnd Hx. destruct (get_item_by_id s (id x)) as [y|] eqn:E.
  - apply get_item_by_id_Some in E as [Hy Hid].
    apply list_elem_of_lookup in Hx as [i Hi], Hy as [j Hj].
    assert (i = j) as ->; [|congruence].
    eapply NoDup_lookup; [exact Hnd|..]; rewrite list_lookup_fmap.
    + by rewrite Hi.
    + rewrite Hj. simpl. by rewrite Hid.
  - eapply get_item_by_id_None in E; [|done]. done.
Qed.

Lemma set_order_same x : set_order x (order x) = x.
Proof. by destruct x. Qed.

(** ** [add_item] *)

Lemma max_default_snoc d xs x :
  max_default d (xs ++ [x]) =
  match xs with [] => x | _ => Z.max (max_default d xs) x end.
Proof. destruct xs as [|y xs]; [done|]. simpl. by rewrite foldl_app. Qed.

Lemma children_of_snoc s x p :
  children_of (with_items s (items s ++ [x])) p =
  children_of s p
  ++ (if decide (parent_id x = p) then [(length (items s), x)] else []).
Proof.
  unfold children_of. simpl. rewrite slots_app, filter_app. f_equal.
  simpl. rewrite filter_cons, filter_nil. simpl.
  rewrite Nat.add_0_r. by destruct (decide (parent_id x = p)).
Qed.

(** What [add_item] does, in one equation: the order given to the new item
    is one more than the maximum over its siblings and itself, taken while
    its own order still holds the default 0. *)
Lemma add_item_eq s nm p :
  add_item s nm p =
  (next_id s,
   {| items := items s
        ++ [{| id := next_id s; name := nm; parent_id := p;
               order := Z.max
                 (max_default (-1) ((λ e, order e.2) <$> children_of s p)) 0
                 + 1 |}];
      active_index := active_index s;
      next_id := next_id s + 1 |}).
Proof.
  unfold add_item, get_next_order. simpl. rewrite children_of_snoc. simpl.
  rewrite decide_True by done. rewrite fmap_app. simpl.
  rewrite max_default_snoc.
  destruct (children_of s p) as [|e l]; done.
Qed.

Lemma add_item_id s nm p : (add_item s nm p).1 = next_id s.
Proof. by rewrite add_item_eq. Qed.

Lemma add_item_next_id s nm p :
  next_id (add_item s nm p).2 = next_id s + 1.
Proof. by rewrite add_item_eq. Qed.

Lemma add_item_ids s nm p :
  id <$> items (add_item s nm p).2 = (id <$> items s) ++ [next_id s].
Proof. rewrite add_item_eq. simpl. by rewrite fmap_app. Qed.

(** ** [flatten_hierarchy] *)

Lemma foldl_collect_step_None rec level g :
  foldl (collect_step rec level) None g = None.
Proof. induction g as [|x g IH]; [done|]. apply IH. Qed.

(** The accumulator loop computes the group's contribution. *)
Lemma foldl_collect_step rec level acc g :
  foldl (collect_step rec level) (Some acc) g =
  (acc ++.) <$> collect_group rec level g.
Proof.
  revert acc. induction g as [|x g IH]; intros acc; simpl.
  - by rewrite app_nil_r.
  - destruct (rec (id x)) as [sub|]; [|apply foldl_collect_step_None].
    rewrite IH. destruct (collect_group rec level g) as [rest|]; [|done].
    simpl. by rewrite <-!app_assoc.
Qed.

Lemma collect_items_S fuel s parent level :
  collect_items (S fuel) s parent level =
  collect_group (λ i, collect_items fuel s i (level + 1)) level
    (sorted_children s parent).*2.
Proof.
  simpl. rewrite foldl_collect_step.
  by destruct (collect_group _ _ _).
Qed.

Lemma collect_group_mono rec rec' level g l :
  (∀ i sub, rec i = Some sub → rec' i = Some sub) →
  collect_group rec level g = Some l → collect_group rec' level g = Some l.
Proof.
  intros Hrec. revert l. induction g as [|x g IH]; intros l; simpl; [done|].
  destruct (rec (id x)) as [sub|] eqn:E; [|done].
  rewrite (Hrec _ _ E).
  destruct (collect_group rec level g) as [rest|]; [|done].
  by rewrite (IH _ eq_refl).
Qed.

(** More fuel never changes a result. *)
Lemma collect_items_mono fuel fuel' s parent level l :
  (fuel ≤ fuel')%nat →
  collect_items fuel s parent level = Some l →
  collect_items fuel' s parent level = Some l.
Proof.
  revert fuel' parent level l.
  induction fuel as [|fuel IH]; intros fuel' parent level l Hle; [done|].
  destruct fuel' as [|fuel']; [lia|]. rewrite !collect_items_S.
  apply collect_group_mono. intros i sub. apply IH. lia.
Qed.

Lemma flatten_hierarchy_mono fuel fuel' s l :
  (fuel ≤ fuel')%nat →
  flatten_hierarchy fuel s = Some l → flatten_hierarchy fuel' s = Some l.
Proof. apply collect_items_mono. Qed.

Lemma collect_group_preorder s rec level g l :
  (∀ i sub, rec i = Some sub →
     preorder s (sorted_children s i).*2 (level + 1) sub) →
  collect_group rec level g = Some l → preorder s g level l.
Proof.
  intros Hrec. revert l. induction g as [|x g IH]; intros l; simpl.
  - intros [= <-]. constructor.
  - destruct (rec (id x)) as [sub|] eqn:E; [|done].
    destruct (collect_group rec level g) as [rest|]; [|done].
    intros [= <-]. econstructor; [apply sorted_children_group|by apply Hrec|].
    by apply IH.
Qed.

Lemma collect_items_preorder fuel s parent level l :
  collect_items fuel s parent level = Some l →
  preorder s (sorted_children s parent).*2 level l.
Proof.
  revert parent level l.
  induction fuel as [|fuel IH]; intros parent level l; [done|].
  rewrite collect_items_S. apply collect_group_preorder.
  intros i sub. apply IH.
Qed.

(** A sibling group with pairwise different orders has one sorted form. *)
Lemma sorted_children_unique s parent g :
  sibling_group s parent g →
  (∀ x y, x ∈ g → y ∈ g → order x = order y → x = y) →
  (sorted_children s parent).*2 = g.
Proof.
  intros [Hperm Hsorted] Hinj.
  destruct (sorted_children_group s parent) as [Hperm' Hsorted'].
  eapply (StronglySorted_unique_strong (key_le order)); [|done..|].
  - intros x y Hx Hy Hxy Hyx. apply Hinj; [by rewrite Hperm, <-Hperm'|done|].
    unfold key_le in *. lia.
  - by rewrite Hperm.
Qed.

Lemma sorted_children_example s parent (l g : list NestedListItem) :
  items s ≡ₚ l →
  filter (λ x, parent_id x = parent) l = g →
  StronglySorted (key_le order) g →
  (∀ x y, x ∈ g → y ∈ g → order x = order y → x = y) →
  (sorted_children s parent).*2 = g.
Proof.
  intros Hperm <- Hsorted Hinj. apply sorted_children_unique; [|done].
  split; [|done]. by rewrite Hperm.
Qed.

(** ** [move_item] *)

Lemma ancestor_walk_mono fuel fuel' s item_id current r :
  (fuel ≤ fuel')%nat →
  ancestor_walk fuel s item_id current = Some r →
  ancestor_walk fuel' s item_id current = Some r.
Proof.
  revert fuel' current.
  induction fuel as [|fuel IH]; intros fuel' [c|] Hle; simpl;
    destruct fuel' as [|fuel']; simpl; try done; try lia;
    case_bool_decide; try done.
  apply IH. lia.
Qed.

Lemma walk_reaches_ancestor_walk s item_id current :
  walk_reaches s item_id current ↔
  ∃ fuel, ancestor_walk fuel s item_id current = Some true.
Proof.
  split.
  - induction 1 as [c Hc|c Hc _ (fuel & IH)].
    + exists 0%nat. simpl. by rewrite bool_decide_eq_true_2.
    + exists (S fuel). simpl. by rewrite bool_decide_eq_false_2.
  - intros (fuel & Hw). revert current Hw.
    induction fuel as [|fuel IH]; intros [c|]; simpl; try done;
      case_bool_decide; try done; intros Hw.
    + by apply walk_here.
    + by apply walk_here.
    + apply walk_up; [done|]. by apply IH.
Qed.

Lemma move_item_mono fuel fuel' s item_id new_parent_id r :
  (fuel ≤ fuel')%nat →
  move_item fuel s item_id new_parent_id = Some r →
  move_item fuel' s item_id new_parent_id = Some r.
Proof.
  intros Hle. unfold move_item.
  destruct (find_item s item_id) as [[i item]|]; [|done].
  destruct (_ || _); [|done].
  destruct (ancestor_walk fuel s _ _) as [b|] eqn:E; [|done].
  by rewrite (ancestor_walk_mono _ _ _ _ _ _ Hle E).
Qed.

Lemma move_item_missing_item fuel s item_id new_parent_id :
  get_item_by_id s item_id = None →
  move_item fuel s item_id new_parent_id = Some (false, s).
Proof.
  unfold get_item_by_id, move_item. rewrite fmap_None. by intros ->.
Qed.

Lemma move_item_missing_parent fuel s item_id new_parent_id :
  new_parent_id ≠ -1 → get_item_by_id s new_parent_id = None →
  move_item fuel s item_id new_parent_id = Some (false, s).
Proof.
  intros Hp Hnone. unfold move_item.
  destruct (find_item s item_id) as [[i item]|]; [|done].
  rewrite Hnone, bool_decide_eq_false_2 by done.
  rewrite bool_decide_eq_false_2; [done|]. by intros [? ?].
Qed.

Lemma move_item_walk_reaches fuel s item_id new_parent_id :
  ancestor_walk fuel s item_id (get_item_by_id s new_parent_id) = Some true →
  move_item fuel s item_id new_parent_id = Some (false, s).
Proof.
  intros Hw. unfold move_item.
  destruct (find_item s item_id) as [[i item]|]; [|done].
  rewrite Hw. by destruct (_ || _).
Qed.

(** ** [reorder_item] *)

Lemma index_of_slot_lookup i x l idx :
  NoDup l.*1 → l !! idx = Some (i, x) → index_of_slot i l = Some idx.
Proof.
  intros Hnd Hl. unfold index_of_slot.
  destruct (list_find (λ e, e.1 = i) l) as [[idx' [i' x']]|] eqn:Hf.
  - apply list_find_Some in Hf as (Hl' & Hi & _). simpl in *. subst.
    f_equal. eapply NoDup_lookup; [exact Hnd|..];
      rewrite list_lookup_fmap; [by rewrite Hl'|by rewrite Hl].
  - apply list_find_None in Hf. rewrite Forall_forall in Hf.
    destruct (Hf (i, x)); [by eapply list_elem_of_lookup_2|done].
Qed.

(** The item found by id is one of its own siblings. *)
Lemma find_item_in_siblings s k i x :
  find_item s k = Some (i, x) →
  ∃ idx, sorted_children s (parent_id x) !! idx = Some (i, x)
         ∧ index_of_slot i (sorted_children s (parent_id x)) = Some idx.
Proof.
  intros (Hi & _ & _)%find_item_Some.
  assert ((i, x) ∈ sorted_children s (parent_id x)) as Hin
    by by apply elem_of_sorted_children.
  apply list_elem_of_lookup in Hin as [idx Hidx]. exists idx.
  split; [done|].
  eapply index_of_slot_lookup; [apply sorted_children_NoDup_fst|done].
Qed.

(** The two ways [reorder_item] succeeds. *)
Lemma reorder_item_true_inv s k direction s' :
  reorder_item s k direction = (true, s') →
  ∃ i x idx idx' j y,
    find_item s k = Some (i, x)
    ∧ sorted_children s (parent_id x) !! idx = Some (i, x)
    ∧ sorted_children s (parent_id x) !! idx' = Some (j, y)
    ∧ (direction = "UP" ∧ idx = S idx' ∨ direction = "DOWN" ∧ idx' = S idx)
    ∧ s' = swap_orders s (i, x) (j, y).
Proof.
  unfold reorder_item.
  destruct (find_item s k) as [[i x]|] eqn:Hfind; [|done].
  destruct (find_item_in_siblings _ _ _ _ Hfind) as (idx & Hidx & ->).
  destruct (bool_decide (direction = "UP") && bool_decide (0 < idx)%nat)
    eqn:Hup.
  - apply andb_true_iff in Hup
      as [Hd%bool_decide_eq_true Hpos%bool_decide_eq_true].
    destruct (sorted_children s (parent_id x) !! (idx - 1)%nat)
      as [[j y]|] eqn:Hsw; [|done].
    intros [= <-]. exists i, x, idx, (idx - 1)%nat, j, y.
    split_and!; try done. left. split; [done|lia].
  - destruct (bool_decide (direction = "DOWN") && bool_decide _) eqn:Hdown;
      [|done].
    apply andb_true_iff in Hdown as [Hd%bool_decide_eq_true _].
    destruct (sorted_children s (parent_id x) !! (idx + 1)%nat)
      as [[j y]|] eqn:Hsw; [|done].
    intros [= <-]. exists i, x, idx, (idx + 1)%nat, j, y.
    split_and!; try done. right. split; [done|lia].
Qed.

Lemma reorder_item_up s k i x idx j y :
  find_item s k = Some (i, x) →
  sorted_children s (parent_id x) !! S idx = Some (i, x) →
  sorted_children s (parent_id x) !! idx = Some (j, y) →
  reorder_item s k "UP" = (true, swap_orders s (i, x) (j, y)).
Proof.
  intros Hfind Hidx Hsw. unfold reorder_item. rewrite Hfind.
  rewrite (index_of_slot_lookup i x _ (S idx));
    [|apply sorted_children_NoDup_fst|done].
  rewrite !bool_decide_eq_true_2 by (done || lia). simpl.
  by rewrite Nat.sub_0_r, Hsw.
Qed.

Lemma reorder_item_down s k i x idx j y :
  find_item s k = Some (i, x) →
  sorted_children s (parent_id x) !! idx = Some (i, x) →
  sorted_children s (parent_id x) !! S idx = Some (j, y) →
  reorder_item s k "DOWN" = (true, swap_orders s (i, x) (j, y)).
Proof.
  intros Hfind Hidx Hsw. unfold reorder_item. rewrite Hfind.
  rewrite (index_of_slot_lookup i x _ idx);
    [|apply sorted_children_NoDup_fst|done].
  rewrite (bool_decide_eq_false_2 ("DOWN" = "UP")) by done. simpl.
  apply lookup_lt_Some in Hsw as Hlen.
  rewrite bool_decide_eq_true_2 by lia. simpl.
  by rewrite Nat.add_1_r, Hsw.
Qed.

(** A rejected [reorder_item] leaves the store as it was. *)
Lemma reorder_item_false s k direction :
  (reorder_item s k direction).1 = false →
  (reorder_item s k direction).2 = s.
Proof.
  unfold reorder_item.
  destruct (find_item s k) as [[i x]|]; [|done].
  destruct (index_of_slot _ _) as [idx|]; [|done].
  destruct (_ && _); [by destruct (_ !! _)|].
  destruct (_ && _); [by destruct (_ !! _)|done].
Qed.

Lemma swap_orders_lookup s i x j y :
  items s !! i = Some x → items s !! j = Some y → i ≠ j →
  items (swap_orders s (i, x) (j, y)) !! i = Some (set_order x (order y))
  ∧ items (swap_orders s (i, x) (j, y)) !! j = Some (set_order y (order x))
  ∧ (∀ k, k ≠ i → k ≠ j →
       items (swap_orders s (i, x) (j, y)) !! k = items s !! k)
  ∧ length (items (swap_orders s (i, x) (j, y))) = length (items s).
Proof.
  intros Hi Hj Hij. unfold swap_orders. simpl.
  apply lookup_lt_Some in Hi as Hli. apply lookup_lt_Some in Hj as Hlj.
  split_and!.
  - rewrite list_lookup_insert_ne by done. by apply list_lookup_insert_eq.
  - apply list_lookup_insert_eq. by rewrite length_insert.
  - intros k Hki Hkj. by rewrite !list_lookup_insert_ne.
  - by rewrite !length_insert.
Qed.

Lemma sorted_children_lookup s p idx i x :
  sorted_children s p !! idx = Some (i, x) →
  items s !! i = Some x ∧ parent_id x = p.
Proof.
  intros Hl. apply elem_of_sorted_children. by eapply list_elem_of_lookup_2.
Qed.

Lemma sorted_children_lookup_ne s p idx idx' i x j y :
  sorted_children s p !! idx = Some (i, x) →
  sorted_children s p !! idx' = Some (j, y) →
  idx ≠ idx' → i ≠ j.
Proof.
  intros Hi Hj Hne ->. apply Hne.
  eapply NoDup_lookup; [apply (sorted_children_NoDup_fst s p)|..];
    rewrite list_lookup_fmap; [by rewrite Hi|by rewrite Hj].
Qed.

Lemma children_of_two s p x y :
  items s = [x; y] → parent_id x = p → parent_id y = p →
  children_of s p = [(0%nat, x); (1%nat, y)].
Proof.
  intros Hs Hx Hy. unfold children_of. rewrite Hs.
  change (slots [x; y]) with [(0%nat, x); (1%nat, y)].
  rewrite !filter_cons, filter_nil. simpl. by rewrite !decide_True.
Qed.

Lemma sublist_filter_mono {A} (P : A → Prop) `{!∀ x, Decision (P x)}
    (l1 l2 : list A) :
  l1 `sublist_of` l2 → filter P l1 `sublist_of` filter P l2.
Proof.
  induction 1 as [|x l1 l2 _ IH|x l1 l2 _ IH]; [done|..];
    rewrite ?filter_cons; destruct (decide (P x));
    auto using sublist_skip, sublist_cons.
Qed.

(** ** Identifiers *)

Lemma foldl_max_spec x xs :
  (foldl Z.max x xs = x ∨ foldl Z.max x xs ∈ xs)
  ∧ x ≤ foldl Z.max x xs ∧ ∀ y, y ∈ xs → y ≤ foldl Z.max x xs.
Proof.
  revert x. induction xs as [|z xs IH]; intros x; simpl.
  - split_and!; [by left|lia|by intros y ?%elem_of_nil].
  - destruct (IH (Z.max x z)) as ([Heq|Hin] & Hle & Hall).
    + split_and!; [|lia|].
      * rewrite Heq. destruct (Z.max_spec x z) as [[_ ->]|[_ ->]];
          [right; left|by left].
      * intros y [->|Hy]%elem_of_cons; [lia|by apply Hall].
    + split_and!; [by right; right|lia|].
      intros y [->|Hy]%elem_of_cons; [lia|by apply Hall].
Qed.

(** [max(xs, default=d)] is the greatest element of a non-empty [xs]. *)
Lemma max_default_spec d xs m :
  m ∈ xs → (∀ y, y ∈ xs → y ≤ m) → max_default d xs = m.
Proof.
  destruct xs as [|x xs]; [by intros ?%elem_of_nil|]. simpl.
  intros Hm Hall. destruct (foldl_max_spec x xs) as (Hin & Hle & Hge).
  apply Z.le_antisymm.
  - apply Hall. destruct Hin as [->|Hin]; [by left|by right].
  - apply elem_of_cons in Hm as [->|Hm]; [done|by apply Hge].
Qed.

Lemma fmap_id_insert_same (l : list NestedListItem) i x x' :
  l !! i = Some x → id x' = id x → id <$> <[i := x']> l = id <$> l.
Proof.
  intros Hi Hid. rewrite list_fmap_insert, Hid.
  apply list_insert_id. by rewrite list_lookup_fmap, Hi.
Qed.

Lemma move_item_ids fuel s k p b s' :
  move_item fuel s k p = Some (b, s') →
  id <$> items s' = id <$> items s ∧ next_id s' = next_id s.
Proof.
  unfold move_item.
  destruct (find_item s k) as [[i item]|] eqn:Hfind; [|by intros [= _ <-]].
  destruct (_ || _); [|by intros [= _ <-]].
  destruct (ancestor_walk _ _ _ _) as [[]|]; [by intros [= _ <-]| |done].
  intros [= _ <-]. simpl. split; [|done].
  apply find_item_Some in Hfind as (Hi & _ & _).
  by eapply fmap_id_insert_same.
Qed.

Lemma swap_orders_ids s i x j y :
  items s !! i = Some x → items s !! j = Some y →
  id <$> items (swap_orders s (i, x) (j, y)) = id <$> items s.
Proof.
  intros Hi Hj. unfold swap_orders. simpl.
  destruct (decide (i = j)) as [->|Hij].
  - rewrite list_insert_insert_eq. by eapply fmap_id_insert_same.
  - rewrite (fmap_id_insert_same _ j y);
      [by eapply fmap_id_insert_same|by rewrite list_lookup_insert_ne|done].
Qed.

Lemma reorder_item_ids s k direction :
  id <$> items (reorder_item s k direction).2 = id <$> items s
  ∧ next_id (reorder_item s k direction).2 = next_id s.
Proof.
  destruct (reorder_item s k direction) as [[] s'] eqn:Hre.
  - apply reorder_item_true_inv in Hre
      as (i & x & idx & idx' & j & y & Hfind & Hidx & Hidx' & _ & ->).
    destruct (sorted_children_lookup _ _ _ _ _ Hidx) as [Hi _].
    destruct (sorted_children_lookup _ _ _ _ _ Hidx') as [Hj _].
    split; [by apply swap_orders_ids|done].
  - pose proof (reorder_item_false s k direction) as Hs.
    rewrite Hre in Hs. simpl in *. by rewrite Hs.
Qed.

(** Ids along one call: a call to [add_item] appends the counter's value,
    a removal drops one slot, and no call changes the id held by a slot. *)
Lemma run_op_ids fuel s o r s' :
  run_op fuel s o = Some (r, s') →
  match o with
  | OpAdd _ _ =>
      r = Some (next_id s)
      ∧ id <$> items s' = (id <$> items s) ++ [next_id s]
      ∧ next_id s' = next_id s + 1
  | OpRemove index =>
      r = None
      ∧ id <$> items s' = delete index (id <$> items s)
      ∧ next_id s' = next_id s
  | _ =>
      r = None
      ∧ id <$> items s' = id <$> items s
      ∧ next_id s' = next_id s
  end.
Proof.
  destruct o as [nm p|k p|k d|index]; unfold run_op.
  - cbv zeta. rewrite add_item_eq. intros [= <- <-]. simpl.
    by rewrite fmap_app.
  - destruct (move_item fuel s k p) as [[b s'']|] eqn:Hmove; [|done].
    intros [= <- <-]. split; [done|]. by eapply move_item_ids.
  - intros [= <- <-]. split; [done|]. apply reorder_item_ids.
  - unfold remove_index. case_bool_decide; [|done].
    intros [= <- <-]. split_and!; [done| |done].
    simpl. apply list_fmap_delete.
Qed.

Lemma well_formed_alt s :
  well_formed s ↔
  NoDup (id <$> items s)
  ∧ Forall (λ i, 0 ≤ i < next_id s) (id <$> items s)
  ∧ 0 ≤ next_id s.
Proof.
  rewrite Forall_fmap, Forall_forall. split.
  - intros [? ? ?]. done.
  - intros (? & ? & ?). by split.
Qed.

Lemma well_formed_empty : well_formed empty_manager.
Proof. split; [constructor|by intros x ?%elem_of_nil|done]. Qed.

Lemma run_op_well_formed fuel s o r s' :
  well_formed s → run_op fuel s o = Some (r, s') → well_formed s'.
Proof.
  rewrite !well_formed_alt. intros (Hnd & Hrange & Hnext) Hrun.
  apply run_op_ids in Hrun.
  destruct o; destruct Hrun as (_ & -> & ->); try done.
  - split_and!; [| |lia].
    + apply NoDup_app. split_and!; [done| |apply NoDup_singleton].
      intros i Hi ->%list_elem_of_singleton.
      rewrite Forall_forall in Hrange. apply Hrange in Hi. lia.
    + apply Forall_app. split.
      * eapply Forall_impl; [done|]. simpl. lia.
      * repeat constructor; lia.
  - split_and!; [| |done].
    + eapply sublist_NoDup; [done|apply sublist_delete].
    + by apply Forall_delete.
Qed.

Lemma run_ops_cons fuel s o os ids s' :
  run_ops fuel s (o :: os) = Some (ids, s') →
  ∃ r s1 ids1,
    run_op fuel s o = Some (r, s1)
    ∧ run_ops fuel s1 os = Some (ids1, s')
    ∧ ids = option_list r ++ ids1.
Proof.
  cbn [run_ops]. destruct (run_op fuel s o) as [[r s1]|]; [|done].
  destruct (run_ops fuel s1 os) as [[ids1 s'']|] eqn:Hrest; [|done].
  intros [= <- <-]. by exists r, s1, ids1.
Qed.

Lemma run_ops_well_formed fuel s os ids s' :
  well_formed s → run_ops fuel s os = Some (ids, s') → well_formed s'.
Proof.
  revert s ids. induction os as [|o os IH]; intros s ids Hwf.
  - by intros [= _ <-].
  - intros (r & s1 & ids1 & Hop & Hops & _)%run_ops_cons.
    eapply IH; [|done]. by eapply run_op_well_formed.
Qed.

Lemma run_ops_ids fuel s os ids s' :
  run_ops fuel s os = Some (ids, s') →
  StronglySorted Z.lt ids
  ∧ (∀ i, i ∈ ids → next_id s ≤ i < next_id s')
  ∧ next_id s ≤ next_id s'.
Proof.
  revert s ids. induction os as [|o os IH]; intros s ids.
  - intros [= <- <-]. split_and!; [constructor|by intros i ?%elem_of_nil|done].
  - intros (r & s1 & ids1 & Hop & Hops & ->)%run_ops_cons.
    destruct (IH _ _ Hops) as (Hsorted & Hrange & Hnext).
    apply run_op_ids in Hop.
    destruct o; destruct Hop as (-> & _ & Hn); simpl;
      rewrite Hn in *; try done.
    split_and!; [|   |lia].
    + constructor; [done|]. apply Forall_forall. intros i Hi.
      apply Hrange in Hi. lia.
    + intros i [->|Hi]%elem_of_cons; [lia|]. apply Hrange in Hi. lia.
Qed.

(** ** Termination of the traversal on well-formed stores *)

Lemma NoDup_fmap_eq {A B} (f : A → B) (l : list A) x y :
  NoDup (f <$> l) → x ∈ l → y ∈ l → f x = f y → x = y.
Proof.
  intros Hnd [i Hi]%list_elem_of_lookup [j Hj]%list_elem_of_lookup Hf.
  assert (i = j) as ->; [|congruence].
  eapply NoDup_lookup; [exact Hnd|..]; rewrite list_lookup_fmap.
  - by rewrite Hi.
  - rewrite Hj. simpl. by rewrite Hf.
Qed.

Section depth.
Context (s : NestedListManager) (Hnd : NoDup (id <$> items s)).

Lemma depth_in_fun n m x : depth_in s n x → depth_in s m x → n = m.
Proof.
  intros Hn. revert m.
  induction Hn as [x Hx|n x y Hx Hy Hid Hn IH]; intros m Hm.
  - by destruct Hm.
  - destruct Hm as [x Hx'|m x y' _ Hy' Hid' Hm]; [done|].
    f_equal. apply IH.
    by rewrite (NoDup_fmap_eq id (items s) y y' Hnd Hy Hy')
      by congruence.
Qed.

(** The way up from an item at depth [n] passes [S n] different items. *)
Lemma depth_in_chain n x :
  depth_in s n x → x ∈ items s →
  ∃ l, length l = S n ∧ NoDup l
       ∧ Forall (λ z, z ∈ items s ∧ ∃ m, (m ≤ n)%nat ∧ depth_in s m z) l.
Proof.
  induction 1 as [x Hx|n x y Hx Hy Hid Hn IH]; intros Hin.
  - exists [x]. split_and!; [done|apply NoDup_singleton|].
    repeat constructor; [done|]. exists 0%nat. split; [done|].
    by constructor.
  - destruct (IH Hy) as (l & Hlen & Hnd' & Hall).
    exists (x :: l). split_and!; [simpl; by rewrite Hlen| |].
    + constructor; [|done]. intros Hxl.
      rewrite Forall_forall in Hall.
      destruct (Hall _ Hxl) as (_ & m & Hm & Hdm).
      assert (m = S n); [|lia].
      eapply depth_in_fun; [done|]. by apply (depth_child s n x y).
    + constructor.
      * split; [done|]. exists (S n). split; [done|]. by apply (depth_child s n x y).
      * eapply Forall_impl; [done|]. simpl.
        intros z (? & m & ? & ?). split; [done|]. exists m.
        split; [lia|done].
Qed.

Lemma depth_in_bound n x :
  depth_in s n x → x ∈ items s → (n < length (items s))%nat.
Proof.
  intros Hn Hx. destruct (depth_in_chain n x Hn Hx) as (l & Hlen & Hl & Hall).
  assert (length l ≤ length (items s))%nat; [|lia].
  apply submseteq_length, NoDup_submseteq; [done|].
  intros z Hz. rewrite Forall_forall in Hall. by apply Hall.
Qed.
End depth.

Lemma collect_group_is_Some rec level g :
  (∀ x, x ∈ g → is_Some (rec (id x))) →
  is_Some (collect_group rec level g).
Proof.
  induction g as [|x g IH]; intros Hrec; simpl; [done|].
  destruct (Hrec x) as [sub ->]; [by left|].
  destruct IH as [rest ->]; [|done].
  intros y Hy. apply Hrec. by right.
Qed.

Lemma elem_of_sorted_children_snd s p x :
  x ∈ (sorted_children s p).*2 ↔ x ∈ items s ∧ parent_id x = p.
Proof.
  destruct (sorted_children_group s p) as [Hperm _].
  rewrite Hperm, list_elem_of_filter. tauto.
Qed.

Lemma collect_items_terminates s fuel d q level :
  well_formed s →
  (q = -1 ∧ d = 0%nat
   ∨ ∃ y d', d = S d' ∧ y ∈ items s ∧ id y = q ∧ depth_in s d' y) →
  (length (items s) < fuel + d)%nat →
  is_Some (collect_items fuel s q level).
Proof.
  intros Hwf. revert d q level.
  induction fuel as [|fuel IH]; intros d q level Hq Hfuel.
  - destruct Hq as [[_ ->]|(y & d' & -> & Hy & _ & Hd)]; [simpl in *; lia|].
    apply (depth_in_bound s (wf_NoDup _ Hwf)) in Hd; [|done]. simpl in *. lia.
  - rewrite collect_items_S. apply collect_group_is_Some.
    intros c [Hc Hp]%elem_of_sorted_children_snd.
    apply (IH (S d)); [|lia].
    right. exists c, d. split_and!; [done..|].
    destruct Hq as [[-> ->]|(y & d' & -> & Hy & Hid & Hd)].
    + by constructor.
    + eapply depth_child; [|exact Hy|congruence|done].
      rewrite Hp, <-Hid. apply (wf_range _ Hwf) in Hy. lia.
Qed.

(** On a well-formed store the traversal finishes within
    [S (length (items s))] nested calls. *)
Lemma flatten_hierarchy_terminates s :
  well_formed s →
  is_Some (flatten_hierarchy (S (length (items s))) s).
Proof.
  intros Hwf. apply (collect_items_terminates s _ 0%nat); [done| |lia].
  by left.
Qed.

Lemma reachable_well_formed s : reachable s → well_formed s.
Proof.
  induction 1 as [|s o fuel r s' _ IH Hop]; [apply well_formed_empty|].
  by eapply run_op_well_formed.
Qed.

(** ** What the traversal lists *)

Lemma collect_group_ext rec rec' level g :
  (∀ x, x ∈ g → rec (id x) = rec' (id x)) →
  collect_group rec level g = collect_group rec' level g.
Proof.
  induction g as [|x g IH]; intros Hrec; simpl; [done|].
  rewrite <-(Hrec x) by by left. rewrite IH; [done|].
  intros y Hy. apply Hrec. by right.
Qed.

Lemma collect_group_elem rec level g l x d :
  collect_group rec level g = Some l → (x, d) ∈ l →
  x ∈ g ∧ d = level
  ∨ ∃ c sub, c ∈ g ∧ rec (id c) = Some sub ∧ (x, d) ∈ sub.
Proof.
  revert l. induction g as [|c g IH]; intros l; simpl.
  - intros [= <-] ?%elem_of_nil. done.
  - destruct (rec (id c)) as [sub|] eqn:Hsub; [|done].
    destruct (collect_group rec level g) as [rest|]; [|done].
    intros [= <-]. rewrite elem_of_cons, elem_of_app.
    intros [[= -> ->]|[Hin|Hin]].
    + left. split; [by left|done].
    + right. exists c, sub. split_and!; [by left|done..].
    + destruct (IH rest eq_refl Hin) as [[? ?]|(c' & sub' & ? & ? & ?)].
      * left. split; [by right|done].
      * right. exists c', sub'. split_and!; [by right|done..].
Qed.

(** Every listed item is stored, and is a child of the starting parent or
    of a stored item. *)
Lemma collect_items_listed fuel s q level l x d :
  collect_items fuel s q level = Some l → (x, d) ∈ l →
  x ∈ items s
  ∧ (parent_id x = q ∨ ∃ y, y ∈ items s ∧ id y = parent_id x).
Proof.
  revert q level l. induction fuel as [|fuel IH]; intros q level l; [done|].
  rewrite collect_items_S. intros Hl Hx.
  destruct (collect_group_elem _ _ _ _ _ _ Hl Hx)
    as [[Hg _]|(c & sub & Hc & Hsub & Hin)].
  - apply elem_of_sorted_children_snd in Hg as [? ?]. split; [done|by left].
  - apply elem_of_sorted_children_snd in Hc as [Hc _].
    destruct (IH _ _ _ Hsub Hin) as [? [Hp|Hp]]; split; try done; right;
      [by exists c|done].
Qed.

Lemma sorted_children_add_other s nm p q :
  q ≠ p → sorted_children (add_item s nm p).2 q = sorted_children s q.
Proof.
  intros Hq. rewrite add_item_eq. unfold sorted_children. f_equal.
  etrans; [apply (children_of_snoc s _ q)|]. simpl.
  rewrite decide_False by done. apply app_nil_r.
Qed.

(** An item added under an id that no item carries does not show, and
    nothing else moves. *)
Lemma collect_items_add_dangling s nm p fuel q level :
  (∀ x, x ∈ items s → id x ≠ p) → q ≠ p →
  collect_items fuel (add_item s nm p).2 q level
  = collect_items fuel s q level.
Proof.
  intros Hp. revert q level.
  induction fuel as [|fuel IH]; intros q level Hq; [done|].
  rewrite !collect_items_S, sorted_children_add_other by done.
  apply collect_group_ext.
  intros x [Hx _]%elem_of_sorted_children_snd. apply IH. by apply Hp.
Qed.

(** ** Stores built with checked parents *)

Lemma depth_in_parent s n x x' :
  parent_id x = parent_id x' → depth_in s n x → depth_in s n x'.
Proof.
  intros Hp Hd. destruct Hd as [x Hx|n x y Hx Hy Hid Hn].
  - apply depth_root. congruence.
  - apply (depth_child s n x' y); congruence.
Qed.

(** Depth only looks at the ids and parent ids that are stored. *)
Lemma depth_in_transfer s s' n x :
  (∀ y, y ∈ items s →
     ∃ y', y' ∈ items s' ∧ id y' = id y ∧ parent_id y' = parent_id y) →
  depth_in s n x → depth_in s' n x.
Proof.
  intros Hsub. induction 1 as [x Hx|n x y Hx Hy Hid Hn IH].
  - by apply depth_root.
  - destruct (Hsub y Hy) as (y' & Hy' & Hid' & Hp').
    apply (depth_child s' n x y'); [done..|congruence|].
    by apply (depth_in_parent s' n y y').
Qed.

Lemma ancestor_item s a k : ancestor s a k → ∃ c, c ∈ items s ∧ id c = k.
Proof. destruct 1 as [c Hc|c a Hc _]; by exists c. Qed.

Lemma get_item_by_id_sentinel s :
  well_formed s → get_item_by_id s (-1) = None.
Proof.
  intros Hwf. apply get_item_by_id_None. intros x Hx.
  apply (wf_range _ Hwf) in Hx. lia.
Qed.

Lemma ancestor_depth s a k c n :
  well_formed s → ancestor s a k →
  c ∈ items s → id c = k → depth_in s n c →
  a = -1
  ∨ ∃ y m, y ∈ items s ∧ id y = a ∧ depth_in s m y ∧ (m < n)%nat.
Proof.
  intros Hwf Ha. revert c n.
  induction Ha as [c' Hc'|c' a Hc' Ha IH]; intros c n Hc Hid Hn;
    assert (c = c') as -> by (by eapply NoDup_fmap_eq; [apply Hwf|..]);
    destruct Hn as [c' Hroot|n c' y Hp Hy Hidy Hn].
  - by left.
  - right. exists y, n. split_and!; [done..|lia].
  - rewrite Hroot in Ha. apply ancestor_item in Ha as (z & Hz & Hidz).
    apply (wf_range _ Hwf) in Hz. lia.
  - destruct (IH y n Hy Hidy Hn) as [?|(z & m & ? & ? & ? & ?)]; [by left|].
    right. exists z, m. split_and!; [done..|lia].
Qed.

(** When every item hangs from the sentinel, no item is its own
    ancestor. *)
Lemma rooted_acyclic s : well_formed s → rooted s → acyclic s.
Proof.
  intros Hwf Hroot c Hc Ha. destruct (Hroot c Hc) as [n Hn].
  destruct (ancestor_depth s _ _ c n Hwf Ha Hc eq_refl Hn)
    as [Hid|(y & m & Hy & Hid & Hm & Hlt)].
  - apply (wf_range _ Hwf) in Hc. lia.
  - assert (y = c) as -> by (by eapply NoDup_fmap_eq; [apply Hwf|..]).
    assert (m = n) by (eapply depth_in_fun; [apply Hwf|done..]). lia.
Qed.

Lemma ancestor_walk_top fuel s k : ancestor_walk fuel s k None = Some false.
Proof. by destruct fuel. Qed.

Lemma ancestor_walk_rooted s k c n fuel :
  well_formed s → c ∈ items s → depth_in s n c → (n < fuel)%nat →
  is_Some (ancestor_walk fuel s k (Some c)).
Proof.
  intros Hwf Hc Hn. revert fuel.
  induction Hn as [c Hroot|n c y Hp Hy Hid Hn IH]; intros fuel Hfuel;
    (destruct fuel as [|fuel]; [lia|]); simpl;
    (case_bool_decide; [done|]).
  - rewrite Hroot, get_item_by_id_sentinel by done.
    by rewrite ancestor_walk_top.
  - rewrite <-Hid, get_item_by_id_unique by (done || apply Hwf).
    apply IH; [done|lia].
Qed.

(** With every item hanging from the sentinel, [move_item] returns, and
    the length of the collection is fuel enough. *)
Lemma move_item_terminates s k p :
  well_formed s → rooted s →
  is_Some (move_item (length (items s)) s k p).
Proof.
  intros Hwf Hroot. unfold move_item.
  destruct (find_item s k) as [[i x]|]; [|done].
  destruct (_ || _); [|done].
  destruct (get_item_by_id s p) as [y|] eqn:Hy.
  - apply get_item_by_id_Some in Hy as [Hy _].
    destruct (Hroot y Hy) as [n Hn].
    destruct (ancestor_walk_rooted s k y n (length (items s)) Hwf Hy Hn)
      as [[] ->]; [|done..].
    by eapply depth_in_bound; [apply Hwf|..].
  - by rewrite ancestor_walk_top.
Qed.

Lemma rooted_add_item s nm p :
  well_formed s → rooted s →
  p = -1 ∨ is_Some (get_item_by_id s p) →
  rooted (add_item s nm p).2.
Proof.
  intros Hwf Hroot Hp x. rewrite add_item_eq. simpl.
  set (s' := {| items := _ |}).
  assert (∀ n y, depth_in s n y → depth_in s' n y) as Hkeep.
  { intros n y. apply depth_in_transfer. intros z Hz. exists z.
    split; [|done]. simpl. apply elem_of_app. by left. }
  intros [Hx|Hx]%elem_of_app.
  - destruct (Hroot x Hx) as [n Hn]. exists n. by apply Hkeep.
  - apply list_elem_of_singleton in Hx as ->.
    destruct Hp as [->|[y Hy]].
    + exists 0%nat. by apply depth_root.
    + apply get_item_by_id_Some in Hy as [Hy Hid].
      destruct (Hroot y Hy) as [n Hn]. exists (S n).
      apply (depth_child s' n _ y); simpl; [|by apply elem_of_app; left|done|
                                             by apply Hkeep].
      apply (wf_range _ Hwf) in Hy. lia.
Qed.

Lemma fmap_insert_same {B} (f : NestedListItem → B)
    (l : list NestedListItem) i x x' :
  l !! i = Some x → f x' = f x → f <$> <[i := x']> l = f <$> l.
Proof.
  intros Hi Hf. rewrite list_fmap_insert, Hf.
  apply list_insert_id. by rewrite list_lookup_fmap, Hi.
Qed.

Lemma swap_orders_parents s i x j y :
  items s !! i = Some x → items s !! j = Some y →
  (λ z, (id z, parent_id z)) <$> items (swap_orders s (i, x) (j, y))
  = (λ z, (id z, parent_id z)) <$> items s.
Proof.
  intros Hi Hj. unfold swap_orders. simpl.
  destruct (decide (i = j)) as [->|Hij].
  - rewrite list_insert_insert_eq. by eapply fmap_insert_same.
  - rewrite (fmap_insert_same _ _ j y);
      [by eapply fmap_insert_same|by rewrite list_lookup_insert_ne|done].
Qed.

Lemma rooted_reorder_item s k direction :
  rooted s → rooted (reorder_item s k direction).2.
Proof.
  intros Hroot.
  destruct (reorder_item s k direction) as [[] s'] eqn:Hre; simpl.
  - apply reorder_item_true_inv in Hre
      as (i & x & idx & idx' & j & y & Hfind & Hidx & Hidx' & _ & ->).
    destruct (sorted_children_lookup _ _ _ _ _ Hidx) as [Hi _].
    destruct (sorted_children_lookup _ _ _ _ _ Hidx') as [Hj _].
    pose proof (swap_orders_parents s i x j y Hi Hj) as Hsame.
    set (s' := swap_orders s (i, x) (j, y)) in *.
    intros z' Hz'.
    assert (∃ z, z ∈ items s ∧ id z = id z' ∧ parent_id z = parent_id z')
      as (z & Hz & _ & Hpz).
    { apply (list_elem_of_fmap_2 (λ z, (id z, parent_id z))) in Hz'.
      rewrite Hsame in Hz'.
      apply list_elem_of_fmap in Hz' as (z & [= ? ?] & Hz). by exists z. }
    destruct (Hroot z Hz) as [n Hn]. exists n.
    apply (depth_in_parent s' n z z' Hpz).
    revert Hn. apply depth_in_transfer. intros w Hw.
    apply (list_elem_of_fmap_2 (λ z, (id z, parent_id z))) in Hw.
    rewrite <-Hsame in Hw.
    apply list_elem_of_fmap in Hw as (w' & [= ? ?] & Hw'). by exists w'.
  - pose proof (reorder_item_false s k direction) as Hs.
    rewrite Hre in Hs. simpl in Hs. by rewrite Hs.
Qed.

Section move.
Context (s : NestedListManager) (Hwf : well_formed s) (Hroot : rooted s).
Context (i : nat) (x0 x1 : NestedListItem) (k p : Z) (fuel : nat).
Context (Hi : items s !! i = Some x0) (Hk : id x0 = k).
Context (Hid1 : id x1 = k) (Hp1 : parent_id x1 = p).
Context (Hparent : p = -1 ∨ is_Some (get_item_by_id s p)).
Context (Hwalk : ancestor_walk fuel s k (get_item_by_id s p) = Some false).

Let s' := with_items s (<[i := x1]> (items s)).

Lemma move_kept y : y ∈ items s → id y ≠ k → y ∈ items s'.
Proof.
  intros [j Hj]%list_elem_of_lookup Hy. apply list_elem_of_lookup.
  exists j. simpl. rewrite list_lookup_insert_ne; [done|].
  intros ->. congruence.
Qed.

Lemma move_new : x1 ∈ items s'.
Proof. apply list_elem_of_insert. by eapply lookup_lt_Some. Qed.

Lemma move_elem_inv y : y ∈ items s' → y = x1 ∨ y ∈ items s.
Proof.
  intros [j Hj]%list_elem_of_lookup. simpl in Hj.
  destruct (decide (i = j)) as [->|Hij].
  - left. rewrite list_lookup_insert_eq in Hj by by eapply lookup_lt_Some.
    congruence.
  - right. rewrite list_lookup_insert_ne in Hj by done.
    by eapply list_elem_of_lookup_2.
Qed.

(** The items that the walk passed keep their depth. *)
Lemma move_walk_depth f y n :
  ancestor_walk f s k (Some y) = Some false →
  depth_in s n y → depth_in s' n y.
Proof.
  intros Hw Hn. revert f Hw.
  induction Hn as [y Hy|n y z Hp Hz Hid Hn IH]; intros f Hw.
  - by apply depth_root.
  - destruct f as [|f]; simpl in Hw; case_bool_decide as Hyk; try done.
    rewrite <-Hid, get_item_by_id_unique in Hw by (done || apply Hwf).
    apply (depth_child s' n y z); [done| |done|by eapply IH].
    apply move_kept; [done|]. intros Hzk.
    destruct f; simpl in Hw; by rewrite bool_decide_eq_true_2 in Hw.
Qed.

Lemma move_new_depth : ∃ m, depth_in s' m x1.
Proof.
  destruct (decide (p = -1)) as [Hp|Hp].
  - exists 0%nat. apply depth_root. congruence.
  - destruct Hparent as [?|[y Hy]]; [done|]. rewrite Hy in Hwalk.
    apply get_item_by_id_Some in Hy as [Hy Hid].
    destruct (Hroot y Hy) as [n Hn]. exists (S n).
    apply (depth_child s' n x1 y); [congruence| |congruence|
                                     by eapply move_walk_depth].
    apply move_kept; [done|]. intros Hyk.
    destruct fuel; simpl in Hwalk; by rewrite bool_decide_eq_true_2 in Hwalk.
Qed.

Lemma move_depth n x : depth_in s n x → ∃ m, depth_in s' m x.
Proof.
  induction 1 as [x Hx|n x y Hx Hy Hid Hn [m IH]].
  - exists 0%nat. by apply depth_root.
  - destruct (decide (id y = k)) as [Hyk|Hyk].
    + destruct move_new_depth as [m' Hm']. exists (S m').
      apply (depth_child s' m' x x1); [done|apply move_new|congruence|done].
    + exists (S m). apply (depth_child s' m x y); [done| |done..].
      by apply move_kept.
Qed.

Lemma move_rooted : rooted s'.
Proof.
  intros x [->|Hx]%move_elem_inv; [apply move_new_depth|].
  destruct (Hroot x Hx) as [n Hn]. by eapply move_depth.
Qed.
End move.

Lemma rooted_move_item fuel s k p b s' :
  well_formed s → rooted s →
  move_item fuel s k p = Some (b, s') → rooted s'.
Proof.
  intros Hwf Hroot. unfold move_item.
  destruct (find_item s k) as [[i x0]|] eqn:Hfind; [|by intros [= _ <-]].
  destruct (bool_decide (p = -1) || _) eqn:Hcond; [|by intros [= _ <-]].
  destruct (ancestor_walk _ _ _ _) as [[]|] eqn:Hwalk;
    [by intros [= _ <-]| |done].
  intros [= _ <-]. apply find_item_Some in Hfind as (Hi & Hk & _).
  eapply (move_rooted s Hwf Hroot i x0 _ k p fuel Hi Hk); [done..| |done].
  apply orb_true_iff in Hcond as [?%bool_decide_eq_true|?%bool_decide_eq_true];
    [by left|by right].
Qed.

(** Stores built from the empty one by calls with checked parents are
    well formed and every item hangs from the sentinel. *)
Lemma reachable_checked_rooted s :
  reachable_checked s → well_formed s ∧ rooted s.
Proof.
  induction 1 as [|s o fuel r s' _ [Hwf Hroot] Hchk Hrun].
  - split; [apply well_formed_empty|by intros x ?%elem_of_nil].
  - split; [by eapply run_op_well_formed|].
    destruct o as [nm p|k p|k d|index]; simpl in Hchk, Hrun.
    + injection Hrun as _ <-. by apply rooted_add_item.
    + destruct (move_item fuel s k p) as [[b s'']|] eqn:Hmove; [|done].
      injection Hrun as _ <-. by eapply rooted_move_item.
    + injection Hrun as _ <-. by apply rooted_reorder_item.
    + done.
Qed.

(** With checked parents the parent graph stays acyclic and [move_item]
    always returns. *)
Lemma reachable_checked_acyclic s :
  reachable_checked s →
  acyclic s ∧ ∀ k p, is_Some (move_item (length (items s)) s k p).
Proof.
  intros [Hwf Hroot]%reachable_checked_rooted. split.
  - by apply rooted_acyclic.
  - intros k p. by apply move_item_terminates.
Qed.

(** ** Which items the traversal lists, and where *)

Lemma collect_group_intro rec level g l x :
  collect_group rec level g = Some l → x ∈ g →
  (x, level) ∈ l
  ∧ ∃ sub, rec (id x) = Some sub ∧ ∀ e, e ∈ sub → e ∈ l.
Proof.
  revert l. induction g as [|c g IH]; intros l; simpl;
    [by intros _ ?%elem_of_nil|].
  destruct (rec (id c)) as [sub|] eqn:Hsub; [|done].
  destruct (collect_group rec level g) as [rest|]; [|done].
  intros [= <-] [->|Hx]%elem_of_cons.
  - split; [by left|]. exists sub. split; [done|].
    intros e He. right. apply elem_of_app. by left.
  - destruct (IH rest eq_refl Hx) as (Hin & sub' & Hsub' & Hall).
    split; [right; apply elem_of_app; by right|].
    exists sub'. split; [done|]. intros e He. right.
    apply elem_of_app. right. by apply Hall.
Qed.

Lemma hangs_extend s q c n x :
  c ∈ items s → parent_id c = q → hangs s (id c) n x → hangs s q (S n) x.
Proof.
  intros Hc Hq. induction 1 as [x Hx|n x y Hy Hid Hn IH].
  - apply (hangs_below s q 0 x c); [done..|]. by apply hangs_child.
  - by apply (hangs_below s q (S n) x y).
Qed.

Lemma hangs_fun s q q' n x :
  NoDup (id <$> items s) → hangs s q n x → hangs s q' n x → q = q'.
Proof.
  intros Hnd Hq. revert q'.
  induction Hq as [x Hx|n x y Hy Hid Hn IH]; intros q' Hq'.
  - inversion Hq'; congruence.
  - inversion Hq' as [|n' x' y' Hy' Hid' Hn']; subst.
    apply IH.
    by rewrite (NoDup_fmap_eq id (items s) y y' Hnd Hy Hy') by congruence.
Qed.

Lemma depth_in_hangs s n x : depth_in s n x → hangs s (-1) n x.
Proof.
  induction 1 as [x Hx|n x y Hx Hy Hid Hn IH].
  - by apply hangs_child.
  - by apply (hangs_below s (-1) n x y).
Qed.

Lemma hangs_depth_in s n x :
  well_formed s → hangs s (-1) n x → depth_in s n x.
Proof.
  intros Hwf. induction 1 as [x Hx|n x y Hy Hid Hn IH].
  - by apply depth_root.
  - apply (depth_child s n x y); [|done..].
    apply (wf_range _ Hwf) in Hy. lia.
Qed.

(** A listed item sits as many levels below the starting level as parent
    links lead from its parent to the starting parent. *)
Lemma collect_items_hangs fuel s q level l x d :
  collect_items fuel s q level = Some l → (x, d) ∈ l →
  x ∈ items s ∧ ∃ n, d = level + Z.of_nat n ∧ hangs s q n x.
Proof.
  revert q level l d. induction fuel as [|fuel IH]; intros q level l d;
    [done|].
  rewrite collect_items_S. intros Hl Hx.
  destruct (collect_group_elem _ _ _ _ _ _ Hl Hx)
    as [[Hg ->]|(c & sub & Hc & Hsub & Hin)].
  - apply elem_of_sorted_children_snd in Hg as [? ?]. split; [done|].
    exists 0%nat. split; [lia|by apply hangs_child].
  - apply elem_of_sorted_children_snd in Hc as [Hc Hpc].
    destruct (IH _ _ _ _ Hsub Hin) as (? & n & -> & Hn). split; [done|].
    exists (S n). split; [lia|]. by apply (hangs_extend s q c).
Qed.

Lemma collect_items_children fuel s q level l y d x :
  collect_items fuel s q level = Some l → (y, d) ∈ l →
  x ∈ items s → parent_id x = id y → (x, d + 1) ∈ l.
Proof.
  revert q level l d. induction fuel as [|fuel IH]; intros q level l d;
    [done|].
  rewrite collect_items_S. intros Hl Hy Hx Hp.
  destruct (collect_group_elem _ _ _ _ _ _ Hl Hy)
    as [[Hg ->]|(c & sub & Hc & Hsub & Hin)].
  - destruct (collect_group_intro _ _ _ _ _ Hl Hg) as (_ & sub & Hsub & Hall).
    apply Hall. destruct fuel as [|fuel]; [done|].
    rewrite collect_items_S in Hsub.
    apply (collect_group_intro _ _ _ _ x Hsub).
    by apply elem_of_sorted_children_snd.
  - destruct (collect_group_intro _ _ _ _ _ Hl Hc) as (_ & sub' & Hsub' & Hall).
    apply Hall. assert (sub' = sub) as -> by congruence.
    by eapply IH.
Qed.

Lemma collect_items_complete fuel s q level l n x :
  collect_items fuel s q level = Some l →
  x ∈ items s → hangs s q n x → (x, level + Z.of_nat n) ∈ l.
Proof.
  intros Hl Hx Hn. revert Hx.
  induction Hn as [x Hp|n x y Hy Hid Hn IH]; intros Hx.
  - destruct fuel as [|fuel]; [done|]. rewrite collect_items_S in Hl.
    replace (level + Z.of_nat 0) with level by lia.
    apply (collect_group_intro _ _ _ _ x Hl).
    by apply elem_of_sorted_children_snd.
  - replace (level + Z.of_nat (S n)) with (level + Z.of_nat n + 1) by lia.
    eapply collect_items_children; [done|by apply IH|done..].
Qed.

Lemma collect_group_NoDup s fuel level g l :
  NoDup (id <$> items s) →
  (∀ q lev l', collect_items fuel s q lev = Some l' → NoDup l') →
  NoDup g → (∀ c, c ∈ g → c ∈ items s) →
  collect_group (λ i, collect_items fuel s i (level + 1)) level g = Some l →
  NoDup l.
Proof.
  intros Hnd IHf. revert l.
  induction g as [|c g IH]; intros l Hg Hsub; simpl.
  - intros [= <-]. constructor.
  - destruct (collect_items fuel s (id c) (level + 1)) as [sub|] eqn:Hc;
      [|done].
    destruct (collect_group _ level g) as [rest|] eqn:Hrest; [|done].
    intros [= <-]. apply NoDup_cons in Hg as [Hcg Hg].
    assert (∀ x d, (x, d) ∈ rest →
              x ∈ g ∧ d = level
              ∨ ∃ c', c' ∈ g ∧ ∃ n, d = level + 1 + Z.of_nat n
                      ∧ hangs s (id c') n x) as Hrest_elem.
    { intros x d Hin.
      destruct (collect_group_elem _ _ _ _ _ _ Hrest Hin)
        as [?|(c' & sub' & Hc' & Hsub' & Hin')]; [by left|].
      right. exists c'. split; [done|].
      by destruct (collect_items_hangs _ _ _ _ _ _ _ Hsub' Hin') as [_ ?]. }
    apply NoDup_cons. split; [|apply NoDup_app; split_and!].
    + rewrite elem_of_app. intros [Hin|Hin].
      * destruct (collect_items_hangs _ _ _ _ _ _ _ Hc Hin)
          as (_ & n & ? & _). lia.
      * destruct (Hrest_elem _ _ Hin) as [[? _]|(c' & _ & n & ? & _)];
          [done|lia].
    + by eapply IHf.
    + intros [x d] Hin Hin'.
      destruct (collect_items_hangs _ _ _ _ _ _ _ Hc Hin)
        as (_ & n & -> & Hn).
      destruct (Hrest_elem _ _ Hin') as [[_ ?]|(c' & Hc' & n' & Heq & Hn')];
        [lia|].
      assert (n' = n) as -> by lia.
      assert (id c = id c') as Hid by by eapply hangs_fun.
      assert (c = c'); [|by subst].
      eapply NoDup_fmap_eq; [exact Hnd|..]; [|by apply Hsub; right|done].
      apply Hsub. by left.
    + apply IH; [done| |done]. intros c' Hc'. apply Hsub. by right.
Qed.

Lemma sorted_children_snd_NoDup s q :
  NoDup (id <$> items s) → NoDup (sorted_children s q).*2.
Proof.
  intros Hnd. destruct (sorted_children_group s q) as [Hperm _].
  rewrite Hperm. apply NoDup_filter. by eapply NoDup_fmap_1.
Qed.

Lemma collect_items_NoDup fuel s q level l :
  NoDup (id <$> items s) →
  collect_items fuel s q level = Some l → NoDup l.
Proof.
  intros Hnd. revert q level l.
  induction fuel as [|fuel IH]; intros q level l; [done|].
  rewrite collect_items_S.
  apply collect_group_NoDup; [done|done|by apply sorted_children_snd_NoDup|].
  by intros c [? _]%elem_of_sorted_children_snd.
Qed.

Lemma flatten_hierarchy_listed fuel s l x d :
  well_formed s → flatten_hierarchy fuel s = Some l →
  (x, d) ∈ l ↔ x ∈ items s ∧ ∃ n, d = Z.of_nat n ∧ depth_in s n x.
Proof.
  intros Hwf Hl. split.
  - intros Hx.
    destruct (collect_items_hangs _ _ _ _ _ _ _ Hl Hx) as (? & n & -> & Hn).
    split; [done|]. exists n. split; [lia|by apply hangs_depth_in].
  - intros (Hx & n & -> & Hn).
    apply (collect_items_complete _ _ _ _ _ n x Hl Hx).
    by apply depth_in_hangs.
Qed.

Lemma flatten_hierarchy_NoDup_ids fuel s l :
  well_formed s → flatten_hierarchy fuel s = Some l →
  NoDup (id <$> l.*1).
Proof.
  intros Hwf Hl. rewrite <-list_fmap_compose.
  apply NoDup_fmap_2_strong;
    [|by eapply collect_items_NoDup; [apply Hwf|]].
  intros [x d] [x' d'] Hx Hx' Hid. simpl in Hid.
  apply (flatten_hierarchy_listed _ _ _ _ _ Hwf Hl) in Hx
    as (Hx & n & -> & Hn).
  apply (flatten_hierarchy_listed _ _ _ _ _ Hwf Hl) in Hx'
    as (Hx' & n' & -> & Hn').
  assert (x = x') as <- by (by eapply NoDup_fmap_eq; [apply Hwf|..]).
  by rewrite (depth_in_fun s (wf_NoDup _ Hwf) n n' x Hn Hn').
Qed.

(** ** Where siblings stand in the listing *)

(** A member of a group is listed with its subtree as one stretch of what
    the group contributes. *)
Lemma collect_group_segment rec level g l c :
  collect_group rec level g = Some l → c ∈ g →
  ∃ sub pre post,
    rec (id c) = Some sub ∧ l = pre ++ (c, level) :: sub ++ post.
Proof.
  revert l. induction g as [|c0 g IH]; intros l; simpl;
    [by intros _ ?%elem_of_nil|].
  destruct (rec (id c0)) as [sub0|] eqn:Hsub0; [|done].
  destruct (collect_group rec level g) as [rest|]; [|done].
  intros [= <-] [->|Hc]%elem_of_cons.
  - by exists sub0, [], rest.
  - destruct (IH rest eq_refl Hc) as (sub & pre & post & Hsub & ->).
    exists sub, ((c0, level) :: sub0 ++ pre), post. split; [done|].
    simpl. by rewrite <-app_assoc.
Qed.

(** Members of a group are listed in the order of the group. *)
Lemma collect_group_two rec level g l ia ib x y :
  collect_group rec level g = Some l →
  g !! ia = Some x → g !! ib = Some y → (ia < ib)%nat →
  ∃ l1 l2 l3, l = l1 ++ (x, level) :: l2 ++ (y, level) :: l3.
Proof.
  revert l ia ib. induction g as [|c g IH]; intros l ia ib; simpl; [done|].
  destruct (rec (id c)) as [sub|] eqn:Hsub; [|done].
  destruct (collect_group rec level g) as [rest|] eqn:Hrest; [|done].
  intros [= <-] Hx Hy Hlt.
  destruct ib as [|ib]; [lia|]. simpl in Hy.
  destruct ia as [|ia]; simpl in Hx.
  - injection Hx as ->.
    destruct (collect_group_segment rec level g rest y Hrest)
      as (suby & pre & post & _ & ->); [by eapply list_elem_of_lookup_2|].
    exists [], (sub ++ pre), (suby ++ post). simpl. by rewrite <-app_assoc.
  - destruct (IH rest ia ib eq_refl Hx Hy) as (l1 & l2 & l3 & ->); [lia|].
    exists ((c, level) :: sub ++ l1), l2, l3. simpl. by rewrite <-app_assoc.
Qed.

(** The group an item belongs to is listed as one stretch, at the item's
    level. *)
Lemma collect_items_segment fuel s q level l n x :
  collect_items fuel s q level = Some l → hangs s q n x →
  ∃ fuel' pre sub post,
    collect_items fuel' s (parent_id x) (level + Z.of_nat n) = Some sub
    ∧ l = pre ++ sub ++ post.
Proof.
  intros Hl. induction 1 as [x Hp|n x y Hy Hid Hn IH].
  - exists fuel, [], l, []. rewrite Hp, app_nil_r. simpl.
    by rewrite Z.add_0_r.
  - destruct IH as (fuel' & pre & sub & post & Hsub & ->).
    destruct fuel' as [|f]; [done|]. rewrite collect_items_S in Hsub.
    destruct (collect_group_segment _ _ _ _ y Hsub)
      as (suby & pre' & post' & Hrec & ->).
    { by apply elem_of_sorted_children_snd. }
    exists f, (pre ++ pre' ++ [(y, level + Z.of_nat n)]), suby, (post' ++ post).
    split.
    + rewrite <-Hid.
      by replace (level + Z.of_nat (S n)) with (level + Z.of_nat n + 1) by lia.
    + rewrite <-!app_assoc. simpl. by rewrite <-!app_assoc.
Qed.

(** Of two siblings, the one that comes first in the sorted group is
    listed first. *)
Lemma collect_items_siblings_order fuel s q level l n x y ia ib i j :
  collect_items fuel s q level = Some l → hangs s q n x →
  sorted_children s (parent_id x) !! ia = Some (j, y) →
  sorted_children s (parent_id x) !! ib = Some (i, x) →
  (ia < ib)%nat →
  ∃ l1 l2 l3,
    l = l1 ++ (y, level + Z.of_nat n) :: l2
           ++ (x, level + Z.of_nat n) :: l3.
Proof.
  intros Hl Hn Hy Hx Hlt.
  destruct (collect_items_segment _ _ _ _ _ _ _ Hl Hn)
    as (fuel' & pre & sub & post & Hsub & ->).
  destruct fuel' as [|f]; [done|]. rewrite collect_items_S in Hsub.
  destruct (collect_group_two _ _ _ _ ia ib y x Hsub)
    as (l1 & l2 & l3 & ->); [..|done|].
  - by rewrite list_lookup_fmap, Hy.
  - by rewrite list_lookup_fmap, Hx.
  - exists (pre ++ l1), l2, (l3 ++ post).
    rewrite <-!app_assoc. simpl. by rewrite <-!app_assoc.
Qed.

(** In a sorted group an item of order 0 stands right before an item of
    order 1 when no third member has one of these orders. *)
Lemma sorted_children_adjacent s i j x y :
  items s !! i = Some x → items s !! j = Some y →
  parent_id y = parent_id x → order x = 0 → order y = 1 →
  (∀ k z, items s !! k = Some z → k ≠ i → k ≠ j →
     parent_id z = parent_id x → order z ≠ 0 ∧ order z ≠ 1) →
  ∃ idx,
    sorted_children s (parent_id x) !! idx = Some (i, x)
    ∧ sorted_children s (parent_id x) !! S idx = Some (j, y).
Proof.
  intros Hi Hj Hp Hox Hoy Hothers.
  pose proof (sorted_children_sorted s (parent_id x)) as Hsorted.
  assert ((i, x) ∈ sorted_children s (parent_id x)) as [a Ha]%list_elem_of_lookup_1
    by by apply elem_of_sorted_children.
  assert ((j, y) ∈ sorted_children s (parent_id x)) as [b Hb]%list_elem_of_lookup_1
    by by apply elem_of_sorted_children.
  exists a. split; [done|].
  assert (a ≠ b) as Hab by (intros ->; rewrite Ha in Hb; simplify_eq/=; lia).
  assert (¬ (b < a)%nat) as Hba.
  { intros Hlt.
    pose proof (StronglySorted_lookup_lt _ _ _ _ _ _ Hsorted Hb Ha Hlt) as Hle.
    unfold key_le in Hle. simpl in Hle. lia. }
  destruct (decide (b = S a)) as [->|Hne]; [done|].
  destruct (lookup_lt_is_Some_2 (sorted_children s (parent_id x)) (S a))
    as [[k z] Hk]; [apply lookup_lt_Some in Hb; lia|].
  pose proof (StronglySorted_lookup_lt _ _ _ _ _ _ Hsorted Ha Hk) as Hle1.
  pose proof (StronglySorted_lookup_lt _ _ _ _ _ _ Hsorted Hk Hb) as Hle2.
  unfold key_le in Hle1, Hle2. simpl in Hle1, Hle2.
  destruct (sorted_children_lookup _ _ _ _ _ Hk) as [Hkz Hpz].
  destruct (Hothers k z Hkz); [| |done|lia].
  - eapply (sorted_children_lookup_ne s (parent_id x) (S a) a); [done..|lia].
  - eapply (sorted_children_lookup_ne s (parent_id x) (S a) b); [done..|lia].
Qed.

(** Of two siblings that hang from the sentinel, the one with the lower
    order is listed first, at the same level. *)
Lemma flatten_hierarchy_lower_order_first fuel s l i j x y n :
  flatten_hierarchy fuel s = Some l →
  items s !! i = Some x → items s !! j = Some y →
  parent_id y = parent_id x → order y < order x →
  hangs s (-1) n x →
  ∃ l1 l2 l3,
    l = l1 ++ (y, Z.of_nat n) :: l2 ++ (x, Z.of_nat n) :: l3.
Proof.
  intros Hl Hi Hj Hp Hlt Hn.
  pose proof (sorted_children_sorted s (parent_id x)) as Hsorted.
  assert ((i, x) ∈ sorted_children s (parent_id x)) as [b Hb]%list_elem_of_lookup_1
    by by apply elem_of_sorted_children.
  assert ((j, y) ∈ sorted_children s (parent_id x)) as [a Ha]%list_elem_of_lookup_1
    by by apply elem_of_sorted_children.
  assert (a ≠ b) as Hab by (intros ->; rewrite Ha in Hb; simplify_eq/=; lia).
  assert (¬ (b < a)%nat) as Hba.
  { intros Hlt'.
    pose proof (StronglySorted_lookup_lt _ _ _ _ _ _ Hsorted Hb Ha Hlt') as Hle.
    unfold key_le in Hle. simpl in Hle. lia. }
  destruct (collect_items_siblings_order fuel s (-1) 0 l n x y a b i j
              Hl Hn Ha Hb) as (l1 & l2 & l3 & ->); [lia|].
  exists l1, l2, l3. by rewrite Z.add_0_l.
Qed.

(** In a list without repeated ids, positions are told by the ids. *)
Lemma listing_positions (l l1 l2 l3 : list (NestedListItem * Z))
    x y d a b dx dy :
  NoDup (id <$> l.*1) →
  l = l1 ++ (y, d) :: l2 ++ (x, d) :: l3 →
  l !! a = Some (y, dy) → l !! b = Some (x, dx) → (a < b)%nat.
Proof.
  intros Hnd Hl Ha Hb.
  assert (∀ c e, l !! c = Some e → (id <$> l.*1) !! c = Some (id e.1))
    as Hlook.
  { intros c e Hc. by rewrite !list_lookup_fmap, Hc. }
  assert (l !! length l1 = Some (y, d)) as Ha0.
  { rewrite Hl. by apply list_lookup_middle. }
  assert (l !! (length l1 + S (length l2))%nat = Some (x, d)) as Hb0.
  { rewrite Hl. rewrite lookup_app_r by lia.
    replace (length l1 + S (length l2) - length l1)%nat
      with (S (length l2)) by lia.
    simpl. by apply list_lookup_middle. }
  assert (a = length l1) as ->.
  { eapply NoDup_lookup; [exact Hnd|..]; [apply (Hlook _ _ Ha)|].
    apply (Hlook _ _ Ha0). }
  assert (b = (length l1 + S (length l2))%nat) as ->.
  { eapply NoDup_lookup; [exact Hnd|..]; [apply (Hlook _ _ Hb)|].
    apply (Hlook _ _ Hb0). }
  lia.
Qed.

(** * The claims *)

(** C1. [flatten_hierarchy] is the depth-first pre-order traversal of the
    specification: the sentinel's sibling group at depth 0, every group in
    ascending [order], each item followed by its own group one level deeper
    before its next sibling; on a store with unique ids below the counter
    it returns.  In particular a store holding exactly the
    root items A (order 0) and B (order 1) and the item C (order 0) under A
    flattens to [(A,0); (C,1); (B,0)], whatever the storage order. *)
Theorem flatten_hierarchy_preorder :
  (∀ fuel s l, flatten_hierarchy fuel s = Some l → flatten_spec s l)
  ∧ (∀ s, well_formed s →
       ∃ l, flatten_hierarchy (S (length (items s))) s = Some l
            ∧ flatten_spec s l)
  ∧ (∀ (a b c : Z) (na nb nc : string) (s : NestedListManager) (fuel : nat),
       let A := {| id := a; name := na; parent_id := -1; order := 0 |} in
       let B := {| id := b; name := nb; parent_id := -1; order := 1 |} in
       let C := {| id := c; name := nc; parent_id := a; order := 0 |} in
       items s ≡ₚ [A; B; C] →
       a ≠ -1 → b ≠ -1 → c ≠ -1 → a ≠ b → a ≠ c → b ≠ c →
       (3 ≤ fuel)%nat →
       flatten_hierarchy fuel s = Some [(A, 0); (C, 1); (B, 0)]).
Proof.
  assert (∀ fuel s l, flatten_hierarchy fuel s = Some l → flatten_spec s l)
    as Hsound.
  { intros fuel s l Hl. exists (sorted_children s (-1)).*2.
    split; [apply sorted_children_group|by eapply collect_items_preorder]. }
  split_and!; [done| |].
  - intros s Hwf. destruct (flatten_hierarchy_terminates s Hwf) as [l Hl].
    exists l. split; [done|by eapply Hsound].
  - intros a b c na nb nc s fuel A B C Hperm Ha Hb Hc Hab Hac Hbc Hfuel.
    assert ((sorted_children s (-1)).*2 = [A; B]) as Hroot.
    { eapply sorted_children_example; [done|..].
      - eval_filter.
      - repeat constructor. unfold key_le. simpl. lia.
      - intros x y Hx Hy Ho. elem_cases; simplify_eq/=; done. }
    assert ((sorted_children s a).*2 = [C]) as HA.
    { eapply sorted_children_example; [done|..].
      - eval_filter.
      - repeat constructor.
      - intros x y Hx Hy Ho. elem_cases; simplify_eq/=; done. }
    assert ((sorted_children s b).*2 = []) as HB.
    { eapply sorted_children_example; [done|..].
      - eval_filter.
      - constructor.
      - intros x y Hx. elem_cases. }
    assert ((sorted_children s c).*2 = []) as HC.
    { eapply sorted_children_example; [done|..].
      - eval_filter.
      - constructor.
      - intros x y Hx. elem_cases. }
    apply (flatten_hierarchy_mono 3); [done|]. unfold flatten_hierarchy.
    assert (∀ level, collect_items 1 s c level = Some []) as H1c.
    { intros level. by rewrite collect_items_S, HC. }
    assert (∀ level, collect_items 1 s b level = Some []) as H1b.
    { intros level. by rewrite collect_items_S, HB. }
    assert (collect_items 2 s a 1 = Some [(C, 1)]) as H2a.
    { rewrite collect_items_S, HA. cbn [collect_group]. simpl id.
      by rewrite H1c. }
    rewrite collect_items_S, Hroot. cbn [collect_group]. simpl id.
    change (0 + 1) with 1. rewrite H2a.
    rewrite (collect_items_mono 1 2 s b 1 []) by (done || lia).
    done.
Qed.

Lemma flatten_hierarchy_preorder_witness :
  let A := {| id := 0; name := "A"; parent_id := -1; order := 0 |} in
  let B := {| id := 1; name := "B"; parent_id := -1; order := 1 |} in
  let C := {| id := 2; name := "C"; parent_id := 0; order := 0 |} in
  let s := {| items := [B; C; A]; active_index := 0; next_id := 3 |} in
  flatten_spec s [(A, 0); (C, 1); (B, 0)]
  ∧ (∃ l, flatten_hierarchy 4 s = Some l ∧ flatten_spec s l)
  ∧ flatten_hierarchy 3 s = Some [(A, 0); (C, 1); (B, 0)].
Proof.
  intros A B C s. split; [|split].
  - apply (proj1 flatten_hierarchy_preorder 3%nat s). reflexivity.
  - apply (proj1 (proj2 flatten_hierarchy_preorder) s).
    split; [|intros x Hx; change (x ∈ [B; C; A]) in Hx; elem_cases|];
      compute_done.
  - apply (proj2 (proj2 flatten_hierarchy_preorder)
             0 1 2 "A" "B" "C" s 3%nat); [|lia..].
    symmetry. apply (Permutation_cons_append [B; C] A).
Defined.

(** C2.  The parent graph of a reachable store can have a cycle: the first
    call [add_item("a", 0)], on the empty store, creates the item 0 with
    itself as parent.  [add_item] stores the parent id it is given without
    the checks that [move_item] makes; where every [add_item] is given the
    sentinel or an existing id, the graph stays acyclic
    ([reachable_checked_acyclic]). *)
Theorem add_item_self_parent_cycle :
  let s := (add_item empty_manager "a" 0).2 in
  reachable s
  ∧ items s = [{| id := 0; name := "a"; parent_id := 0; order := 1 |}]
  ∧ ancestor s 0 0
  ∧ ¬ acyclic s.
Proof.
  intros s.
  assert ({| id := 0; name := "a"; parent_id := 0; order := 1 |} ∈ items s)
    as Hin by by left.
  split_and!.
  - eapply (reachable_step _ (OpAdd "a" 0) 0); [constructor|reflexivity].
  - reflexivity.
  - exact (ancestor_parent s _ Hin).
  - intros Hacyclic. apply (Hacyclic _ Hin). exact (ancestor_parent s _ Hin).
Qed.

(** C3. [move_item] returns false and leaves the whole store as it was when
    the item does not exist, when the new parent is neither the sentinel
    nor an existing item, and when the new parent is the item itself or the
    upward walk from the new parent meets the item.  In particular, on a
    chain where C is under B and B under A, moving A under C is refused. *)
Theorem move_item_rejected :
  (∀ s item_id new_parent_id,
     get_item_by_id s item_id = None
     ∨ (new_parent_id ≠ -1 ∧ get_item_by_id s new_parent_id = None)
     ∨ new_parent_id = item_id
     ∨ walk_reaches s item_id (get_item_by_id s new_parent_id) →
     ∃ fuel0, ∀ fuel, (fuel0 ≤ fuel)%nat →
       move_item fuel s item_id new_parent_id = Some (false, s))
  ∧ (∀ s item_id new_parent_id fuel,
       get_item_by_id s item_id = None →
       move_item fuel s item_id new_parent_id = Some (false, s))
  ∧ (∀ s A B C fuel,
       get_item_by_id s (id A) = Some A →
       get_item_by_id s (id B) = Some B →
       get_item_by_id s (id C) = Some C →
       parent_id C = id B → parent_id B = id A →
       (2 ≤ fuel)%nat →
       move_item fuel s (id A) (id C) = Some (false, s)).
Proof.
  split_and!.
  - intros s item_id new_parent_id [Hitem|[[Hp Hnone]|[->|Hwalk]]].
    + exists 0%nat. intros fuel _. by apply move_item_missing_item.
    + exists 0%nat. intros fuel _. by apply move_item_missing_parent.
    + exists 0%nat. intros fuel _.
      destruct (get_item_by_id s item_id) as [c|] eqn:E;
        [|by apply move_item_missing_item].
      apply move_item_walk_reaches. rewrite E.
      apply get_item_by_id_Some in E as [_ E].
      destruct fuel; simpl; by rewrite bool_decide_eq_true_2.
    + apply walk_reaches_ancestor_walk in Hwalk as [fuel0 Hwalk].
      exists fuel0. intros fuel Hle. apply move_item_walk_reaches.
      by eapply ancestor_walk_mono.
  - intros s item_id new_parent_id fuel. apply move_item_missing_item.
  - intros s A B C fuel HA HB HC HCB HBA Hfuel.
    apply move_item_walk_reaches. apply (ancestor_walk_mono 2); [done|].
    rewrite HC. simpl. case_bool_decide; [done|]. rewrite HCB, HB.
    case_bool_decide; [done|]. rewrite HBA, HA.
    by rewrite bool_decide_eq_true_2.
Qed.

Lemma move_item_rejected_witness :
  let s := (add_item (add_item (add_item empty_manager "A" (-1)).2 "B" 0).2
              "C" 1).2 in
  (∃ fuel0, ∀ fuel, (fuel0 ≤ fuel)%nat →
     move_item fuel s 0 2 = Some (false, s))
  ∧ move_item 0 s 7 0 = Some (false, s)
  ∧ move_item 2 s 0 2 = Some (false, s).
Proof.
  intros s. split_and!.
  - apply (proj1 move_item_rejected s 0 2). do 3 right.
    apply walk_reaches_ancestor_walk. exists 2%nat. reflexivity.
  - apply (proj1 (proj2 move_item_rejected) s 7 0 0%nat). reflexivity.
  - apply (proj2 (proj2 move_item_rejected) s
             {| id := 0; name := "A"; parent_id := -1; order := 1 |}
             {| id := 1; name := "B"; parent_id := 0; order := 1 |}
             {| id := 2; name := "C"; parent_id := 1; order := 1 |} 2%nat);
      first [reflexivity | lia].
Defined.

(** C4. [add_item] always returns, and returns the counter's value.  The
    order it assigns is one more than the greatest order among the
    existing siblings when there is one and that maximum is not negative.
    With no sibling it is 1, not 0: [get_next_order] runs once the new
    element, holding the default order 0 and the new parent id, is already
    in the collection, so the maximum is never taken over nothing. *)
Theorem add_item_order :
  (∀ s nm p,
     children_of s p = [] →
     add_item s nm p =
     (next_id s,
      {| items := items s
           ++ [{| id := next_id s; name := nm; parent_id := p; order := 1 |}];
         active_index := active_index s;
         next_id := next_id s + 1 |}))
  ∧ (∀ s nm p m,
       m ∈ (λ e, order e.2) <$> children_of s p →
       (∀ o, o ∈ (λ e, order e.2) <$> children_of s p → o ≤ m) →
       0 ≤ m →
       add_item s nm p =
       (next_id s,
        {| items := items s
             ++ [{| id := next_id s; name := nm; parent_id := p;
                    order := m + 1 |}];
           active_index := active_index s;
           next_id := next_id s + 1 |})).
Proof.
  split.
  - intros s nm p Hnone. by rewrite add_item_eq, Hnone.
  - intros s nm p m Hm Hall Hpos.
    rewrite add_item_eq, (max_default_spec _ _ m Hm Hall).
    by rewrite Z.max_l.
Qed.

Lemma add_item_order_witness :
  add_item empty_manager "first" (-1) =
  (0, {| items := [{| id := 0; name := "first"; parent_id := -1;
                      order := 1 |}];
         active_index := 0; next_id := 1 |})
  ∧ let s := {| items := [ {| id := 0; name := "a"; parent_id := -1; order := 0 |};
                           {| id := 1; name := "b"; parent_id := -1; order := 5 |};
                           {| id := 2; name := "c"; parent_id := -1; order := 2 |} ];
                active_index := 0; next_id := 3 |} in
    add_item s "d" (-1) =
    (3, {| items := items s
             ++ [{| id := 3; name := "d"; parent_id := -1; order := 6 |}];
           active_index := 0; next_id := 4 |}).
Proof.
  split.
  - apply (proj1 add_item_order empty_manager "first" (-1)). reflexivity.
  - intros s. apply (proj2 add_item_order s "d" (-1) 5); [| |lia].
    + change ((λ e, order e.2) <$> children_of s (-1)) with [0; 5; 2].
      repeat constructor.
    + intros o Ho. change ((λ e, order e.2) <$> children_of s (-1))
        with [0; 5; 2] in Ho.
      elem_cases; lia.
Defined.

(** C5. Along any sequence of calls, removals included, the ids returned
    by [add_item] are strictly increasing, hence pairwise distinct; each is
    the counter's value at its call, above the id of every item the store
    held before; and no call changes the id held by a slot. *)
Theorem add_item_ids_unique :
  (∀ fuel s os ids s',
     run_ops fuel s os = Some (ids, s') →
     StronglySorted Z.lt ids ∧ NoDup ids
     ∧ (∀ i, i ∈ ids → next_id s ≤ i < next_id s')
     ∧ (well_formed s →
        well_formed s' ∧ ∀ i x, i ∈ ids → x ∈ items s → id x < i))
  ∧ (∀ fuel s o r s',
       run_op fuel s o = Some (r, s') →
       match o with
       | OpAdd _ _ =>
           r = Some (next_id s)
           ∧ id <$> items s' = (id <$> items s) ++ [next_id s]
           ∧ next_id s' = next_id s + 1
       | OpRemove index =>
           r = None
           ∧ id <$> items s' = delete index (id <$> items s)
           ∧ next_id s' = next_id s
       | _ =>
           r = None
           ∧ id <$> items s' = id <$> items s
           ∧ next_id s' = next_id s
       end).
Proof.
  split; [|apply run_op_ids].
  intros fuel s os ids s' Hrun.
  destruct (run_ops_ids _ _ _ _ _ Hrun) as (Hsorted & Hrange & _).
  split_and!; [done| |done|].
  - clear -Hsorted. induction Hsorted as [|i ids _ IH Hi]; constructor; [|done].
    intros Hin. rewrite Forall_forall in Hi. apply Hi in Hin. lia.
  - intros Hwf. split; [by eapply run_ops_well_formed|].
    intros i x Hi Hx. apply Hrange in Hi. apply (wf_range _ Hwf) in Hx. lia.
Qed.

Lemma add_item_ids_unique_witness :
  let os := [OpAdd "a" (-1); OpAdd "b" 0; OpRemove 0; OpAdd "c" (-1);
             OpMove 2 1; OpReorder 1 "UP"; OpAdd "d" 7] in
  (StronglySorted Z.lt [0; 1; 2; 3] ∧ NoDup [0; 1; 2; 3]
   ∧ (∀ i, i ∈ [0; 1; 2; 3] → 0 ≤ i < 4)
   ∧ (well_formed empty_manager →
      ∃ s', run_ops 3 empty_manager os = Some ([0; 1; 2; 3], s')
            ∧ well_formed s'))
  ∧ (Some 0 = Some 0
     ∧ id <$> items (add_item empty_manager "a" (-1)).2 = [] ++ [0]
     ∧ next_id (add_item empty_manager "a" (-1)).2 = 0 + 1).
Proof.
  intros os.
  destruct (run_ops 3 empty_manager os) as [[ids s']|] eqn:Hrun;
    [|by vm_compute in Hrun].
  assert (ids = [0; 1; 2; 3] ∧ next_id s' = 4) as [-> Hn].
  { vm_compute in Hrun. by simplify_eq. }
  split.
  - destruct (proj1 add_item_ids_unique 3%nat empty_manager os
                [0; 1; 2; 3] s' Hrun) as (H1 & H2 & H3 & H4).
    rewrite Hn in H3. split_and!; [done..|].
    intros Hwf. exists s'. split; [done|]. by apply H4.
  - apply (proj2 add_item_ids_unique 0%nat empty_manager (OpAdd "a" (-1))
             (Some 0) (add_item empty_manager "a" (-1)).2).
    reflexivity.
Defined.

(** C6.  On the reachable store made by [add_item("a", 0)] and
    [add_item("b")], the ancestor walk of [move_item(1, 0)] never leaves
    item 0, which is its own parent: the call returns with no amount of
    fuel.  The other operations are total, [flatten_hierarchy] returns on
    every reachable store ([flatten_hierarchy_terminates]), and so does
    [move_item] where every [add_item] was given the sentinel or an
    existing id ([reachable_checked_acyclic]). *)
Theorem move_item_walk_diverges :
  let s := (add_item (add_item empty_manager "a" 0).2 "b" (-1)).2 in
  reachable s
  ∧ (∀ fuel, ancestor_walk fuel s 1 (get_item_by_id s 0) = None)
  ∧ (∀ fuel, move_item fuel s 1 0 = None)
  ∧ (∀ fuel, run_op fuel s (OpMove 1 0) = None).
Proof.
  intros s.
  assert (∀ fuel, ancestor_walk fuel s 1 (get_item_by_id s 0) = None)
    as Hwalk.
  { intros fuel. induction fuel as [|fuel IH]; [reflexivity|].
    change (get_item_by_id s 0)
      with (Some {| id := 0; name := "a"; parent_id := 0; order := 1 |})
      in *.
    exact IH. }
  assert (∀ fuel, move_item fuel s 1 0 = None) as Hmove.
  { intros fuel. unfold move_item.
    change (find_item s 1)
      with (Some (1%nat,
                  {| id := 1; name := "b"; parent_id := -1; order := 1 |})).
    cbv iota beta. rewrite Hwalk.
    change (get_item_by_id s 0)
      with (Some {| id := 0; name := "a"; parent_id := 0; order := 1 |}).
    reflexivity. }
  split_and!; [|done..|].
  - eapply (reachable_step _ (OpAdd "b" (-1)) 0); [|reflexivity].
    eapply (reachable_step _ (OpAdd "a" 0) 0); [constructor|reflexivity].
  - intros fuel. unfold run_op. by rewrite Hmove.
Qed.

(** C7. A successful [reorder_item] exchanges the [order] of the targeted
    item and of its neighbour in the sorted sibling group (the one before
    it for UP, the one after it for DOWN) and changes nothing else: every
    other slot, the other fields of the two items, the length of the
    collection, [next_id] and [active_index] are as before.

    In particular, in any store with unique ids that holds siblings X
    (order 0) and Y (order 1) under one parent, whatever else it holds, as
    long as no third child of that parent has order 0 or 1: moving Y up
    succeeds, leaves X with order 1 and Y with order 0 and every other
    slot as it was, and the flattened view then has Y before X: whenever X
    was linked to the sentinel, both are listed at X's level with Y
    first, and on a well-formed store the traversal returns and no
    listed position of X comes before one of Y.

    Last, the same for a store that holds X and Y only, for any ids: as
    root items they are listed as Y, X exactly. *)
Theorem reorder_item_swaps_orders :
  (∀ s k direction s',
     reorder_item s k direction = (true, s') →
     ∃ i x j y idx idx',
       find_item s k = Some (i, x)
       ∧ items s !! i = Some x ∧ items s !! j = Some y
       ∧ i ≠ j ∧ parent_id y = parent_id x
       ∧ sorted_children s (parent_id x) !! idx = Some (i, x)
       ∧ sorted_children s (parent_id x) !! idx' = Some (j, y)
       ∧ (direction = "UP" ∧ idx = S idx'
          ∨ direction = "DOWN" ∧ idx' = S idx)
       ∧ items s' !! i = Some (set_order x (order y))
       ∧ items s' !! j = Some (set_order y (order x))
       ∧ (∀ k', k' ≠ i → k' ≠ j → items s' !! k' = items s !! k')
       ∧ length (items s') = length (items s)
       ∧ next_id s' = next_id s ∧ active_index s' = active_index s)
  ∧ (∀ s i j X Y,
       NoDup (id <$> items s) →
       items s !! i = Some X → items s !! j = Some Y →
       parent_id Y = parent_id X → order X = 0 → order Y = 1 →
       (∀ k z, items s !! k = Some z → k ≠ i → k ≠ j →
          parent_id z = parent_id X → order z ≠ 0 ∧ order z ≠ 1) →
       ∃ s',
         reorder_item s (id Y) "UP" = (true, s')
         ∧ items s' !! i = Some (set_order X 1)
         ∧ items s' !! j = Some (set_order Y 0)
         ∧ (∀ k, k ≠ i → k ≠ j → items s' !! k = items s !! k)
         ∧ (well_formed s →
            is_Some (flatten_hierarchy (S (length (items s))) s'))
         ∧ ∀ fuel l',
             flatten_hierarchy fuel s' = Some l' →
             (∀ n, depth_in s n X →
                ∃ l1 l2 l3,
                  l' = l1 ++ (set_order Y 0, Z.of_nat n) :: l2
                          ++ (set_order X 1, Z.of_nat n) :: l3)
             ∧ (well_formed s →
                ∀ a b d d',
                  l' !! a = Some (set_order Y 0, d) →
                  l' !! b = Some (set_order X 1, d') → (a < b)%nat))
  ∧ (∀ (p x y : Z) (nx ny : string) (s : NestedListManager),
       let X := {| id := x; name := nx; parent_id := p; order := 0 |} in
       let Y := {| id := y; name := ny; parent_id := p; order := 1 |} in
       let X' := {| id := x; name := nx; parent_id := p; order := 1 |} in
       let Y' := {| id := y; name := ny; parent_id := p; order := 0 |} in
       items s ≡ₚ [X; Y] → x ≠ y →
       ∃ s', reorder_item s y "UP" = (true, s')
             ∧ items s' ≡ₚ [X'; Y']
             ∧ (p = -1 → x ≠ -1 → y ≠ -1 →
                ∀ fuel, (2 ≤ fuel)%nat →
                  flatten_hierarchy fuel s' = Some [(Y', 0); (X', 0)])).
Proof.
  split_and!.
  - intros s k direction s' Hre.
    apply reorder_item_true_inv in Hre
      as (i & x & idx & idx' & j & y & Hfind & Hidx & Hidx' & Hdir & ->).
    destruct (sorted_children_lookup _ _ _ _ _ Hidx) as [Hi _].
    destruct (sorted_children_lookup _ _ _ _ _ Hidx') as [Hj Hpj].
    assert (i ≠ j) as Hij.
    { eapply sorted_children_lookup_ne; [exact Hidx|exact Hidx'|].
      destruct Hdir as [[_ ->]|[_ ->]]; lia. }
    destruct (swap_orders_lookup s i x j y Hi Hj Hij) as (? & ? & ? & ?).
    exists i, x, j, y, idx, idx'. split_and!; done.
  - intros s i j X Y Hnd Hi Hj Hp HoX HoY Hothers.
    destruct (sorted_children_adjacent s i j X Y Hi Hj Hp HoX HoY Hothers)
      as (idx & Hidx & HidxS).
    assert (i ≠ j) as Hij by (intros ->; rewrite Hi in Hj; simplify_eq/=; lia).
    assert (find_item s (id Y) = Some (j, Y)) as Hfind.
    { apply find_item_Some. split_and!; [done..|].
      intros k z Hk Hlt Hid. assert (k = j); [|lia].
      eapply NoDup_lookup; [exact Hnd|..]; rewrite list_lookup_fmap.
      - by rewrite Hk.
      - rewrite Hj. simpl. by rewrite Hid. }
    assert (reorder_item s (id Y) "UP"
            = (true, swap_orders s (j, Y) (i, X))) as Hre.
    { apply (reorder_item_up s (id Y) j Y idx i X Hfind); by rewrite Hp. }
    destruct (swap_orders_lookup s j Y i X Hj Hi) as (Hj' & Hi' & Ho & Hlen);
      [done|].
    rewrite HoX in Hj'. rewrite HoY in Hi'.
    set (s' := swap_orders s (j, Y) (i, X)) in *.
    assert (well_formed s → well_formed s') as Hwf'.
    { intros Hwf.
      apply (run_op_well_formed 0 s (OpReorder (id Y) "UP") None s' Hwf).
      simpl. by rewrite Hre. }
    assert (∀ n, depth_in s n X → depth_in s' n (set_order X 1)) as Hdepth.
    { intros n Hn. apply (depth_in_parent s' n X); [done|].
      revert Hn. apply depth_in_transfer. intros z Hz.
      apply (list_elem_of_fmap_2 (λ z, (id z, parent_id z))) in Hz.
      rewrite <-(swap_orders_parents s j Y i X Hj Hi) in Hz.
      apply list_elem_of_fmap in Hz as (z' & [= ? ?] & Hz'). by exists z'. }
    assert (∀ fuel l' n,
              flatten_hierarchy fuel s' = Some l' →
              hangs s' (-1) n (set_order X 1) →
              ∃ l1 l2 l3,
                l' = l1 ++ (set_order Y 0, Z.of_nat n) :: l2
                        ++ (set_order X 1, Z.of_nat n) :: l3) as Horder.
    { intros fuel l' n Hl' Hn.
      apply (flatten_hierarchy_lower_order_first fuel s' l' i j); try done;
        simpl; lia. }
    exists s'. split_and!; [done..| | |].
    + intros k Hki Hkj. by apply Ho.
    + intros Hwf. rewrite <-Hlen.
      by apply flatten_hierarchy_terminates, Hwf'.
    + intros fuel l' Hl'. split.
      * intros n Hn. apply (Horder fuel); [done|].
        by apply depth_in_hangs, Hdepth.
      * intros Hwf a b d d' Ha Hb.
        assert ((set_order X 1, d') ∈ l') as Hin
          by by eapply list_elem_of_lookup_2.
        destruct (collect_items_hangs _ _ _ _ _ _ _ Hl' Hin)
          as (_ & n & _ & Hn).
        destruct (Horder fuel l' n Hl' Hn) as (l1 & l2 & l3 & Hdec).
        apply (listing_positions l' l1 l2 l3 (set_order X 1) (set_order Y 0)
                 (Z.of_nat n) a b d' d); [|done..].
        by apply (flatten_hierarchy_NoDup_ids fuel s' l' (Hwf' Hwf)).
  - intros p x y nx ny s X Y X' Y' Hperm Hxy.
    assert (∀ s' : NestedListManager, items s' ≡ₚ [X'; Y'] →
              p = -1 → x ≠ -1 → y ≠ -1 →
              ∀ fuel, (2 ≤ fuel)%nat →
                flatten_hierarchy fuel s' = Some [(Y', 0); (X', 0)])
      as Hflat.
    { intros s' Hperm' -> Hx Hy fuel Hfuel.
      assert ((sorted_children s' (-1)).*2 = [Y'; X']) as Hroot.
      { eapply (sorted_children_example s' (-1) [Y'; X']).
        - rewrite Hperm'. apply Permutation_swap.
        - eval_filter.
        - fold X' Y'. repeat constructor. unfold key_le. simpl. lia.
        - intros a b Ha Hb Ho. elem_cases; simplify_eq/=; done. }
      assert (∀ q, q ≠ -1 → (sorted_children s' q).*2 = []) as Hleaf.
      { intros q Hq. eapply sorted_children_example; [exact Hperm'|..].
        - eval_filter.
        - constructor.
        - intros a b Ha. elem_cases. }
      apply (flatten_hierarchy_mono 2); [done|]. unfold flatten_hierarchy.
      rewrite collect_items_S, Hroot. cbn [collect_group]. simpl id.
      by rewrite !collect_items_S, !Hleaf. }
    symmetry in Hperm. apply Permutation_length_2_inv in Hperm as [Hs|Hs].
    + assert (find_item s y = Some (1%nat, Y)) as Hfind.
      { apply find_item_Some. rewrite Hs. split_and!; [done..|].
        intros [|j] z Hz Hj; [|lia]. by simplify_eq/=. }
      assert (sorted_children s p = [(0%nat, X); (1%nat, Y)]) as Hsib.
      { unfold sorted_children. by rewrite (children_of_two s p X Y). }
      eexists. split_and!.
      * eapply (reorder_item_up s y 1 Y 0 0 X); [done|..];
          change (parent_id Y) with p; by rewrite Hsib.
      * unfold swap_orders. simpl. by rewrite Hs.
      * apply Hflat. unfold swap_orders. simpl. by rewrite Hs.
    + assert (find_item s y = Some (0%nat, Y)) as Hfind.
      { apply find_item_Some. rewrite Hs. split_and!; [done..|].
        intros j z Hz Hj. lia. }
      assert (sorted_children s p = [(1%nat, X); (0%nat, Y)]) as Hsib.
      { unfold sorted_children. by rewrite (children_of_two s p Y X). }
      eexists. split_and!.
      * eapply (reorder_item_up s y 0 Y 0 1 X); [done|..];
          change (parent_id Y) with p; by rewrite Hsib.
      * unfold swap_orders. simpl. rewrite Hs. apply Permutation_swap.
      * apply Hflat. unfold swap_orders. simpl. rewrite Hs.
        apply Permutation_swap.
Qed.

Lemma reorder_item_swaps_orders_witness :
  let X := {| id := 0; name := "X"; parent_id := -1; order := 0 |} in
  let Y := {| id := 1; name := "Y"; parent_id := -1; order := 1 |} in
  let Z := {| id := 2; name := "Z"; parent_id := -1; order := 2 |} in
  let s := {| items := [X; Y; Z]; active_index := 0; next_id := 3 |} in
  let t := {| items := [X; Y]; active_index := 0; next_id := 2 |} in
  let P := {| id := 0; name := "P"; parent_id := -1; order := 1 |} in
  let A := {| id := 1; name := "A"; parent_id := 0; order := 0 |} in
  let B := {| id := 2; name := "B"; parent_id := 0; order := 1 |} in
  let Q := {| id := 3; name := "Q"; parent_id := -1; order := 2 |} in
  let u := {| items := [P; A; B; Q]; active_index := 0; next_id := 4 |} in
  (∃ i x j y idx idx',
     find_item s 1 = Some (i, x)
     ∧ items s !! i = Some x ∧ items s !! j = Some y
     ∧ i ≠ j ∧ parent_id y = parent_id x
     ∧ sorted_children s (parent_id x) !! idx = Some (i, x)
     ∧ sorted_children s (parent_id x) !! idx' = Some (j, y)
     ∧ ("DOWN" = "UP" ∧ idx = S idx' ∨ "DOWN" = "DOWN" ∧ idx' = S idx)
     ∧ items (reorder_item s 1 "DOWN").2 !! i = Some (set_order x (order y))
     ∧ items (reorder_item s 1 "DOWN").2 !! j = Some (set_order y (order x))
     ∧ (∀ k', k' ≠ i → k' ≠ j →
          items (reorder_item s 1 "DOWN").2 !! k' = items s !! k')
     ∧ length (items (reorder_item s 1 "DOWN").2) = length (items s)
     ∧ next_id (reorder_item s 1 "DOWN").2 = next_id s
     ∧ active_index (reorder_item s 1 "DOWN").2 = active_index s)
  ∧ (∃ u',
       reorder_item u (id B) "UP" = (true, u')
       ∧ items u' !! 1%nat = Some (set_order A 1)
       ∧ items u' !! 2%nat = Some (set_order B 0)
       ∧ (∀ k, k ≠ 1%nat → k ≠ 2%nat → items u' !! k = items u !! k)
       ∧ is_Some (flatten_hierarchy (S (length (items u))) u')
       ∧ ∀ fuel l',
           flatten_hierarchy fuel u' = Some l' →
           (∃ l1 l2 l3,
              l' = l1 ++ (set_order B 0, 1) :: l2
                      ++ (set_order A 1, 1) :: l3)
           ∧ ∀ a b d d',
               l' !! a = Some (set_order B 0, d) →
               l' !! b = Some (set_order A 1, d') → (a < b)%nat)
  ∧ (∃ t', reorder_item t 1 "UP" = (true, t')
           ∧ items t' ≡ₚ [set_order X 1; set_order Y 0]
           ∧ (-1 = -1 → 0 ≠ -1 → 1 ≠ -1 →
              ∀ fuel, (2 ≤ fuel)%nat →
                flatten_hierarchy fuel t'
                = Some [(set_order Y 0, 0); (set_order X 1, 0)])).
Proof.
  intros X Y Z s t P A B Q u. split_and!.
  - apply (proj1 reorder_item_swaps_orders s 1 "DOWN"). reflexivity.
  - assert (well_formed u) as Hwf.
    { split; [compute_done| |done].
      intros z Hz. unfold u in Hz. simpl in Hz.
      repeat (apply elem_of_cons in Hz as [->|Hz]); simpl; try lia.
      by apply elem_of_nil in Hz. }
    assert (depth_in u 1 A) as Hdepth.
    { apply (depth_child u 0 A P); [done|by left|done|].
      by apply depth_root. }
    destruct (proj1 (proj2 reorder_item_swaps_orders) u 1%nat 2%nat A B)
      as (u' & Hre & HA & HB & Hrest & Hterm & Hlist);
      [compute_done|reflexivity..| |].
    { intros [|[|[|[|k]]]] z Hz Hk1 Hk2 Hp; simplify_eq/=; done. }
    exists u'. do 4 (split; [done|]). split; [by apply Hterm|].
    intros fuel l' Hl'. destruct (Hlist fuel l' Hl') as [Hfirst Honly].
    split; [by apply (Hfirst 1%nat)|by apply Honly].
  - apply (proj2 (proj2 reorder_item_swaps_orders) (-1) 0 1 "X" "Y" t);
      [reflexivity|lia].
Defined.

(** C8. [reorder_item] returns false with the store as it was when the
    item does not exist and when the item is already first (UP) or last
    (DOWN) in its sorted sibling group; a rejected call never changes the
    store.  In particular both directions are refused for an item that is
    alone in its group. *)
Theorem reorder_item_rejected :
  (∀ s k direction,
     (reorder_item s k direction).1 = false →
     (reorder_item s k direction).2 = s)
  ∧ (∀ s k direction,
       get_item_by_id s k = None → reorder_item s k direction = (false, s))
  ∧ (∀ s k i x,
       find_item s k = Some (i, x) →
       sorted_children s (parent_id x) !! 0%nat = Some (i, x) →
       reorder_item s k "UP" = (false, s))
  ∧ (∀ s k i x,
       find_item s k = Some (i, x) →
       last (sorted_children s (parent_id x)) = Some (i, x) →
       reorder_item s k "DOWN" = (false, s))
  ∧ (∀ s k i x,
       find_item s k = Some (i, x) →
       length (children_of s (parent_id x)) = 1%nat →
       reorder_item s k "UP" = (false, s)
       ∧ reorder_item s k "DOWN" = (false, s)).
Proof.
  assert (∀ s k i x,
            find_item s k = Some (i, x) →
            sorted_children s (parent_id x) !! 0%nat = Some (i, x) →
            reorder_item s k "UP" = (false, s)) as Hup.
  { intros s k i x Hfind Hfirst. unfold reorder_item. rewrite Hfind.
    rewrite (index_of_slot_lookup i x _ 0);
      [done|apply sorted_children_NoDup_fst|done]. }
  assert (∀ s k i x,
            find_item s k = Some (i, x) →
            last (sorted_children s (parent_id x)) = Some (i, x) →
            reorder_item s k "DOWN" = (false, s)) as Hdown.
  { intros s k i x Hfind Hlast. unfold reorder_item. rewrite Hfind.
    rewrite last_lookup in Hlast.
    rewrite (index_of_slot_lookup i x _ _ (sorted_children_NoDup_fst _ _)
               Hlast).
    simpl. rewrite bool_decide_eq_false_2; [done|]. lia. }
  split_and!; [apply reorder_item_false| |done|done|].
  - intros s k direction Hnone. unfold reorder_item.
    apply fmap_None in Hnone. unfold find_item in *. by rewrite Hnone.
  - intros s k i x Hfind Hlen.
    destruct (find_item_in_siblings _ _ _ _ Hfind) as (idx & Hidx & _).
    rewrite <-sorted_children_length in Hlen.
    destruct (sorted_children s (parent_id x)) as [|e [|??]] eqn:Hsib;
      simplify_eq/=.
    destruct idx as [|idx]; simplify_eq/=.
    split; [eapply Hup|eapply Hdown]; try done; by rewrite Hsib.
Qed.

Lemma reorder_item_rejected_witness :
  let s := (add_item (add_item empty_manager "A" (-1)).2 "B" 0).2 in
  (reorder_item s 5 "UP").2 = s
  ∧ reorder_item s 5 "DOWN" = (false, s)
  ∧ reorder_item s 0 "UP" = (false, s)
  ∧ reorder_item s 0 "DOWN" = (false, s)
  ∧ (reorder_item s 1 "UP" = (false, s)
     ∧ reorder_item s 1 "DOWN" = (false, s)).
Proof.
  intros s. split; [|split; [|split; [|split]]].
  - apply (proj1 reorder_item_rejected s 5 "UP"). reflexivity.
  - apply (proj1 (proj2 reorder_item_rejected) s 5 "DOWN"). reflexivity.
  - apply (proj1 (proj2 (proj2 reorder_item_rejected)) s 0 0%nat
             {| id := 0; name := "A"; parent_id := -1; order := 1 |});
      reflexivity.
  - apply (proj1 (proj2 (proj2 (proj2 reorder_item_rejected))) s 0 0%nat
             {| id := 0; name := "A"; parent_id := -1; order := 1 |});
      reflexivity.
  - apply (proj2 (proj2 (proj2 (proj2 reorder_item_rejected))) s 1 1%nat
             {| id := 1; name := "B"; parent_id := 0; order := 1 |});
      reflexivity.
Defined.

(** A later [add_item] can bring the missing parent into existence: the
    item created under the id 1, which no item carried, is listed once
    the next call has allocated that id to a root item. *)
Lemma dangling_item_listed_later :
  let r1 := add_item empty_manager "x" 1 in
  let r2 := add_item r1.2 "y" (-1) in
  1 ≠ -1 ∧ get_item_by_id empty_manager 1 = None ∧ r1.1 = 0
  ∧ reachable r2.2
  ∧ flatten_hierarchy 3 r2.2 =
    Some [({| id := 1; name := "y"; parent_id := -1; order := 1 |}, 0);
          ({| id := 0; name := "x"; parent_id := 1; order := 1 |}, 1)].
Proof.
  split_and!; [done..| |reflexivity].
  eapply (reachable_step _ (OpAdd "y" (-1)) 0); [|reflexivity].
  eapply (reachable_step _ (OpAdd "x" 1) 0); [|reflexivity].
  constructor.
Qed.

(** So can [move_item]: the item created under the id 7, which no item
    carries, is listed once it has been moved under the sentinel. *)
Lemma dangling_item_listed_after_move :
  let r1 := add_item empty_manager "x" 7 in
  7 ≠ -1 ∧ get_item_by_id empty_manager 7 = None ∧ r1.1 = 0
  ∧ ∃ s2, move_item 0 r1.2 0 (-1) = Some (true, s2)
          ∧ flatten_hierarchy 2 s2 =
            Some [({| id := 0; name := "x"; parent_id := -1; order := 2 |},
                   0)].
Proof. split_and!; [done..|]. eexists. split; reflexivity. Qed.

(** C9, amended.  An item created by [add_item] under a parent id that is
    neither the sentinel nor the id of an existing item is not listed by
    [flatten_hierarchy] in the state right after that call, and the
    flattened view is what it was before the call.  In any state, a listed
    item has the sentinel or the id of an existing item as its parent id:
    the item stays unlisted as long as its parent id is carried by no
    item. *)
Theorem dangling_item_not_listed :
  (∀ s nm p,
     well_formed s → p ≠ -1 → get_item_by_id s p = None →
     (∀ fuel, flatten_hierarchy fuel (add_item s nm p).2
              = flatten_hierarchy fuel s)
     ∧ is_Some (flatten_hierarchy
                  (S (length (items (add_item s nm p).2)))
                  (add_item s nm p).2)
     ∧ ∀ fuel l x d,
         flatten_hierarchy fuel (add_item s nm p).2 = Some l →
         (x, d) ∈ l →
         id x ≠ (add_item s nm p).1 ∧ parent_id x ≠ p)
  ∧ (∀ s fuel l x d,
       flatten_hierarchy fuel s = Some l → (x, d) ∈ l →
       x ∈ items s
       ∧ (parent_id x = -1 ∨ is_Some (get_item_by_id s (parent_id x)))).
Proof.
  split.
  - intros s nm p Hwf Hp Hnone.
    assert (∀ x, x ∈ items s → id x ≠ p) as Hfresh
      by by apply get_item_by_id_None.
    assert (∀ fuel, flatten_hierarchy fuel (add_item s nm p).2
                    = flatten_hierarchy fuel s) as Hsame.
    { intros fuel. apply collect_items_add_dangling; [done|]. congruence. }
    split_and!; [done| |].
    + rewrite Hsame. destruct (flatten_hierarchy_terminates s Hwf) as [l Hl].
      exists l. eapply flatten_hierarchy_mono; [|done].
      rewrite add_item_eq. simpl. rewrite length_app. lia.
    + intros fuel l x d. rewrite Hsame, add_item_id. intros Hl Hx.
      destruct (collect_items_listed _ _ _ _ _ _ _ Hl Hx) as [Hin Hpar].
      split.
      * apply (wf_range _ Hwf) in Hin. lia.
      * destruct Hpar as [->|(y & Hy & <-)]; [done|by apply Hfresh].
  - intros s fuel l x d Hl Hx.
    destruct (collect_items_listed _ _ _ _ _ _ _ Hl Hx) as [Hin Hpar].
    split; [done|]. destruct Hpar as [->|Hy]; [by left|right].
    by apply get_item_by_id_is_Some.
Qed.

Lemma dangling_item_not_listed_witness :
  let s := (add_item empty_manager "root" (-1)).2 in
  ((∀ fuel, flatten_hierarchy fuel (add_item s "lost" 7).2
            = flatten_hierarchy fuel s)
   ∧ is_Some (flatten_hierarchy
                (S (length (items (add_item s "lost" 7).2)))
                (add_item s "lost" 7).2)
   ∧ ∀ fuel l x d,
       flatten_hierarchy fuel (add_item s "lost" 7).2 = Some l →
       (x, d) ∈ l →
       id x ≠ (add_item s "lost" 7).1 ∧ parent_id x ≠ 7)
  ∧ ({| id := 0; name := "root"; parent_id := -1; order := 1 |} ∈ items s
     ∧ (-1 = -1 ∨ is_Some (get_item_by_id s (-1)))).
Proof.
  intros s. split.
  - apply (proj1 dangling_item_not_listed s "lost" 7);
      [|done|reflexivity].
    apply reachable_well_formed.
    eapply (reachable_step _ (OpAdd "root" (-1)) 0); [|reflexivity].
    constructor.
  - apply (proj2 dangling_item_not_listed s 2%nat
             [({| id := 0; name := "root"; parent_id := -1; order := 1 |}, 0)]
             {| id := 0; name := "root"; parent_id := -1; order := 1 |} 0);
      [reflexivity|by left].
Defined.

(** C10. Two siblings with equal [order]: moving the one stored later up
    returns true, yet the orders exchanged are equal, so the store (every
    item's [order], and with it the flattened view) is what it was. *)
Theorem reorder_item_equal_orders s i j x y :
  items s !! i = Some x → items s !! j = Some y → (i < j)%nat →
  parent_id x = parent_id y → order x = order y →
  find_item s (id y) = Some (j, y) →
  reorder_item s (id y) "UP" = (true, s)
  ∧ order <$> items (reorder_item s (id y) "UP").2 = order <$> items s
  ∧ ∀ fuel, flatten_hierarchy fuel (reorder_item s (id y) "UP").2
            = flatten_hierarchy fuel s.
Proof.
  intros Hi Hj Hij Hp Ho Hfind.
  enough (reorder_item s (id y) "UP" = (true, s)) as ->; [done|].
  set (S := sorted_children s (parent_id y)).
  assert ([(i, x); (j, y)] `sublist_of` S) as Hsub.
  { apply (sorted_stable (λ e, order e.2)); [|simpl; lia].
    unfold children_of.
    replace [(i, x); (j, y)]
      with (filter (λ e : nat * NestedListItem, parent_id e.2 = parent_id y)
              [(i, x); (j, y)]).
    - apply sublist_filter_mono, sublist_pair_lookup.
      exists i, j. rewrite !slots_lookup, Hi, Hj. done.
    - rewrite !filter_cons, filter_nil. simpl. by rewrite !decide_True. }
  apply sublist_pair_lookup in Hsub as (a & b & Hab & Ha & Hb).
  destruct b as [|b]; [lia|].
  destruct (lookup_lt_is_Some_2 S b) as [[k z] Hz].
  { apply lookup_lt_Some in Hb. lia. }
  assert (order z = order y) as Hoz.
  { assert (order z ≤ order y).
    { apply (StronglySorted_lookup_lt _ _ _ _ _ _
               (sorted_children_sorted s (parent_id y)) Hz Hb). lia. }
    destruct (decide (a = b)) as [->|Hne].
    - rewrite Hz in Ha. by simplify_eq.
    - assert (order x ≤ order z); [|lia].
      apply (StronglySorted_lookup_lt _ _ _ _ _ _
               (sorted_children_sorted s (parent_id y)) Ha Hz). lia. }
  rewrite (reorder_item_up s (id y) j y b k z Hfind Hb Hz).
  f_equal. unfold swap_orders. simpl.
  destruct (sorted_children_lookup _ _ _ _ _ Hz) as [Hk _].
  rewrite Hoz, set_order_same, (list_insert_id _ j y Hj).
  rewrite <-Hoz, set_order_same, (list_insert_id _ k z Hk).
  by destruct s.
Qed.

Lemma reorder_item_equal_orders_witness :
  let X := {| id := 0; name := "X"; parent_id := -1; order := 4 |} in
  let Y := {| id := 1; name := "Y"; parent_id := -1; order := 4 |} in
  let s := {| items := [X; Y]; active_index := 0; next_id := 2 |} in
  reorder_item s 1 "UP" = (true, s)
  ∧ order <$> items (reorder_item s 1 "UP").2 = order <$> items s
  ∧ ∀ fuel, flatten_hierarchy fuel (reorder_item s 1 "UP").2
            = flatten_hierarchy fuel s.
Proof.
  intros X Y s.
  apply (reorder_item_equal_orders s 0 1 X Y); first [reflexivity | lia].
Defined.

(** * Further properties *)

(** ** Lookups by id and by position *)

Lemma get_collection_index_from_id_Some s k i x :
  find_item s k = Some (i, x) →
  get_collection_index_from_id s k = Z.of_nat i.
Proof. unfold get_collection_index_from_id. by intros ->. Qed.

Lemma find_item_unique s i x :
  NoDup (id <$> items s) → items s !! i = Some x →
  find_item s (id x) = Some (i, x).
Proof.
  intros Hnd Hi. apply find_item_Some. split_and!; [done..|].
  intros j y Hj Hlt Hid.
  assert (j = i); [|lia].
  eapply NoDup_lookup; [exact Hnd|..]; rewrite list_lookup_fmap.
  - by rewrite Hj.
  - rewrite Hi. simpl. by rewrite Hid.
Qed.

(** X1. [get_collection_index_from_id] returns -1 exactly when no item
    carries the id; otherwise it returns the first slot that holds the id,
    the slot of the item [get_item_by_id] returns.  With unique ids it
    finds the slot of every stored item from the item's id. *)
Theorem get_collection_index_from_id_slot :
  (∀ s k,
     get_collection_index_from_id s k = -1 ↔
     ∀ x, x ∈ items s → id x ≠ k)
  ∧ (∀ s k,
       get_collection_index_from_id s k ≠ -1 →
       ∃ i x,
         get_collection_index_from_id s k = Z.of_nat i
         ∧ items s !! i = Some x ∧ id x = k
         ∧ get_item_by_id s k = Some x
         ∧ ∀ j y, items s !! j = Some y → (j < i)%nat → id y ≠ k)
  ∧ (∀ s i x,
       NoDup (id <$> items s) → items s !! i = Some x →
       get_collection_index_from_id s (id x) = Z.of_nat i).
Proof.
  split_and!.
  - intros s k. rewrite <-find_item_None. unfold get_collection_index_from_id.
    destruct (find_item s k) as [[i x]|]; [|done]. split; [lia|done].
  - intros s k. unfold get_collection_index_from_id, get_item_by_id.
    destruct (find_item s k) as [[i x]|] eqn:Hfind; [|done]. intros _.
    apply find_item_Some in Hfind as (? & ? & ?). by exists i, x.
  - intros s i x Hnd Hi. apply (get_collection_index_from_id_Some _ _ _ x).
    by apply find_item_unique.
Qed.

Lemma get_collection_index_from_id_slot_witness :
  let s := (add_item (add_item empty_manager "a" (-1)).2 "b" 0).2 in
  (∃ i x,
     get_collection_index_from_id s 1 = Z.of_nat i
     ∧ items s !! i = Some x ∧ id x = 1
     ∧ get_item_by_id s 1 = Some x
     ∧ ∀ j y, items s !! j = Some y → (j < i)%nat → id y ≠ 1)
  ∧ get_collection_index_from_id s
      (id {| id := 1; name := "b"; parent_id := 0; order := 1 |})
    = Z.of_nat 1.
Proof.
  intros s. split.
  - apply (proj1 (proj2 get_collection_index_from_id_slot) s 1). compute_done.
  - apply (proj2 (proj2 get_collection_index_from_id_slot) s 1%nat);
      [compute_done|reflexivity].
Defined.

Lemma get_id_from_flattened_index_Some fuel s l index :
  flatten_hierarchy fuel s = Some l →
  get_id_from_flattened_index fuel s index =
  Some (if bool_decide (0 ≤ index ∧ index < Z.of_nat (length l))
        then default (-1) ((λ e, id e.1) <$> l !! Z.to_nat index)
        else -1).
Proof.
  intros Hl. unfold get_id_from_flattened_index. rewrite Hl.
  by case_bool_decide.
Qed.

Lemma flatten_hierarchy_elem_items fuel s l x d :
  flatten_hierarchy fuel s = Some l → (x, d) ∈ l → x ∈ items s.
Proof. intros Hl Hx. by eapply collect_items_listed. Qed.

(** X2. When the traversal returns, [get_id_from_flattened_index] gives -1
    for a negative index and for an index past the end, and for an index
    in range the id of the item listed there, which is a stored item.  On
    a well-formed store the answer is -1 only out of range. *)
Theorem get_id_from_flattened_index_bounds :
  (∀ fuel s l index,
     flatten_hierarchy fuel s = Some l →
     index < 0 ∨ Z.of_nat (length l) ≤ index →
     get_id_from_flattened_index fuel s index = Some (-1))
  ∧ (∀ fuel s l index,
       flatten_hierarchy fuel s = Some l →
       0 ≤ index < Z.of_nat (length l) →
       ∃ x d, l !! Z.to_nat index = Some (x, d) ∧ x ∈ items s
              ∧ get_id_from_flattened_index fuel s index = Some (id x))
  ∧ (∀ fuel s l index,
       well_formed s → flatten_hierarchy fuel s = Some l →
       (get_id_from_flattened_index fuel s index = Some (-1) ↔
        index < 0 ∨ Z.of_nat (length l) ≤ index)).
Proof.
  assert (∀ fuel s l index,
            flatten_hierarchy fuel s = Some l →
            0 ≤ index < Z.of_nat (length l) →
            ∃ x d, l !! Z.to_nat index = Some (x, d) ∧ x ∈ items s
                   ∧ get_id_from_flattened_index fuel s index = Some (id x))
    as Hin.
  { intros fuel s l index Hl Hrange.
    destruct (lookup_lt_is_Some_2 l (Z.to_nat index)) as [[x d] Hx]; [lia|].
    exists x, d. split_and!; [done| |].
    - eapply flatten_hierarchy_elem_items; [done|].
      by eapply list_elem_of_lookup_2.
    - rewrite (get_id_from_flattened_index_Some _ _ _ _ Hl).
      rewrite bool_decide_eq_true_2 by lia. by rewrite Hx. }
  split_and!; [|done|].
  - intros fuel s l index Hl Hout.
    rewrite (get_id_from_flattened_index_Some _ _ _ _ Hl).
    by rewrite bool_decide_eq_false_2 by lia.
  - intros fuel s l index Hwf Hl. split.
    + intros Hres.
      destruct (decide (0 ≤ index < Z.of_nat (length l))) as [Hr|]; [|lia].
      destruct (Hin _ _ _ _ Hl Hr) as (x & d & _ & Hx & Hid).
      rewrite Hid in Hres. apply (wf_range _ Hwf) in Hx.
      injection Hres as Hres. lia.
    + intros Hout.
      rewrite (get_id_from_flattened_index_Some _ _ _ _ Hl).
      by rewrite bool_decide_eq_false_2 by lia.
Qed.

Lemma get_id_from_flattened_index_bounds_witness :
  let s := (add_item (add_item empty_manager "a" (-1)).2 "b" 0).2 in
  let l := [({| id := 0; name := "a"; parent_id := -1; order := 1 |}, 0);
            ({| id := 1; name := "b"; parent_id := 0; order := 1 |}, 1)] in
  get_id_from_flattened_index 3 s 2 = Some (-1)
  ∧ (∃ x d, l !! Z.to_nat 1 = Some (x, d) ∧ x ∈ items s
            ∧ get_id_from_flattened_index 3 s 1 = Some (id x))
  ∧ (get_id_from_flattened_index 3 s (-4) = Some (-1) ↔
     -4 < 0 ∨ Z.of_nat (length l) ≤ -4).
Proof.
  intros s l. split_and!.
  - apply (proj1 get_id_from_flattened_index_bounds 3%nat s l 2);
      [reflexivity|right; simpl; lia].
  - apply (proj1 (proj2 get_id_from_flattened_index_bounds) 3%nat s l 1);
      [reflexivity|simpl; lia].
  - apply (proj2 (proj2 get_id_from_flattened_index_bounds) 3%nat s l (-4));
      [|reflexivity].
    apply reachable_well_formed.
    eapply (reachable_step _ (OpAdd "b" 0) 0); [|reflexivity].
    eapply (reachable_step _ (OpAdd "a" (-1)) 0); [constructor|reflexivity].
Defined.

(** ** Orders handed out by [get_next_order] *)

Lemma max_default_ge d xs y : y ∈ xs → y ≤ max_default d xs.
Proof.
  destruct xs as [|x xs]; [by intros ?%elem_of_nil|]. simpl.
  destruct (foldl_max_spec x xs) as (_ & Hx & Hge).
  intros [->|Hy]%elem_of_cons; [done|by apply Hge].
Qed.

Lemma max_default_elem d xs : xs ≠ [] → max_default d xs ∈ xs.
Proof.
  destruct xs as [|x xs]; [done|]. intros _. simpl.
  destruct (foldl_max_spec x xs) as ([->|Hin] & _ & _); [by left|by right].
Qed.

Lemma get_next_order_gt s p e :
  e ∈ children_of s p → order e.2 < get_next_order s p.
Proof.
  intros He. unfold get_next_order.
  assert (order e.2 ≤ max_default (-1) ((λ e, order e.2) <$> children_of s p));
    [|lia].
  apply max_default_ge. by apply (list_elem_of_fmap_2 (λ e, order e.2)).
Qed.

(** In a sorted list, an element whose key is above all others is last. *)
Lemma sorted_last_greatest {A} `{!EqDecision A} (key : A → Z)
    (l : list A) x :
  StronglySorted (key_le key) l → x ∈ l →
  (∀ y, y ∈ l → y ≠ x → key y < key x) →
  last l = Some x.
Proof.
  intros Hsorted Hx Hgt.
  destruct (last l) as [z|] eqn:Hlast.
  - apply last_Some in Hlast as [l' ->]. f_equal.
    destruct (decide (z = x)) as [|Hzx]; [done|].
    assert (key z < key x) as Hlt.
    { apply Hgt; [|done]. apply elem_of_app. right. by left. }
    apply elem_of_app in Hx as [Hx|Hx%list_elem_of_singleton]; [|done].
    apply StronglySorted_app in Hsorted as (Hle & _ & _).
    assert (key x ≤ key z) by (apply Hle; [done|by left]). lia.
  - apply last_None in Hlast as ->. by apply elem_of_nil in Hx.
Qed.

(** X3. [get_next_order] is 0 for a parent without children; otherwise it
    is one more than the order of some child, and above the order of every
    child of that parent. *)
Theorem get_next_order_above_children :
  (∀ s p, children_of s p = [] → get_next_order s p = 0)
  ∧ (∀ s p i x,
       items s !! i = Some x → parent_id x = p →
       order x < get_next_order s p
       ∧ ∃ j y, items s !! j = Some y ∧ parent_id y = p
                ∧ get_next_order s p = order y + 1).
Proof.
  split.
  - intros s p Hnone. unfold get_next_order. by rewrite Hnone.
  - intros s p i x Hi Hp.
    assert ((i, x) ∈ children_of s p) as Hin
      by by apply elem_of_children_of.
    split; [apply (get_next_order_gt s p (i, x) Hin)|].
    unfold get_next_order.
    destruct (list_elem_of_fmap_1 (λ e, order e.2) (children_of s p)
                (max_default (-1) ((λ e, order e.2) <$> children_of s p)))
      as ([j y] & Hmax & Hy).
    { apply max_default_elem. intros Hnil.
      apply fmap_nil_inv in Hnil. rewrite Hnil in Hin.
      by apply elem_of_nil in Hin. }
    apply elem_of_children_of in Hy as [Hj Hpy].
    exists j, y. split_and!; [done..|]. by rewrite Hmax.
Qed.

Lemma get_next_order_above_children_witness :
  let s := {| items := [ {| id := 0; name := "a"; parent_id := -1; order := 0 |};
                         {| id := 1; name := "b"; parent_id := -1; order := 5 |};
                         {| id := 2; name := "c"; parent_id := 0; order := 2 |} ];
              active_index := 0; next_id := 3 |} in
  get_next_order s 2 = 0
  ∧ (0 < get_next_order s (-1)
     ∧ ∃ j y, items s !! j = Some y ∧ parent_id y = -1
              ∧ get_next_order s (-1) = order y + 1).
Proof.
  intros s. split.
  - apply (proj1 get_next_order_above_children s 2). reflexivity.
  - apply (proj2 get_next_order_above_children s (-1) 0%nat
             {| id := 0; name := "a"; parent_id := -1; order := 0 |});
      reflexivity.
Defined.

(** ** What [add_item] leaves and what it adds *)

Lemma add_item_lookup_old s nm p i x :
  items s !! i = Some x → items (add_item s nm p).2 !! i = Some x.
Proof.
  intros Hi. rewrite add_item_eq. simpl. by apply lookup_app_l_Some.
Qed.

Lemma add_item_order_gt s nm p new :
  items (add_item s nm p).2 !! length (items s) = Some new →
  1 ≤ order new
  ∧ ∀ j y, items s !! j = Some y → parent_id y = p → order y < order new.
Proof.
  rewrite add_item_eq. simpl. rewrite list_lookup_middle by done.
  intros [= <-]. simpl. split; [lia|]. intros j y Hj Hp.
  assert (order y ≤ max_default (-1) ((λ e, order e.2) <$> children_of s p));
    [|lia].
  apply max_default_ge.
  apply (list_elem_of_fmap_2 (λ e, order e.2) _ (j, y)).
  by apply elem_of_children_of.
Qed.

Lemma add_item_sorts_last s nm p new :
  items (add_item s nm p).2 !! length (items s) = Some new →
  last (sorted_children (add_item s nm p).2 p)
  = Some (length (items s), new).
Proof.
  intros Hnew.
  destruct (add_item_order_gt s nm p new Hnew) as [_ Hgt].
  assert (parent_id new = p) as Hpnew.
  { revert Hnew. rewrite add_item_eq. simpl.
    rewrite list_lookup_middle by done. by intros [= <-]. }
  apply (sorted_last_greatest (λ e, order e.2));
    [apply sorted_children_sorted|by apply elem_of_sorted_children|].
  intros [j y] [Hj Hpy]%elem_of_sorted_children Hne. simpl.
  destruct (decide (j = length (items s))) as [->|Hjn]; [congruence|].
  apply (Hgt j); [|done].
  revert Hj. rewrite add_item_eq. simpl.
  intros Hj. apply lookup_lt_Some in Hj as Hlt.
  rewrite length_app in Hlt. simpl in Hlt.
  rewrite lookup_app_l in Hj by lia. done.
Qed.

(** X4. [add_item] appends one element and touches no other: every slot
    keeps its record and [active_index] its value.  The new element has
    the counter's value as id, the given name and parent, an order of at
    least 1 above the order of every existing child of that parent, and so
    comes last in the sorted sibling group; other groups are as before. *)
Theorem add_item_appends_last s nm p :
  ∃ new,
    items (add_item s nm p).2 = items s ++ [new]
    ∧ active_index (add_item s nm p).2 = active_index s
    ∧ id new = next_id s ∧ name new = nm ∧ parent_id new = p
    ∧ 1 ≤ order new
    ∧ (∀ j y, items s !! j = Some y → parent_id y = p → order y < order new)
    ∧ last (sorted_children (add_item s nm p).2 p)
      = Some (length (items s), new)
    ∧ ∀ q, q ≠ p →
        sorted_children (add_item s nm p).2 q = sorted_children s q.
Proof.
  destruct (lookup_lt_is_Some_2 (items (add_item s nm p).2)
              (length (items s))) as [new Hnew].
  { rewrite add_item_eq. simpl. rewrite length_app. simpl. lia. }
  destruct (add_item_order_gt s nm p new Hnew) as [Hpos Hgt].
  pose proof (add_item_sorts_last s nm p new Hnew) as Hlast.
  assert (items (add_item s nm p).2 = items s ++ [new]
          ∧ id new = next_id s ∧ name new = nm ∧ parent_id new = p)
    as (Hitems & Hid & Hname & Hparent).
  { revert Hnew. rewrite add_item_eq. simpl.
    rewrite list_lookup_middle by done. by intros [= <-]. }
  exists new.
  split; [done|]. split; [by rewrite add_item_eq|].
  do 6 (split; [done|]).
  intros q Hq. by apply sorted_children_add_other.
Qed.

Lemma get_item_by_id_add_item s nm p k :
  well_formed s →
  get_item_by_id (add_item s nm p).2 k =
  if bool_decide (k = next_id s)
  then last (items (add_item s nm p).2)
  else get_item_by_id s k.
Proof.
  intros Hwf. unfold get_item_by_id, find_item.
  rewrite add_item_eq. simpl. rewrite last_snoc.
  destruct (list_find (λ x, id x = k) (items s)) as [[i x]|] eqn:Hfind.
  - rewrite (list_find_app_l _ _ _ _ _ Hfind). simpl.
    apply (list_find_Some (λ x, id x = k)) in Hfind as (Hi & Hk & _).
    rewrite bool_decide_eq_false_2; [done|].
    apply list_elem_of_lookup_2, (wf_range _ Hwf) in Hi. lia.
  - rewrite list_find_app_r by done. simpl.
    case_bool_decide as Hk.
    + by rewrite decide_True.
    + by rewrite decide_False.
Qed.

(** X5. On a well-formed store, looking up the id that [add_item] returned
    finds the item just added, and looking up any other id finds what it
    found before. *)
Theorem add_item_then_get_item_by_id s nm p :
  well_formed s →
  (∃ new, get_item_by_id (add_item s nm p).2 (add_item s nm p).1 = Some new
          ∧ items (add_item s nm p).2 !! length (items s) = Some new
          ∧ name new = nm ∧ parent_id new = p)
  ∧ ∀ k, k ≠ (add_item s nm p).1 →
      get_item_by_id (add_item s nm p).2 k = get_item_by_id s k.
Proof.
  intros Hwf. split.
  - rewrite (get_item_by_id_add_item _ _ _ _ Hwf), add_item_id.
    rewrite bool_decide_eq_true_2 by done.
    rewrite add_item_eq. simpl. rewrite last_snoc. eexists.
    split_and!; [done| |done..]. by rewrite list_lookup_middle.
  - intros k Hk. rewrite add_item_id in Hk.
    rewrite (get_item_by_id_add_item _ _ _ _ Hwf).
    by rewrite bool_decide_eq_false_2.
Qed.

Lemma add_item_then_get_item_by_id_witness :
  let s := (add_item empty_manager "a" (-1)).2 in
  (∃ new, get_item_by_id (add_item s "b" 0).2 (add_item s "b" 0).1 = Some new
          ∧ items (add_item s "b" 0).2 !! length (items s) = Some new
          ∧ name new = "b" ∧ parent_id new = 0)
  ∧ ∀ k, k ≠ (add_item s "b" 0).1 →
      get_item_by_id (add_item s "b" 0).2 k = get_item_by_id s k.
Proof.
  intros s. apply (add_item_then_get_item_by_id s "b" 0).
  apply reachable_well_formed.
  eapply (reachable_step _ (OpAdd "a" (-1)) 0); [constructor|reflexivity].
Defined.

(** ** What [move_item] does when it accepts *)

Lemma move_item_true_inv fuel s k p s' :
  move_item fuel s k p = Some (true, s') →
  ∃ i x,
    find_item s k = Some (i, x)
    ∧ (p = -1 ∨ is_Some (get_item_by_id s p))
    ∧ ancestor_walk fuel s k (get_item_by_id s p) = Some false
    ∧ s' = with_items s
             (<[i := set_order (set_parent_id x p)
                       (get_next_order
                          (with_items s (<[i := set_parent_id x p]> (items s)))
                          p)]> (items s)).
Proof.
  unfold move_item.
  destruct (find_item s k) as [[i x]|] eqn:Hfind; [|done].
  destruct (bool_decide (p = -1) || _) eqn:Hcond; [|done].
  destruct (ancestor_walk _ _ _ _) as [[]|] eqn:Hwalk; [done| |done].
  intros [= <-]. exists i, x. split_and!; [done| |done..].
  apply orb_true_iff in Hcond as [?%bool_decide_eq_true|?%bool_decide_eq_true];
    [by left|by right].
Qed.

Lemma move_item_accepts fuel s k p i x :
  find_item s k = Some (i, x) →
  p = -1 ∨ is_Some (get_item_by_id s p) →
  ancestor_walk fuel s k (get_item_by_id s p) = Some false →
  ∃ s', move_item fuel s k p = Some (true, s').
Proof.
  intros Hfind Hp Hwalk. unfold move_item. rewrite Hfind, Hwalk.
  rewrite (proj2 (orb_true_iff _ _)); [by eexists|].
  destruct Hp as [Hp|Hp]; [left|right]; by apply bool_decide_eq_true.
Qed.

Lemma move_item_effect fuel s k p s' :
  move_item fuel s k p = Some (true, s') →
  ∃ i x x',
    find_item s k = Some (i, x)
    ∧ items s' = <[i := x']> (items s)
    ∧ id x' = k ∧ name x' = name x ∧ parent_id x' = p
    ∧ order x < order x'
    ∧ (∀ j y, j ≠ i → items s !! j = Some y → parent_id y = p →
         order y < order x')
    ∧ next_id s' = next_id s ∧ active_index s' = active_index s.
Proof.
  intros (i & x & Hfind & _ & _ & ->)%move_item_true_inv.
  apply find_item_Some in Hfind as Hx. destruct Hx as (Hi & Hk & _).
  apply lookup_lt_Some in Hi as Hlen.
  set (s1 := with_items s (<[i := set_parent_id x p]> (items s))).
  exists i, x, (set_order (set_parent_id x p) (get_next_order s1 p)).
  split_and!; try done.
  - apply (get_next_order_gt s1 p (i, set_parent_id x p)).
    apply elem_of_children_of. split; [|done].
    by apply list_lookup_insert_eq.
  - intros j y Hj Hy Hp. apply (get_next_order_gt s1 p (j, y)).
    apply elem_of_children_of. split; [|done]. simpl.
    by rewrite list_lookup_insert_ne.
Qed.

(** X6. An accepted [move_item] rewrites one slot, the one of the first
    item with that id: its id and name stay, its parent becomes the new
    parent, and its order grows, to a value above the order of every other
    child of the new parent, which places it last in the sorted group of
    the new parent.  Nothing else in the store changes. *)
Theorem move_item_accepted_effect fuel s k p s' :
  move_item fuel s k p = Some (true, s') →
  ∃ i x x',
    find_item s k = Some (i, x)
    ∧ items s' = <[i := x']> (items s)
    ∧ id x' = k ∧ name x' = name x ∧ parent_id x' = p
    ∧ order x < order x'
    ∧ (∀ j y, j ≠ i → items s !! j = Some y → parent_id y = p →
         order y < order x')
    ∧ last (sorted_children s' p) = Some (i, x')
    ∧ next_id s' = next_id s ∧ active_index s' = active_index s.
Proof.
  intros Hmove.
  destruct (move_item_effect _ _ _ _ _ Hmove)
    as (i & x & x' & Hfind & Hitems & Hid & Hname & Hp & Hgrow & Hgt & Hn & Ha).
  exists i, x, x'. split_and!; try done.
  apply find_item_Some in Hfind as (Hi & _ & _).
  apply lookup_lt_Some in Hi as Hlen.
  apply (sorted_last_greatest (λ e, order e.2)).
  - apply sorted_children_sorted.
  - apply elem_of_sorted_children. rewrite Hitems.
    split; [by apply list_lookup_insert_eq|done].
  - intros [j y] [Hj Hpy]%elem_of_sorted_children Hne. simpl.
    rewrite Hitems in Hj.
    destruct (decide (j = i)) as [->|Hji].
    + rewrite list_lookup_insert_eq in Hj by done. congruence.
    + rewrite list_lookup_insert_ne in Hj by done. by eapply Hgt.
Qed.

Lemma move_item_accepted_effect_witness :
  let s := (add_item (add_item (add_item empty_manager "A" (-1)).2 "B" (-1)).2
              "C" 0).2 in
  ∃ s', move_item 2 s 1 0 = Some (true, s')
  ∧ ∃ i x x',
      find_item s 1 = Some (i, x)
      ∧ items s' = <[i := x']> (items s)
      ∧ id x' = 1 ∧ name x' = name x ∧ parent_id x' = 0
      ∧ order x < order x'
      ∧ (∀ j y, j ≠ i → items s !! j = Some y → parent_id y = 0 →
           order y < order x')
      ∧ last (sorted_children s' 0) = Some (i, x')
      ∧ next_id s' = next_id s ∧ active_index s' = active_index s.
Proof.
  intros s. eexists. split; [reflexivity|].
  apply (move_item_accepted_effect 2 s 1 0). reflexivity.
Defined.

(** X7. On a well-formed store, moving an existing item under the sentinel
    is always accepted, with any amount of fuel: the walk has nothing to
    visit. *)
Theorem move_item_to_sentinel_accepted fuel s k :
  well_formed s → is_Some (get_item_by_id s k) →
  ∃ s' i x,
    move_item fuel s k (-1) = Some (true, s')
    ∧ items s' !! i = Some x ∧ id x = k ∧ parent_id x = -1.
Proof.
  intros Hwf [x Hx]. unfold get_item_by_id in Hx.
  destruct (find_item s k) as [[i x0]|] eqn:Hfind; [|done].
  destruct (move_item_accepts fuel s k (-1) i x0 Hfind) as [s' Hmove].
  - by left.
  - by rewrite get_item_by_id_sentinel, ancestor_walk_top.
  - destruct (move_item_effect _ _ _ _ _ Hmove)
      as (i' & x1 & x' & Hfind' & Hitems & Hid & _ & Hp & _).
    exists s', i', x'. split_and!; [done| |done..].
    rewrite Hitems. apply list_lookup_insert_eq.
    apply find_item_Some in Hfind' as (Hi & _). by eapply lookup_lt_Some.
Qed.

Lemma move_item_to_sentinel_accepted_witness :
  let s := (add_item (add_item empty_manager "A" (-1)).2 "B" 0).2 in
  ∃ s' i x,
    move_item 0 s 1 (-1) = Some (true, s')
    ∧ items s' !! i = Some x ∧ id x = 1 ∧ parent_id x = -1.
Proof.
  intros s. apply (move_item_to_sentinel_accepted 0 s 1).
  - apply reachable_well_formed.
    eapply (reachable_step _ (OpAdd "B" 0) 0); [|reflexivity].
    eapply (reachable_step _ (OpAdd "A" (-1)) 0); [constructor|reflexivity].
  - by eexists.
Defined.

(** ** The cycle guard is exact *)

Lemma walk_reaches_ancestor s k c :
  c ∈ items s → walk_reaches s k (Some c) →
  id c = k ∨ ancestor s k (id c).
Proof.
  intros Hc Hw. remember (Some c) as cur eqn:Hcur. revert c Hc Hcur.
  induction Hw as [c' Hid|c' Hid Hw IH]; intros c Hc [= ->]; [by left|].
  right. destruct (get_item_by_id s (parent_id c)) as [c1|] eqn:Hget;
    [|by inv Hw].
  apply get_item_by_id_Some in Hget as [Hc1 Hid1].
  destruct (IH c1 Hc1 eq_refl) as [<-|Ha].
  - rewrite Hid1. by apply ancestor_parent.
  - apply ancestor_up; [done|]. by rewrite <-Hid1.
Qed.

Lemma ancestor_walk_reaches s k x c :
  NoDup (id <$> items s) → is_Some (get_item_by_id s k) →
  ancestor s k x → c ∈ items s → id c = x →
  walk_reaches s k (Some c).
Proof.
  intros Hnd [ck Hck] Ha. revert c.
  induction Ha as [c0 Hc0|c0 a Hc0 Ha IH]; intros c Hc Hid;
    assert (c = c0) as -> by (by eapply NoDup_fmap_eq).
  - destruct (decide (id c0 = parent_id c0)) as [Heq|Hne];
      [by apply walk_here|].
    apply walk_up; [done|]. rewrite Hck.
    apply get_item_by_id_Some in Hck as [_ ?]. by apply walk_here.
  - destruct (decide (id c0 = a)) as [|Hna]; [by apply walk_here|].
    apply walk_up; [done|].
    destruct (ancestor_item _ _ _ Ha) as (c1 & Hc1 & Hid1).
    rewrite <-Hid1, get_item_by_id_unique by done. by apply IH.
Qed.

Lemma move_item_guard_exact s k p :
  well_formed s → rooted s →
  is_Some (get_item_by_id s k) →
  p = -1 ∨ is_Some (get_item_by_id s p) →
  ∃ b s',
    move_item (length (items s)) s k p = Some (b, s')
    ∧ (b = false ↔ p = k ∨ ancestor s k p).
Proof.
  intros Hwf Hroot Hk Hp.
  destruct (move_item_terminates s k p Hwf Hroot) as [[b s'] Hmove].
  exists b, s'. split; [done|].
  assert (0 ≤ k) as Hk0.
  { destruct Hk as [x [Hx <-]%get_item_by_id_Some].
    apply (wf_range _ Hwf) in Hx. lia. }
  revert Hmove. unfold move_item.
  destruct Hk as [x Hx]. unfold get_item_by_id in Hx.
  destruct (find_item s k) as [[i x0]|] eqn:Hfind; [|done].
  rewrite (proj2 (orb_true_iff _ _));
    [|destruct Hp as [Hp|Hp]; [left|right]; by apply bool_decide_eq_true].
  destruct (ancestor_walk _ _ _ _) as [r|] eqn:Hwalk; [|done].
  assert (r = true ↔ walk_reaches s k (get_item_by_id s p)) as Hr.
  { rewrite walk_reaches_ancestor_walk. split.
    - intros ->. by eexists.
    - intros [fuel Hf].
      pose proof (ancestor_walk_mono _ (fuel `max` length (items s)) _ _ _ _
                    (Nat.le_max_l _ _) Hf) as H1.
      pose proof (ancestor_walk_mono _ (fuel `max` length (items s)) _ _ _ _
                    (Nat.le_max_r _ _) Hwalk) as H2.
      congruence. }
  assert (walk_reaches s k (get_item_by_id s p) ↔ p = k ∨ ancestor s k p)
    as Hreach.
  { destruct (get_item_by_id s p) as [c|] eqn:Hget.
    - apply get_item_by_id_Some in Hget as [Hc Hid]. split.
      + intros [?|?]%walk_reaches_ancestor; [left|right|]; congruence.
      + intros [->|Ha].
        * by apply walk_here.
        * eapply ancestor_walk_reaches; [apply Hwf| |done..].
          unfold get_item_by_id. by rewrite Hfind.
    - split; [by inversion 1|].
      intros [->|(c & Hc & Hid)%ancestor_item].
      + unfold get_item_by_id in Hget. by rewrite Hfind in Hget.
      + by eapply get_item_by_id_None in Hget. }
  destruct r; intros [= <- <-]; rewrite <-Hreach, <-Hr; done.
Qed.

(** X8. In a store built from the empty one by [add_item] calls that are
    given the sentinel or an existing id, by [move_item] and by
    [reorder_item], ids are unique, every item hangs from the sentinel, no
    item is its own ancestor, and [move_item] returns for any arguments
    within as many steps as there are items. *)
Theorem checked_runs_stay_acyclic s :
  reachable_checked s →
  well_formed s ∧ rooted s ∧ acyclic s
  ∧ ∀ k p, is_Some (move_item (length (items s)) s k p).
Proof.
  intros [Hwf Hroot]%reachable_checked_rooted.
  split_and!; [done..|by apply rooted_acyclic|].
  intros k p. by apply move_item_terminates.
Qed.

Lemma checked_runs_stay_acyclic_witness :
  let s := (add_item (add_item empty_manager "A" (-1)).2 "B" 0).2 in
  well_formed s ∧ rooted s ∧ acyclic s
  ∧ ∀ k p, is_Some (move_item (length (items s)) s k p).
Proof.
  intros s. apply (checked_runs_stay_acyclic s).
  eapply (reachable_checked_step (add_item empty_manager "A" (-1)).2
            (OpAdd "B" 0) 0);
    [|right; eexists; reflexivity|reflexivity].
  eapply (reachable_checked_step empty_manager (OpAdd "A" (-1)) 0);
    [constructor|by left|reflexivity].
Defined.

(** X9. The cycle guard of [move_item] is exact.  On a well-formed store
    whose items all hang from the sentinel, for an existing item and a new
    parent that is the sentinel or an existing item, the call returns, and
    it is rejected if and only if the new parent is the item itself or the
    item is an ancestor of the new parent. *)
Theorem move_item_rejects_only_cycles s k p :
  well_formed s → rooted s →
  is_Some (get_item_by_id s k) →
  p = -1 ∨ is_Some (get_item_by_id s p) →
  ∃ b s',
    move_item (length (items s)) s k p = Some (b, s')
    ∧ (b = false ↔ p = k ∨ ancestor s k p).
Proof. apply move_item_guard_exact. Qed.

Lemma move_item_rejects_only_cycles_witness :
  let s := (add_item (add_item empty_manager "A" (-1)).2 "B" 0).2 in
  ∃ b s',
    move_item (length (items s)) s 0 1 = Some (b, s')
    ∧ (b = false ↔ 1 = 0 ∨ ancestor s 0 1).
Proof.
  intros s.
  assert (reachable_checked s) as Hs.
  { eapply (reachable_checked_step (add_item empty_manager "A" (-1)).2
            (OpAdd "B" 0) 0);
      [|right; eexists; reflexivity|reflexivity].
    eapply (reachable_checked_step empty_manager (OpAdd "A" (-1)) 0);
      [constructor|by left|reflexivity]. }
  apply reachable_checked_rooted in Hs as [Hwf Hroot].
  apply (move_item_rejects_only_cycles s 0 1 Hwf Hroot);
    [eexists; reflexivity|right; eexists; reflexivity].
Defined.

(** X10. On a well-formed store [flatten_hierarchy] lists exactly the
    stored items from which parent links lead to the sentinel, each with
    the number of links between its parent and the sentinel as its level;
    items under a missing parent or on a cycle are left out. *)
Theorem flatten_hierarchy_lists_hanging_items fuel s l :
  well_formed s → flatten_hierarchy fuel s = Some l →
  ∀ x d, (x, d) ∈ l ↔ x ∈ items s ∧ ∃ n, d = Z.of_nat n ∧ depth_in s n x.
Proof. intros Hwf Hl x d. by apply (flatten_hierarchy_listed fuel). Qed.

Lemma flatten_hierarchy_lists_hanging_items_witness :
  let s := (add_item (add_item (add_item empty_manager "A" (-1)).2 "B" 0).2
              "lost" 9).2 in
  let l := [({| id := 0; name := "A"; parent_id := -1; order := 1 |}, 0);
            ({| id := 1; name := "B"; parent_id := 0; order := 1 |}, 1)] in
  let B := {| id := 1; name := "B"; parent_id := 0; order := 1 |} in
  let lost := {| id := 2; name := "lost"; parent_id := 9; order := 1 |} in
  ((B, 1) ∈ l ↔ B ∈ items s ∧ ∃ n, 1 = Z.of_nat n ∧ depth_in s n B)
  ∧ ((lost, 0) ∈ l ↔
     lost ∈ items s ∧ ∃ n, 0 = Z.of_nat n ∧ depth_in s n lost).
Proof.
  intros s l B lost.
  assert (well_formed s) as Hwf.
  { apply reachable_well_formed.
    eapply (reachable_step _ (OpAdd "lost" 9) 0); [|reflexivity].
    eapply (reachable_step _ (OpAdd "B" 0) 0); [|reflexivity].
    eapply (reachable_step _ (OpAdd "A" (-1)) 0); [constructor|reflexivity]. }
  assert (flatten_hierarchy 3 s = Some l) as Hl by reflexivity.
  split; apply (flatten_hierarchy_lists_hanging_items 3 s l Hwf Hl).
Defined.

(** X11. On a well-formed store [flatten_hierarchy] lists no item twice,
    so it never lists more entries than there are items; when every item
    hangs from the sentinel it lists each item exactly once. *)
Theorem flatten_hierarchy_lists_once fuel s l :
  well_formed s → flatten_hierarchy fuel s = Some l →
  NoDup (id <$> l.*1)
  ∧ (length l ≤ length (items s))%nat
  ∧ (rooted s → l.*1 ≡ₚ items s).
Proof.
  intros Hwf Hl.
  pose proof (flatten_hierarchy_NoDup_ids _ _ _ Hwf Hl) as Hnd.
  assert (NoDup l.*1) as Hnd1 by by eapply NoDup_fmap_1.
  assert (∀ x, x ∈ l.*1 → x ∈ items s) as Hsub.
  { intros x ([x' d] & -> & Hx)%list_elem_of_fmap.
    eapply flatten_hierarchy_elem_items; [exact Hl|exact Hx]. }
  split_and!; [done| |].
  - rewrite <-(length_fmap fst l).
    by apply submseteq_length, NoDup_submseteq.
  - intros Hroot. apply NoDup_Permutation; [done| |].
    + eapply NoDup_fmap_1, Hwf.
    + intros x. split; [apply Hsub|]. intros Hx.
      destruct (Hroot x Hx) as [n Hn].
      apply (list_elem_of_fmap_2' fst _ (x, Z.of_nat n)); [|done].
      apply (flatten_hierarchy_listed _ _ _ _ _ Hwf Hl). eauto.
Qed.

Lemma flatten_hierarchy_lists_once_witness :
  let s := (add_item (add_item empty_manager "A" (-1)).2 "B" 0).2 in
  let l := [({| id := 0; name := "A"; parent_id := -1; order := 1 |}, 0);
            ({| id := 1; name := "B"; parent_id := 0; order := 1 |}, 1)] in
  NoDup (id <$> l.*1)
  ∧ (length l ≤ length (items s))%nat
  ∧ (rooted s → l.*1 ≡ₚ items s).
Proof.
  intros s l. apply (flatten_hierarchy_lists_once 3 s l); [|reflexivity].
  apply reachable_well_formed.
  eapply (reachable_step _ (OpAdd "B" 0) 0); [|reflexivity].
  eapply (reachable_step _ (OpAdd "A" (-1)) 0); [constructor|reflexivity].
Defined.

(** ** The shape of the levels *)

Lemma gentle_mono prev prev' levels :
  prev ≤ prev' → gentle prev levels → gentle prev' levels.
Proof.
  destruct levels as [|d levels]; simpl; [done|].
  intros ? [? ?]. split; [lia|done].
Qed.

Lemma gentle_app prev l1 l2 :
  gentle prev (l1 ++ l2) ↔
  gentle prev l1 ∧ gentle (default prev (last l1)) l2.
Proof.
  revert prev. induction l1 as [|d l1 IH]; intros prev; [simpl; tauto|].
  change (gentle prev ((d :: l1) ++ l2))
    with (d ≤ prev + 1 ∧ gentle d (l1 ++ l2)).
  rewrite IH. destruct l1 as [|d' l1]; [simpl; tauto|].
  rewrite last_cons_cons.
  destruct (last (d' :: l1)) as [z|] eqn:Hlast; [simpl; tauto|].
  by apply last_None in Hlast.
Qed.

Lemma gentle_lookup prev levels i a b :
  gentle prev levels → levels !! i = Some a → levels !! S i = Some b →
  b ≤ a + 1.
Proof.
  revert prev i. induction levels as [|d levels IH]; intros prev i; [done|].
  intros [_ Hg]. destruct i as [|i]; simpl.
  - intros [= ->]. destruct levels as [|d' levels]; [done|].
    destruct Hg as [? _]. by intros [= ->].
  - by apply (IH d).
Qed.

Lemma collect_group_gentle rec level g l :
  (∀ i sub, rec i = Some sub →
     gentle level sub.*2 ∧ Forall (λ d, level + 1 ≤ d) sub.*2) →
  collect_group rec level g = Some l →
  gentle (level - 1) l.*2 ∧ Forall (λ d, level ≤ d) l.*2.
Proof.
  intros Hrec. revert l. induction g as [|c g IH]; intros l; simpl.
  - by intros [= <-].
  - destruct (rec (id c)) as [sub|] eqn:Hsub; [|done].
    destruct (collect_group rec level g) as [rest|]; [|done].
    intros [= <-]. destruct (Hrec _ _ Hsub) as [Hg1 Hf1].
    destruct (IH rest eq_refl) as [Hg2 Hf2].
    rewrite fmap_cons, fmap_app. simpl. split.
    + split; [lia|]. apply gentle_app. split; [done|].
      eapply gentle_mono; [|done].
      destruct (last sub.*2) as [d|] eqn:Hlast; simpl; [|lia].
      apply last_Some_elem_of in Hlast.
      rewrite Forall_forall in Hf1. apply Hf1 in Hlast. lia.
    + constructor; [done|]. apply Forall_app. split; [|done].
      eapply Forall_impl; [done|]. simpl. lia.
Qed.

Lemma collect_items_gentle fuel s q level l :
  collect_items fuel s q level = Some l →
  gentle (level - 1) l.*2 ∧ Forall (λ d, level ≤ d) l.*2.
Proof.
  revert q level l. induction fuel as [|fuel IH]; intros q level l; [done|].
  rewrite collect_items_S. apply collect_group_gentle.
  intros i sub Hsub. apply IH in Hsub.
  by replace (level + 1 - 1) with level in Hsub by lia.
Qed.

(** X12. The levels [flatten_hierarchy] lists start at 0, are never
    negative, and from one entry to the next rise by at most one. *)
Theorem flatten_hierarchy_levels fuel s l :
  flatten_hierarchy fuel s = Some l →
  (∀ x d, l !! 0%nat = Some (x, d) → d = 0)
  ∧ (∀ x d, (x, d) ∈ l → 0 ≤ d)
  ∧ ∀ i x d x' d',
      l !! i = Some (x, d) → l !! S i = Some (x', d') → d' ≤ d + 1.
Proof.
  intros Hl. destruct (collect_items_gentle _ _ _ _ _ Hl) as [Hg Hf].
  rewrite Forall_forall in Hf. split_and!.
  - intros x d H0.
    assert (0 ≤ d).
    { apply Hf. apply (list_elem_of_fmap_2' snd _ (x, d)); [|done].
      by eapply list_elem_of_lookup_2. }
    destruct l as [|[x0 d0] l]; simplify_eq/=. destruct Hg. lia.
  - intros x d Hx. apply Hf.
    by apply (list_elem_of_fmap_2' snd _ (x, d)).
  - intros i x d x' d' Hi Hi'.
    eapply (gentle_lookup _ l.*2 i); [done|..]; rewrite list_lookup_fmap.
    + by rewrite Hi.
    + by rewrite Hi'.
Qed.

Lemma flatten_hierarchy_levels_witness :
  let s := (add_item (add_item (add_item empty_manager "A" (-1)).2 "B" 0).2
              "C" (-1)).2 in
  let l := [({| id := 0; name := "A"; parent_id := -1; order := 1 |}, 0);
            ({| id := 1; name := "B"; parent_id := 0; order := 1 |}, 1);
            ({| id := 2; name := "C"; parent_id := -1; order := 2 |}, 0)] in
  (∀ x d, l !! 0%nat = Some (x, d) → d = 0)
  ∧ (∀ x d, (x, d) ∈ l → 0 ≤ d)
  ∧ ∀ i x d x' d',
      l !! i = Some (x, d) → l !! S i = Some (x', d') → d' ≤ d + 1.
Proof.
  intros s l. apply (flatten_hierarchy_levels 3 s l). reflexivity.
Defined.

(** ** Reordering and the listing *)

Lemma same_parents_elem s s' x :
  (λ z, (id z, parent_id z)) <$> items s
  = (λ z, (id z, parent_id z)) <$> items s' →
  x ∈ items s →
  ∃ x', x' ∈ items s' ∧ id x' = id x ∧ parent_id x' = parent_id x.
Proof.
  intros Hsame Hx.
  apply (list_elem_of_fmap_2 (λ z, (id z, parent_id z))) in Hx.
  rewrite Hsame in Hx.
  apply list_elem_of_fmap in Hx as (x' & [= ? ?] & Hx'). by exists x'.
Qed.

Lemma same_parents_depth_in s s' n x x' :
  (λ z, (id z, parent_id z)) <$> items s
  = (λ z, (id z, parent_id z)) <$> items s' →
  parent_id x = parent_id x' → depth_in s n x → depth_in s' n x'.
Proof.
  intros Hsame Hp Hn. apply (depth_in_parent s' n x x' Hp).
  revert Hn. apply (depth_in_transfer s s'). intros y Hy.
  by apply (same_parents_elem s s').
Qed.

(** The ids and levels listed depend on the ids and parent ids only. *)
Lemma same_parents_listing s s' fuel fuel' l l' :
  well_formed s → well_formed s' →
  (λ z, (id z, parent_id z)) <$> items s
  = (λ z, (id z, parent_id z)) <$> items s' →
  flatten_hierarchy fuel s = Some l →
  flatten_hierarchy fuel' s' = Some l' →
  (λ e, (id e.1, e.2)) <$> l' ≡ₚ (λ e, (id e.1, e.2)) <$> l.
Proof.
  intros Hwf Hwf' Hsame Hl Hl'.
  assert (∀ t f k, well_formed t → flatten_hierarchy f t = Some k →
            NoDup ((λ e, (id e.1, e.2)) <$> k)) as Hnd.
  { intros t f k Ht Hk. apply (NoDup_fmap_1 fst).
    rewrite <-list_fmap_compose.
    pose proof (flatten_hierarchy_NoDup_ids _ _ _ Ht Hk) as Hids.
    by rewrite <-list_fmap_compose in Hids. }
  assert (∀ t t' f f' k k' i d,
            well_formed t → well_formed t' →
            (λ z, (id z, parent_id z)) <$> items t
            = (λ z, (id z, parent_id z)) <$> items t' →
            flatten_hierarchy f t = Some k →
            flatten_hierarchy f' t' = Some k' →
            (i, d) ∈ (λ e, (id e.1, e.2)) <$> k →
            (i, d) ∈ (λ e, (id e.1, e.2)) <$> k') as Hincl.
  { intros t t' f f' k k' i d Ht Ht' Hsm Hk Hk'
      ([x d'] & [= -> ->] & Hx)%list_elem_of_fmap. simpl.
    apply (flatten_hierarchy_listed _ _ _ _ _ Ht Hk) in Hx
      as (Hx & n & -> & Hn).
    destruct (same_parents_elem t t' x Hsm Hx) as (x' & Hx' & Hid & Hp).
    apply (list_elem_of_fmap_2' _ _ (x', Z.of_nat n)); [|simpl; by rewrite Hid].
    apply (flatten_hierarchy_listed _ _ _ _ _ Ht' Hk').
    split; [done|]. exists n. split; [done|].
    by apply (same_parents_depth_in t t' n x x'). }
  apply NoDup_Permutation;
    [by apply (Hnd s' fuel')|by apply (Hnd s fuel)|].
  intros [i d]. split.
  - by apply (Hincl s' s fuel' fuel).
  - by apply (Hincl s s' fuel fuel').
Qed.

Lemma reorder_item_parents s k direction :
  (λ z, (id z, parent_id z)) <$> items (reorder_item s k direction).2
  = (λ z, (id z, parent_id z)) <$> items s.
Proof.
  destruct (reorder_item s k direction) as [[] s'] eqn:Hre; simpl.
  - apply reorder_item_true_inv in Hre
      as (i & x & idx & idx' & j & y & Hfind & Hidx & Hidx' & _ & ->).
    destruct (sorted_children_lookup _ _ _ _ _ Hidx) as [Hi _].
    destruct (sorted_children_lookup _ _ _ _ _ Hidx') as [Hj _].
    by apply swap_orders_parents.
  - pose proof (reorder_item_false s k direction) as Hs.
    rewrite Hre in Hs. simpl in Hs. by rewrite Hs.
Qed.

Lemma reorder_item_well_formed s k direction :
  well_formed s → well_formed (reorder_item s k direction).2.
Proof.
  intros Hwf.
  apply (run_op_well_formed 0 s (OpReorder k direction) None); done.
Qed.

(** X13. [reorder_item], accepted or not, changes neither which items are
    listed nor their levels: on a well-formed store the ids and levels
    listed afterwards are those listed before, in some order, and the
    traversal returns on both stores. *)
Theorem reorder_item_keeps_listing s k direction :
  well_formed s →
  (∃ l l',
     flatten_hierarchy (S (length (items s))) s = Some l
     ∧ flatten_hierarchy (S (length (items s))) (reorder_item s k direction).2
       = Some l')
  ∧ ∀ fuel fuel' l l',
      flatten_hierarchy fuel s = Some l →
      flatten_hierarchy fuel' (reorder_item s k direction).2 = Some l' →
      (λ e, (id e.1, e.2)) <$> l' ≡ₚ (λ e, (id e.1, e.2)) <$> l.
Proof.
  intros Hwf.
  pose proof (reorder_item_well_formed s k direction Hwf) as Hwf'.
  pose proof (reorder_item_parents s k direction) as Hsame.
  split.
  - destruct (flatten_hierarchy_terminates s Hwf) as [l Hl].
    destruct (flatten_hierarchy_terminates _ Hwf') as [l' Hl'].
    exists l, l'. split; [done|].
    replace (length (items s))
      with (length (items (reorder_item s k direction).2)); [done|].
    rewrite <-(length_fmap (λ z, (id z, parent_id z))), Hsame.
    apply length_fmap.
  - intros fuel fuel' l l' Hl Hl'.
    by eapply (same_parents_listing s).
Qed.

Lemma reorder_item_keeps_listing_witness :
  let s := (add_item (add_item (add_item empty_manager "A" (-1)).2 "B" (-1)).2
              "C" 0).2 in
  (∃ l l',
     flatten_hierarchy (S (length (items s))) s = Some l
     ∧ flatten_hierarchy (S (length (items s))) (reorder_item s 1 "UP").2
       = Some l')
  ∧ ∀ fuel fuel' l l',
      flatten_hierarchy fuel s = Some l →
      flatten_hierarchy fuel' (reorder_item s 1 "UP").2 = Some l' →
      (λ e, (id e.1, e.2)) <$> l' ≡ₚ (λ e, (id e.1, e.2)) <$> l.
Proof.
  intros s. apply (reorder_item_keeps_listing s 1 "UP").
  apply reachable_well_formed.
  eapply (reachable_step _ (OpAdd "C" 0) 0); [|reflexivity].
  eapply (reachable_step _ (OpAdd "B" (-1)) 0); [|reflexivity].
  eapply (reachable_step _ (OpAdd "A" (-1)) 0); [constructor|reflexivity].
Defined.

(** ** Orders of siblings *)

Lemma swap_orders_origin s i x j y a z :
  items s !! i = Some x → items s !! j = Some y → i ≠ j →
  parent_id x = parent_id y →
  items (swap_orders s (i, x) (j, y)) !! a = Some z →
  ∃ z0,
    items s !! (if decide (a = i) then j else if decide (a = j) then i else a)
    = Some z0
    ∧ order z0 = order z ∧ parent_id z0 = parent_id z.
Proof.
  intros Hi Hj Hij Hp Ha.
  destruct (swap_orders_lookup s i x j y Hi Hj Hij) as (Hi' & Hj' & Ho & _).
  destruct (decide (a = i)) as [->|Hai].
  - rewrite Hi' in Ha. injection Ha as <-. exists y. by split_and!.
  - destruct (decide (a = j)) as [->|Haj].
    + rewrite Hj' in Ha. injection Ha as <-. exists x. by split_and!.
    + rewrite Ho in Ha by done. by exists z.
Qed.

Lemma orders_distinct_swap s i x j y :
  orders_distinct s →
  items s !! i = Some x → items s !! j = Some y → i ≠ j →
  parent_id x = parent_id y →
  orders_distinct (swap_orders s (i, x) (j, y)).
Proof.
  intros Hd Hi Hj Hij Hp a b za zb Ha Hb Hab Hpab.
  destruct (swap_orders_origin s i x j y a za Hi Hj Hij Hp Ha)
    as (za0 & Ha0 & <- & Hpa).
  destruct (swap_orders_origin s i x j y b zb Hi Hj Hij Hp Hb)
    as (zb0 & Hb0 & <- & Hpb).
  eapply Hd; [exact Ha0|exact Hb0| |congruence].
  repeat case_decide; congruence.
Qed.

Lemma orders_distinct_reorder_item s k direction :
  orders_distinct s → orders_distinct (reorder_item s k direction).2.
Proof.
  intros Hd.
  destruct (reorder_item s k direction) as [[] s'] eqn:Hre; simpl.
  - apply reorder_item_true_inv in Hre
      as (i & x & idx & idx' & j & y & Hfind & Hidx & Hidx' & Hdir & ->).
    destruct (sorted_children_lookup _ _ _ _ _ Hidx) as [Hi _].
    destruct (sorted_children_lookup _ _ _ _ _ Hidx') as [Hj Hpj].
    apply orders_distinct_swap; [done..| |done].
    eapply sorted_children_lookup_ne; [exact Hidx|exact Hidx'|].
    destruct Hdir as [[_ ->]|[_ ->]]; lia.
  - pose proof (reorder_item_false s k direction) as Hs.
    rewrite Hre in Hs. simpl in Hs. by rewrite Hs.
Qed.

Lemma orders_distinct_add_item s nm p :
  orders_distinct s → orders_distinct (add_item s nm p).2.
Proof.
  intros Hd a b za zb Ha Hb Hab Hp.
  assert (∀ c z, items (add_item s nm p).2 !! c = Some z →
            c ≠ length (items s) → items s !! c = Some z) as Hold.
  { intros c z. rewrite add_item_eq. simpl. intros Hc Hne.
    apply lookup_lt_Some in Hc as Hlt. rewrite length_app in Hlt.
    simpl in Hlt. by rewrite lookup_app_l in Hc by lia. }
  assert (∀ z, items (add_item s nm p).2 !! length (items s) = Some z →
            parent_id z = p) as Hpnew.
  { intros z. rewrite add_item_eq. simpl.
    rewrite list_lookup_middle by done. by intros [= <-]. }
  destruct (decide (a = length (items s))) as [->|Hna];
    destruct (decide (b = length (items s))) as [->|Hnb]; [done|..].
  - destruct (add_item_order_gt s nm p za Ha) as [_ Hgt].
    assert (order zb < order za); [|lia].
    apply (Hgt b); [by apply Hold|]. rewrite <-Hp. by apply Hpnew.
  - destruct (add_item_order_gt s nm p zb Hb) as [_ Hgt].
    assert (order za < order zb); [|lia].
    apply (Hgt a); [by apply Hold|]. rewrite Hp. by apply Hpnew.
  - eapply Hd; [by apply Hold|by apply Hold|done..].
Qed.

Lemma orders_distinct_move_item fuel s k p b s' :
  orders_distinct s → move_item fuel s k p = Some (b, s') →
  orders_distinct s'.
Proof.
  intros Hd Hmove. destruct b.
  - destruct (move_item_effect _ _ _ _ _ Hmove)
      as (i & x & x' & Hfind & Hitems & _ & _ & Hp & _ & Hgt & _).
    apply find_item_Some in Hfind as (Hi & _).
    apply lookup_lt_Some in Hi as Hlen.
    intros a c za zc Ha Hc Hac Hpac. rewrite Hitems in Ha, Hc.
    destruct (decide (a = i)) as [->|Hai];
      destruct (decide (c = i)) as [->|Hci]; [done|..].
    + rewrite list_lookup_insert_eq in Ha by done. injection Ha as <-.
      rewrite list_lookup_insert_ne in Hc by done.
      assert (order zc < order x'); [|lia].
      apply (Hgt c); [done..|congruence].
    + rewrite list_lookup_insert_eq in Hc by done. injection Hc as <-.
      rewrite list_lookup_insert_ne in Ha by done.
      assert (order za < order x'); [|lia].
      apply (Hgt a); [done..|congruence].
    + rewrite list_lookup_insert_ne in Ha, Hc by done. by eapply Hd.
  - revert Hmove. unfold move_item.
    destruct (find_item s k) as [[i x]|]; [|by intros [= <-]].
    destruct (_ || _); [|by intros [= <-]].
    destruct (ancestor_walk _ _ _ _) as [[]|]; [by intros [= <-]|done..].
Qed.

Lemma orders_distinct_remove_index s index s' :
  orders_distinct s → remove_index s index = Some s' → orders_distinct s'.
Proof.
  intros Hd. unfold remove_index. case_bool_decide; [|done].
  intros [= <-] a b za zb. simpl. rewrite !list_lookup_delete.
  intros Ha Hb Hab Hp. repeat case_decide; (eapply Hd; [done..|lia|done]).
Qed.

Lemma add_item_appends_last_aux s nm p :
  ∃ new, items (add_item s nm p).2 = items s ++ [new] ∧ 1 ≤ order new.
Proof. rewrite add_item_eq. simpl. eexists. split; [done|]. simpl. lia. Qed.

Lemma run_op_orders fuel s o r s' :
  orders_distinct s ∧ (∀ x, x ∈ items s → 1 ≤ order x) →
  run_op fuel s o = Some (r, s') →
  orders_distinct s' ∧ (∀ x, x ∈ items s' → 1 ≤ order x).
Proof.
  intros [Hd Hpos]. destruct o as [nm p|k p|k d|index]; unfold run_op.
  - cbv zeta. intros Hrun.
    assert (s' = (add_item s nm p).2) as -> by (by injection Hrun).
    split; [by apply orders_distinct_add_item|].
    destruct (add_item_appends_last_aux s nm p) as (new & Hitems & Hnew).
    intros x Hx. rewrite Hitems in Hx.
    apply elem_of_app in Hx as [Hx|Hx]; [by apply Hpos|].
    by apply list_elem_of_singleton in Hx as ->.
  - destruct (move_item fuel s k p) as [[b s'']|] eqn:Hmove; [|done].
    intros [= <- <-]. split; [by eapply orders_distinct_move_item|].
    destruct b.
    + destruct (move_item_effect _ _ _ _ _ Hmove)
        as (i & x & x' & Hfind & Hitems & _ & _ & _ & Hgrow & _).
      apply find_item_Some in Hfind as (Hi & _).
      intros z Hz. simpl. rewrite Hitems in Hz.
      apply list_elem_of_lookup in Hz as [a Ha].
      destruct (decide (a = i)) as [->|Hai].
      * rewrite list_lookup_insert_eq in Ha by by eapply lookup_lt_Some.
        injection Ha as <-.
        apply list_elem_of_lookup_2, Hpos in Hi. lia.
      * rewrite list_lookup_insert_ne in Ha by done.
        by eapply Hpos, list_elem_of_lookup_2.
    + revert Hmove. unfold move_item.
      destruct (find_item s k) as [[i x]|]; [|by intros [= <-]].
      destruct (_ || _); [|by intros [= <-]].
      destruct (ancestor_walk _ _ _ _) as [[]|]; [by intros [= <-]|done..].
  - intros [= <- <-]. split; [by apply orders_distinct_reorder_item|].
    destruct (reorder_item s k d) as [[] s''] eqn:Hre; simpl; [|].
    + apply reorder_item_true_inv in Hre
        as (i & x & idx & idx' & j & y & Hfind & Hidx & Hidx' & Hdir & ->).
      destruct (sorted_children_lookup _ _ _ _ _ Hidx) as [Hi _].
      destruct (sorted_children_lookup _ _ _ _ _ Hidx') as [Hj Hpj].
      assert (i ≠ j) as Hij.
      { eapply sorted_children_lookup_ne; [exact Hidx|exact Hidx'|].
        destruct Hdir as [[_ ->]|[_ ->]]; lia. }
      intros z [a Ha]%list_elem_of_lookup.
      destruct (swap_orders_origin s i x j y a z Hi Hj Hij) as (z0 & H0 & <- & _);
        [congruence|done|].
      by eapply Hpos, list_elem_of_lookup_2.
    + pose proof (reorder_item_false s k d) as Hs.
      rewrite Hre in Hs. simpl in Hs. by rewrite Hs.
  - destruct (remove_index s index) as [s1|] eqn:Hrm; [|done].
    intros [= <- <-]. split; [by eapply orders_distinct_remove_index|].
    revert Hrm. unfold remove_index. case_bool_decide; [|done].
    intros [= <-] x Hx. simpl in Hx.
    by apply Hpos, (list_elem_of_delete_inv _ index).
Qed.

Lemma reachable_orders s :
  reachable s → orders_distinct s ∧ (∀ x, x ∈ items s → 1 ≤ order x).
Proof.
  induction 1 as [|s o fuel r s' _ IH Hop].
  - split; [by intros i j x y ?|by intros x ?%elem_of_nil].
  - by eapply run_op_orders.
Qed.

(** X14. In every store reached from the empty one by any calls of
    [add_item], [move_item], [reorder_item] and removals, two different
    items under the same parent never have the same order, and every
    order is at least 1. *)
Theorem reachable_orders_distinct s :
  reachable s →
  (∀ i j x y,
     items s !! i = Some x → items s !! j = Some y → i ≠ j →
     parent_id x = parent_id y → order x ≠ order y)
  ∧ ∀ x, x ∈ items s → 1 ≤ order x.
Proof. apply reachable_orders. Qed.

Lemma reachable_orders_distinct_witness :
  let s := (add_item (add_item empty_manager "A" (-1)).2 "B" (-1)).2 in
  (∀ i j x y,
     items s !! i = Some x → items s !! j = Some y → i ≠ j →
     parent_id x = parent_id y → order x ≠ order y)
  ∧ ∀ x, x ∈ items s → 1 ≤ order x.
Proof.
  intros s. apply (reachable_orders_distinct s).
  eapply (reachable_step _ (OpAdd "B" (-1)) 0); [|reflexivity].
  eapply (reachable_step _ (OpAdd "A" (-1)) 0); [constructor|reflexivity].
Defined.

(** ** Moving up, then down *)

Lemma StronglySorted_keys {A} (key : A → Z) (l : list A) :
  StronglySorted (key_le key) l ↔ StronglySorted Z.le (key <$> l).
Proof.
  induction l as [|x l IH]; [split; constructor|].
  rewrite fmap_cons, !StronglySorted_cons, IH, Forall_fmap. done.
Qed.

Lemma filter_fmap_elem {A} (P : A → Prop) `{!∀ x, Decision (P x)}
    (f : A → A) (l : list A) :
  (∀ x, x ∈ l → P (f x) ↔ P x) →
  filter P (f <$> l) = f <$> filter P l.
Proof.
  induction l as [|x l IH]; intros Hf; [done|].
  rewrite fmap_cons, !filter_cons.
  assert (P (f x) ↔ P x) as Hx by (apply Hf; by left).
  rewrite IH by (intros y Hy; apply Hf; by right).
  destruct (decide (P (f x))), (decide (P x)); try tauto; done.
Qed.

Section swap.
Context (s : NestedListManager) (i j : nat) (x y : NestedListItem).
Context (Hi : items s !! i = Some x) (Hj : items s !! j = Some y).
Context (Hij : i ≠ j) (Hp : parent_id y = parent_id x).
Context (Hd : orders_distinct s).

Local Abbreviation x' := (set_order x (order y)).
Local Abbreviation y' := (set_order y (order x)).
Local Abbreviation s' := (swap_orders s (i, x) (j, y)).
Local Abbreviation moved := (swap_moved i j x y).
Local Abbreviation rewritten := (swap_rewritten i j x y).

Lemma swap_slots : slots (items s') = rewritten <$> slots (items s).
Proof.
  destruct (swap_orders_lookup s i x j y Hi Hj Hij) as (Hi' & Hj' & Ho & _).
  apply list_eq. intros a.
  rewrite list_lookup_fmap, !slots_lookup. unfold swap_rewritten.
  destruct (decide (a = i)) as [->|Hai].
  - rewrite Hi', Hi. simpl. by rewrite decide_True.
  - destruct (decide (a = j)) as [->|Haj].
    + rewrite Hj', Hj. simpl.
      by rewrite decide_False, decide_True.
    + rewrite Ho by done.
      destruct (items s !! a); simpl; [|done].
      by rewrite !decide_False.
Qed.

Lemma swap_slot_record e :
  e ∈ slots (items s) →
  (e.1 = i → e = (i, x)) ∧ (e.1 = j → e = (j, y)).
Proof.
  destruct e as [a z]. intros Ha%elem_of_slots. simpl.
  split; intros ->; congruence.
Qed.

Lemma swap_children_of :
  children_of s' (parent_id x) = rewritten <$> children_of s (parent_id x).
Proof.
  unfold children_of. rewrite swap_slots.
  apply (filter_fmap_elem (λ e, parent_id e.2 = parent_id x)).
  intros e He. destruct (swap_slot_record e He) as [Hei Hej].
  unfold swap_rewritten. repeat case_decide; simpl; [| |done].
  - rewrite (Hei ltac:(done)). done.
  - rewrite (Hej ltac:(done)). simpl. by rewrite Hp.
Qed.

Lemma swap_children_elem e :
  e ∈ children_of s (parent_id x) → e ∈ slots (items s).
Proof. unfold children_of. by intros [_ ?]%list_elem_of_filter. Qed.

Lemma swap_children_both :
  (i, x) ∈ children_of s (parent_id x)
  ∧ (j, y) ∈ children_of s (parent_id x).
Proof. split; by apply elem_of_children_of. Qed.

Lemma swap_moved_key e :
  e ∈ slots (items s) → order (moved e).2 = order e.2.
Proof.
  intros He. destruct (swap_slot_record e He) as [Hei Hej].
  unfold swap_moved. repeat case_decide; [| |done].
  - by rewrite (Hei ltac:(done)).
  - by rewrite (Hej ltac:(done)).
Qed.

Lemma swap_moved_inj e1 e2 :
  e1 ∈ slots (items s) → e2 ∈ slots (items s) →
  moved e1 = moved e2 → e1 = e2.
Proof.
  destruct e1 as [a1 z1], e2 as [a2 z2].
  intros H1%elem_of_slots H2%elem_of_slots.
  unfold swap_moved. simpl.
  repeat case_decide; intros Heq; try injection Heq as Ha Hz; congruence.
Qed.

Lemma swap_rewritten_inj e1 e2 :
  e1 ∈ slots (items s) → e2 ∈ slots (items s) →
  rewritten e1 = rewritten e2 → e1 = e2.
Proof.
  destruct e1 as [a1 z1], e2 as [a2 z2].
  intros H1%elem_of_slots H2%elem_of_slots.
  unfold swap_rewritten. simpl.
  repeat case_decide; intros Heq; try injection Heq as Ha Hz; congruence.
Qed.

Lemma swap_moved_rewritten :
  moved <$> children_of s (parent_id x)
  ≡ₚ rewritten <$> children_of s (parent_id x).
Proof.
  destruct swap_children_both as [Hxi Hyj].
  assert (NoDup (children_of s (parent_id x))) as Hnd.
  { eapply NoDup_fmap_1, children_of_NoDup_fst. }
  apply NoDup_Permutation.
  - apply NoDup_fmap_2_strong; [|done].
    intros e1 e2 H1 H2. apply swap_moved_inj; by apply swap_children_elem.
  - apply NoDup_fmap_2_strong; [|done].
    intros e1 e2 H1 H2. apply swap_rewritten_inj; by apply swap_children_elem.
  - intros e. rewrite !list_elem_of_fmap. split.
    + intros (e0 & -> & He0).
      destruct (swap_slot_record e0 (swap_children_elem _ He0)) as [Hei Hej].
      unfold swap_moved. repeat case_decide.
      * exists (j, y). split; [|done]. unfold swap_rewritten. simpl.
        by rewrite decide_False, decide_True.
      * exists (i, x). split; [|done]. unfold swap_rewritten. simpl.
        by rewrite decide_True.
      * exists e0. split; [|done]. unfold swap_rewritten.
        by rewrite !decide_False.
    + intros (e0 & -> & He0).
      destruct (swap_slot_record e0 (swap_children_elem _ He0)) as [Hei Hej].
      unfold swap_rewritten. repeat case_decide.
      * exists (j, y). split; [|done]. unfold swap_moved. simpl.
        by rewrite decide_False, decide_True.
      * exists (i, x). split; [|done]. unfold swap_moved. simpl.
        by rewrite decide_True.
      * exists e0. split; [|done]. unfold swap_moved.
        by rewrite !decide_False.
Qed.

(** The sorted group after the exchange is the sorted group before it with
    the two entries in each other's place. *)
Lemma swap_sorted_children :
  sorted_children s' (parent_id x)
  = moved <$> sorted_children s (parent_id x).
Proof.
  assert (∀ e, e ∈ sorted_children s (parent_id x) → e ∈ slots (items s))
    as Hslots.
  { intros e He. apply swap_children_elem.
    by apply (sorted_elem_of (λ e, order e.2)). }
  apply (StronglySorted_unique_strong (key_le (λ e, order e.2))).
  - intros e1 e2 H1 H2 Hle1 Hle2.
    assert (e1 ∈ moved <$> sorted_children s (parent_id x)) as H1'.
    { unfold sorted_children in *.
      rewrite sorted_Permutation in H1. rewrite swap_children_of in H1.
      rewrite <-swap_moved_rewritten in H1.
      by rewrite sorted_Permutation. }
    apply list_elem_of_fmap in H1' as (a & -> & Ha).
    apply list_elem_of_fmap in H2 as (b & -> & Hb).
    f_equal. unfold key_le in *.
    rewrite !swap_moved_key in Hle1, Hle2 by by apply Hslots.
    destruct a as [ia za], b as [ib zb].
    apply elem_of_sorted_children in Ha as [Ha Hpa], Hb as [Hb Hpb].
    destruct (decide (ia = ib)) as [->|Hne]; [congruence|].
    destruct (Hd ia ib za zb Ha Hb Hne); [congruence|simpl in *; lia].
  - apply sorted_children_sorted.
  - apply StronglySorted_keys. rewrite <-list_fmap_compose.
    rewrite (list_fmap_ext _ (λ e, order e.2) (sorted_children s (parent_id x))).
    + apply (StronglySorted_keys (λ e, order e.2)), sorted_children_sorted.
    + intros a e Ha. simpl. apply swap_moved_key, Hslots.
      by eapply list_elem_of_lookup_2.
  - unfold sorted_children.
    rewrite !sorted_Permutation, swap_children_of.
    by rewrite swap_moved_rewritten.
Qed.

Lemma swap_find_item k : find_item s k = Some (i, x) → find_item s' k = Some (i, x').
Proof.
  intros (_ & Hk & Hfirst)%find_item_Some.
  destruct (swap_orders_lookup s i x j y Hi Hj Hij) as (Hi' & _).
  apply find_item_Some. split_and!; [done..|].
  intros a z Ha Hlt.
  pose proof (swap_orders_ids s i x j y Hi Hj) as Hids.
  assert ((id <$> items s) !! a = Some (id z)) as Hz.
  { rewrite <-Hids, list_lookup_fmap. by rewrite Ha. }
  rewrite list_lookup_fmap in Hz.
  destruct (items s !! a) as [z0|] eqn:Ha0; simplify_eq/=.
  rewrite <-Hz. by eapply Hfirst.
Qed.

Lemma swap_back : swap_orders s' (i, x') (j, y') = s.
Proof.
  destruct (swap_orders_lookup s i x j y Hi Hj Hij) as (Hi' & Hj' & Ho & Hlen).
  destruct (swap_orders_lookup s' i x' j y' Hi' Hj' Hij)
    as (Hi'' & Hj'' & Ho' & Hlen').
  assert (items (swap_orders s' (i, x') (j, y')) = items s) as Hitems.
  { apply list_eq. intros a.
    destruct (decide (a = i)) as [->|Hai].
    - rewrite Hi'', Hi. f_equal. by destruct x.
    - destruct (decide (a = j)) as [->|Haj].
      + rewrite Hj'', Hj. f_equal. by destruct y.
      + by rewrite Ho', Ho. }
  unfold swap_orders in *. simpl in *. rewrite Hitems. by destruct s.
Qed.
End swap.

Lemma swap_moved_first i j x y : swap_moved i j x y (i, x) = (j, set_order y (order x)).
Proof. unfold swap_moved. simpl. by rewrite decide_True. Qed.

Lemma swap_moved_second i j x y :
  i ≠ j → swap_moved i j x y (j, y) = (i, set_order x (order y)).
Proof.
  intros Hij. unfold swap_moved. simpl.
  by rewrite decide_False, decide_True.
Qed.

(** What a successful [reorder_item] leaves behind: the item and the
    neighbour it was exchanged with have traded places in the sorted group,
    and the item is still found under its id. *)
Lemma reorder_item_after s k direction s' :
  orders_distinct s →
  reorder_item s k direction = (true, s') →
  ∃ i x idx idx' j y,
    (direction = "UP" ∧ idx = S idx' ∨ direction = "DOWN" ∧ idx' = S idx)
    ∧ find_item s' k = Some (i, set_order x (order y))
    ∧ sorted_children s' (parent_id x) !! idx'
      = Some (i, set_order x (order y))
    ∧ sorted_children s' (parent_id x) !! idx
      = Some (j, set_order y (order x))
    ∧ swap_orders s' (i, set_order x (order y)) (j, set_order y (order x))
      = s.
Proof.
  intros Hd (i & x & idx & idx' & j & y & Hfind & Hidx & Hidx' & Hdir & ->)
    %reorder_item_true_inv.
  assert ((i, x) ∈ sorted_children s (parent_id x)) as Hx
    by by eapply list_elem_of_lookup_2.
  assert ((j, y) ∈ sorted_children s (parent_id x)) as Hy
    by by eapply list_elem_of_lookup_2.
  apply elem_of_sorted_children in Hx as [Hi _], Hy as [Hj Hp].
  assert (i ≠ j) as Hij.
  { intros ->.
    assert (idx = idx'); [|destruct Hdir as [[_ ?]|[_ ?]]; lia].
    eapply NoDup_lookup; [apply (sorted_children_NoDup_fst s (parent_id x))|..];
      rewrite list_lookup_fmap; [by rewrite Hidx|by rewrite Hidx']. }
  exists i, x, idx, idx', j, y. split; [done|].
  split; [by apply swap_find_item|].
  rewrite (swap_sorted_children s i j x y Hi Hj Hij Hp Hd).
  rewrite !list_lookup_fmap, Hidx, Hidx'. simpl.
  rewrite swap_moved_first, swap_moved_second by done.
  split_and!; [done..|]. by apply swap_back.
Qed.

Lemma reorder_item_undo s k s' :
  orders_distinct s →
  (reorder_item s k "UP" = (true, s') →
   reorder_item s' k "DOWN" = (true, s))
  ∧ (reorder_item s k "DOWN" = (true, s') →
     reorder_item s' k "UP" = (true, s)).
Proof.
  intros Hd. split; intros Hre;
    destruct (reorder_item_after _ _ _ _ Hd Hre)
      as (i & x & idx & idx' & j & y & Hdir & Hfind & Hidx' & Hidx & Hback);
    destruct Hdir as [[Hdir ->]|[Hdir ->]]; try done.
  - rewrite <-Hback.
    by eapply (reorder_item_down s' k i _ idx' j).
  - rewrite <-Hback.
    by eapply (reorder_item_up s' k i _ idx j).
Qed.

(** X15. On a store whose siblings all carry different orders, moving an
    item up and then down again, or down and then up again, is accepted both
    times and gives back the store exactly as it was. *)
Theorem reorder_item_round_trip :
  ∀ s k s',
    orders_distinct s →
    (reorder_item s k "UP" = (true, s') →
     reorder_item s' k "DOWN" = (true, s))
    ∧ (reorder_item s k "DOWN" = (true, s') →
       reorder_item s' k "UP" = (true, s)).
Proof. intros s k s'. apply reorder_item_undo. Qed.

Lemma reorder_item_round_trip_witness :
  let s := (add_item (add_item empty_manager "A" (-1)).2 "B" (-1)).2 in
  let s' := (reorder_item s 1 "UP").2 in
  orders_distinct s
  ∧ reorder_item s 1 "UP" = (true, s')
  ∧ reorder_item s' 1 "DOWN" = (true, s).
Proof.
  intros s s'.
  assert (orders_distinct s) as Hd.
  { apply reachable_orders.
    eapply (reachable_step _ (OpAdd "B" (-1)) 0); [|reflexivity].
    eapply (reachable_step _ (OpAdd "A" (-1)) 0); [constructor|reflexivity]. }
  assert (reorder_item s 1 "UP" = (true, s')) as Hup by reflexivity.
  split_and!; [done..|].
  by apply (proj1 (reorder_item_round_trip s 1 s' Hd)).
Defined.

(** ** The operators *)

(** The traversal reads the items only. *)
Lemma collect_items_same_items fuel s s' q level :
  items s = items s' →
  collect_items fuel s q level = collect_items fuel s' q level.
Proof.
  intros Hitems. revert q level.
  induction fuel as [|fuel IH]; intros q level; [done|].
  rewrite !collect_items_S.
  assert (sorted_children s q = sorted_children s' q) as ->.
  { unfold sorted_children, children_of. by rewrite Hitems. }
  apply collect_group_ext. intros x _. apply IH.
Qed.

Lemma flatten_hierarchy_same_items fuel s s' :
  items s = items s' → flatten_hierarchy fuel s = flatten_hierarchy fuel s'.
Proof. apply collect_items_same_items. Qed.

Lemma select_item_items s l k : items (select_item s l k) = items s.
Proof. unfold select_item. by destruct (list_find _ _) as [[? ?]|]. Qed.

Lemma select_item_next_id s l k : next_id (select_item s l k) = next_id s.
Proof. unfold select_item. by destruct (list_find _ _) as [[? ?]|]. Qed.

(** The cursor set by the [for ... break] loop points at the listed item
    with the id, when there is one. *)
Lemma select_item_cursor fuel s l k x d :
  flatten_hierarchy fuel s = Some l → (x, d) ∈ l → id x = k →
  ∃ i,
    select_item s l k = with_active_index s (Z.of_nat i)
    ∧ (i < length l)%nat
    ∧ (∀ j e, l !! j = Some e → (j < i)%nat → id e.1 ≠ k)
    ∧ get_id_from_flattened_index fuel (select_item s l k)
        (active_index (select_item s l k)) = Some k.
Proof.
  intros Hl Hx Hk. unfold select_item.
  destruct (list_find (λ e, id e.1 = k) l) as [[i [x' d']]|] eqn:Hfind.
  - apply (list_find_Some (λ e, id e.1 = k)) in Hfind as (Hi & Hid & Hfirst).
    exists i. apply lookup_lt_Some in Hi as Hlt.
    split_and!; [done..| |].
    + intros j e Hj Hji. by apply (Hfirst j).
    + rewrite (get_id_from_flattened_index_Some fuel _ l).
      * simpl. rewrite bool_decide_eq_true_2 by lia.
        rewrite Nat2Z.id, Hi. simpl in *. by rewrite Hid.
      * rewrite <-Hl. by apply flatten_hierarchy_same_items.
  - apply (list_find_None (λ e, id e.1 = k)) in Hfind.
    rewrite Forall_forall in Hfind. by destruct (Hfind (x, d) Hx).
Qed.

Lemma add_item_well_formed s nm p :
  well_formed s → well_formed (add_item s nm p).2.
Proof.
  intros Hwf. by apply (run_op_well_formed 0 s (OpAdd nm p) (Some (add_item s nm p).1)).
Qed.

(** X16. On a well-formed store the add operator, given one more nested
    call than there are items after the addition, finishes: it appends a
    top-level item named after the id counter, and leaves the cursor on
    the position at which the traversal lists the new item. *)
Theorem NLM_OT_AddItem_execute_selects_new fuel s :
  well_formed s → (S (length (items s)) < fuel)%nat →
  ∃ s' new l,
    NLM_OT_AddItem_execute fuel s = Some (FINISHED, s')
    ∧ items s' = items s ++ [new]
    ∧ id new = next_id s ∧ parent_id new = -1
    ∧ name new = "Item " +:+ pretty (next_id s)
    ∧ next_id s' = next_id s + 1
    ∧ flatten_hierarchy fuel s' = Some l
    ∧ 0 ≤ active_index s' < Z.of_nat (length l)
    ∧ l !! Z.to_nat (active_index s') = Some (new, 0)
    ∧ get_id_from_flattened_index fuel s' (active_index s')
      = Some (next_id s).
Proof.
  intros Hwf Hfuel. unfold NLM_OT_AddItem_execute. cbv zeta.
  rewrite add_item_id.
  set (nm := "Item " +:+ pretty (next_id s)).
  pose proof (add_item_well_formed s nm (-1) Hwf) as Hwf1.
  set (s1 := (add_item s nm (-1)).2) in *.
  assert (∃ new, items s1 = items s ++ [new] ∧ id new = next_id s
                 ∧ parent_id new = -1 ∧ name new = nm)
    as (new & Hitems & Hid & Hparent & Hname).
  { unfold s1. rewrite add_item_eq. simpl. by eexists. }
  destruct (flatten_hierarchy_terminates s1 Hwf1) as [l Hl].
  apply (flatten_hierarchy_mono _ fuel) in Hl;
    [|rewrite Hitems, length_app; simpl; lia].
  rewrite Hl.
  assert ((new, 0) ∈ l) as Hnew.
  { apply (flatten_hierarchy_listed fuel s1 l new 0 Hwf1 Hl).
    split; [rewrite Hitems, elem_of_app, list_elem_of_singleton; by right|].
    exists 0%nat. split; [done|]. by apply depth_root. }
  destruct (select_item_cursor fuel s1 l (next_id s) new 0 Hl Hnew Hid)
    as (i & Hsel & Hi & Hfirst & Hcursor).
  exists (select_item s1 l (next_id s)), new, l.
  rewrite select_item_items, select_item_next_id.
  assert (flatten_hierarchy fuel (select_item s1 l (next_id s)) = Some l)
    as Hl'.
  { rewrite <-Hl. apply flatten_hierarchy_same_items, select_item_items. }
  do 5 (split; [done|]). split; [apply add_item_next_id|].
  split; [done|]. rewrite Hsel in Hcursor |- *. simpl in *.
  split; [lia|]. split; [|done].
  rewrite Nat2Z.id.
  destruct (lookup_lt_is_Some_2 l i Hi) as [[x d] Hx].
  rewrite Hx. f_equal.
  assert (id x = next_id s) as Hidx.
  { revert Hcursor.
    rewrite (get_id_from_flattened_index_Some fuel _ l)
      by (rewrite <-Hl; by apply flatten_hierarchy_same_items).
    simpl. rewrite bool_decide_eq_true_2 by lia.
    rewrite Nat2Z.id, Hx. simpl. by intros [= ?]. }
  assert ((x, d) ∈ l) as Hxl by by eapply list_elem_of_lookup_2.
  pose proof (flatten_hierarchy_NoDup_ids fuel s1 l Hwf1 Hl) as Hnd.
  rewrite <-list_fmap_compose in Hnd.
  apply (NoDup_fmap_eq (id ∘ fst) l (x, d) (new, 0) Hnd Hxl Hnew).
  simpl. congruence.
Qed.

Lemma NLM_OT_AddItem_execute_selects_new_witness :
  let s := (add_item (add_item empty_manager "A" (-1)).2 "B" 0).2 in
  ∃ s' new l,
    NLM_OT_AddItem_execute 4 s = Some (FINISHED, s')
    ∧ items s' = items s ++ [new]
    ∧ id new = next_id s ∧ parent_id new = -1
    ∧ name new = "Item " +:+ pretty (next_id s)
    ∧ next_id s' = next_id s + 1
    ∧ flatten_hierarchy 4 s' = Some l
    ∧ 0 ≤ active_index s' < Z.of_nat (length l)
    ∧ l !! Z.to_nat (active_index s') = Some (new, 0)
    ∧ get_id_from_flattened_index 4 s' (active_index s')
      = Some (next_id s).
Proof.
  intros s. apply (NLM_OT_AddItem_execute_selects_new 4 s); [|simpl; lia].
  apply reachable_well_formed.
  eapply (reachable_step _ (OpAdd "B" 0) 0); [|reflexivity].
  eapply (reachable_step _ (OpAdd "A" (-1)) 0); [constructor|reflexivity].
Defined.

(** ** Removing the item under the cursor *)

Lemma elem_of_delete_ne (l : list NestedListItem) i x y :
  l !! i = Some x → y ∈ l → id y ≠ id x → y ∈ delete i l.
Proof.
  intros Hi [j Hj]%list_elem_of_lookup_1 Hne.
  assert (j ≠ i) as Hji by (intros ->; congruence).
  destruct (decide (j < i)%nat).
  - apply (list_elem_of_lookup_2 _ j). by rewrite list_lookup_delete_lt.
  - apply (list_elem_of_lookup_2 _ (pred j)).
    rewrite list_lookup_delete_ge by lia.
    by replace (S (pred j)) with j by lia.
Qed.

Lemma elem_of_delete_id (l : list NestedListItem) i x y :
  NoDup (id <$> l) → l !! i = Some x → y ∈ delete i l → id y ≠ id x.
Proof.
  intros Hnd Hi [j Hj]%list_elem_of_lookup_1 Hid.
  rewrite list_lookup_delete in Hj.
  assert (∀ j', l !! j' = Some y → j' = i) as Hsame.
  { intros j' Hj'. eapply NoDup_lookup; [exact Hnd|..];
      rewrite list_lookup_fmap; [by rewrite Hj'|].
    rewrite Hi. simpl. by rewrite Hid. }
  case_decide; apply Hsame in Hj; lia.
Qed.

Lemma remove_index_well_formed s i s' :
  well_formed s → remove_index s i = Some s' → well_formed s'.
Proof.
  intros Hwf Hrm.
  apply (run_op_well_formed 0 s (OpRemove i) None s' Hwf).
  simpl. by rewrite Hrm.
Qed.

Lemma NLM_OT_RemoveItem_execute_out fuel s l :
  flatten_hierarchy fuel s = Some l →
  active_index s < 0 ∨ Z.of_nat (length l) ≤ active_index s →
  NLM_OT_RemoveItem_execute fuel s = Some (CANCELLED, s).
Proof.
  intros Hl Hout. unfold NLM_OT_RemoveItem_execute.
  rewrite (get_id_from_flattened_index_Some fuel s l _ Hl).
  by rewrite (bool_decide_eq_false_2 (_ ∧ _)) by lia.
Qed.

Lemma NLM_OT_RemoveItem_execute_in fuel s l x d i :
  well_formed s → flatten_hierarchy fuel s = Some l →
  0 ≤ active_index s →
  l !! Z.to_nat (active_index s) = Some (x, d) →
  items s !! i = Some x →
  NLM_OT_RemoveItem_execute fuel s =
  match flatten_hierarchy fuel (with_items s (delete i (items s))) with
  | None => None
  | Some l' =>
      Some (FINISHED,
            with_active_index (with_items s (delete i (items s)))
              (Z.min (active_index s) (Z.of_nat (length l') - 1)))
  end.
Proof.
  intros Hwf Hl Hpos Hx Hi. unfold NLM_OT_RemoveItem_execute.
  apply lookup_lt_Some in Hx as Hlt. apply lookup_lt_Some in Hi as Hlen.
  rewrite (get_id_from_flattened_index_Some fuel s l _ Hl).
  rewrite (bool_decide_eq_true_2 (_ ∧ _)) by lia. rewrite Hx. simpl.
  assert (0 ≤ id x).
  { apply (wf_range s Hwf x). by eapply list_elem_of_lookup_2. }
  rewrite bool_decide_eq_true_2 by lia.
  rewrite (get_collection_index_from_id_Some s (id x) i x)
    by (apply find_item_unique; [apply Hwf|done]).
  rewrite bool_decide_eq_true_2 by lia. rewrite Nat2Z.id.
  unfold remove_index. by rewrite bool_decide_eq_true_2 by done.
Qed.

(** X17. On a well-formed store the remove operator returns when given
    more nested calls than there are items.  It is cancelled, and the
    store untouched, exactly when the cursor is outside the listing.
    Otherwise it deletes the slot of the listed item the cursor points at,
    and nothing else: the id is no longer found, the id counter keeps its
    value, and the cursor stays where it was unless the listing got
    shorter than that, in which case it moves to the listing's last
    position, or to -1 when nothing is listed. *)
Theorem NLM_OT_RemoveItem_execute_removes_selected fuel s :
  well_formed s →
  ((length (items s) < fuel)%nat →
   is_Some (NLM_OT_RemoveItem_execute fuel s))
  ∧ ∀ st s',
      NLM_OT_RemoveItem_execute fuel s = Some (st, s') →
      ∃ l,
        flatten_hierarchy fuel s = Some l
        ∧ (st = CANCELLED ↔
           active_index s < 0 ∨ Z.of_nat (length l) ≤ active_index s)
        ∧ (st = CANCELLED → s' = s)
        ∧ (st = FINISHED →
           ∃ i x d l',
             l !! Z.to_nat (active_index s) = Some (x, d)
             ∧ items s !! i = Some x
             ∧ items s' = delete i (items s)
             ∧ next_id s' = next_id s
             ∧ get_item_by_id s' (id x) = None
             ∧ get_collection_index_from_id s' (id x) = -1
             ∧ well_formed s'
             ∧ flatten_hierarchy fuel s' = Some l'
             ∧ active_index s'
               = Z.min (active_index s) (Z.of_nat (length l') - 1)
             ∧ -1 ≤ active_index s' < Z.of_nat (length l')).
Proof.
  intros Hwf.
  assert (∀ l, flatten_hierarchy fuel s = Some l →
            0 ≤ active_index s < Z.of_nat (length l) →
            ∃ i x d,
              l !! Z.to_nat (active_index s) = Some (x, d)
              ∧ items s !! i = Some x) as Hin.
  { intros l Hl Hr.
    destruct (lookup_lt_is_Some_2 l (Z.to_nat (active_index s)))
      as [[x d] Hx]; [lia|].
    assert (x ∈ items s) as [i Hi]%list_elem_of_lookup_1.
    { eapply flatten_hierarchy_elem_items; [done|].
      by eapply list_elem_of_lookup_2. }
    by exists i, x, d. }
  split.
  - intros Hfuel.
    destruct (flatten_hierarchy_terminates s Hwf) as [l Hl].
    apply (flatten_hierarchy_mono _ fuel) in Hl; [|lia].
    destruct (decide (0 ≤ active_index s < Z.of_nat (length l))) as [Hr|Hr].
    + destruct (Hin l Hl Hr) as (i & x & d & Hx & Hi).
      rewrite (NLM_OT_RemoveItem_execute_in fuel s l x d i)
        by (done || lia).
      set (s1 := with_items s (delete i (items s))).
      assert (well_formed s1) as Hwf1.
      { apply (remove_index_well_formed s i); [done|].
        apply lookup_lt_Some in Hi. unfold remove_index.
        by rewrite bool_decide_eq_true_2. }
      destruct (flatten_hierarchy_terminates s1 Hwf1) as [l' Hl'].
      apply (flatten_hierarchy_mono _ fuel) in Hl'.
      * by rewrite Hl'.
      * unfold s1. simpl. rewrite length_delete by by eexists. lia.
    + rewrite (NLM_OT_RemoveItem_execute_out fuel s l) by (done || lia).
      done.
  - intros st s' Hex.
    destruct (flatten_hierarchy fuel s) as [l|] eqn:Hl.
    2:{ revert Hex. unfold NLM_OT_RemoveItem_execute.
        unfold get_id_from_flattened_index. by rewrite Hl. }
    exists l. split; [done|].
    destruct (decide (0 ≤ active_index s < Z.of_nat (length l))) as [Hr|Hr].
    + destruct (Hin l eq_refl Hr) as (i & x & d & Hx & Hi).
      rewrite (NLM_OT_RemoveItem_execute_in fuel s l x d i) in Hex
        by (done || lia).
      set (s1 := with_items s (delete i (items s))) in *.
      destruct (flatten_hierarchy fuel s1) as [l'|] eqn:Hl'; [|done].
      injection Hex as <- <-.
      split; [split; [done|lia]|]. split; [done|]. intros _.
      assert (well_formed s1) as Hwf1.
      { apply (remove_index_well_formed s i); [done|].
        apply lookup_lt_Some in Hi. unfold remove_index.
        by rewrite bool_decide_eq_true_2. }
      assert (find_item s1 (id x) = None) as Hgone.
      { apply find_item_None. intros y Hy.
        by apply (elem_of_delete_id (items s) i x y (wf_NoDup s Hwf)). }
      exists i, x, d, l'. simpl.
      split_and!; [done..| | | | | |lia|lia].
      * unfold get_item_by_id. simpl.
        change (snd <$> find_item s1 (id x) = None). by rewrite Hgone.
      * unfold get_collection_index_from_id.
        change (match find_item s1 (id x) with
                | Some (i0, _) => Z.of_nat i0 | None => -1 end = -1).
        by rewrite Hgone.
      * split; apply Hwf1.
      * rewrite <-Hl'. by apply flatten_hierarchy_same_items.
      * done.
    + rewrite (NLM_OT_RemoveItem_execute_out fuel s l) in Hex
        by (done || lia).
      injection Hex as <- <-.
      split; [split; [lia|done]|]. split; [done|]. done.
Qed.

Lemma NLM_OT_RemoveItem_execute_removes_selected_witness :
  let s :=
    with_active_index
      (add_item (add_item empty_manager "A" (-1)).2 "B" (-1)).2 1 in
  is_Some (NLM_OT_RemoveItem_execute 3 s)
  ∧ ∀ st s',
      NLM_OT_RemoveItem_execute 3 s = Some (st, s') →
      ∃ l,
        flatten_hierarchy 3 s = Some l
        ∧ (st = CANCELLED ↔
           active_index s < 0 ∨ Z.of_nat (length l) ≤ active_index s)
        ∧ (st = CANCELLED → s' = s)
        ∧ (st = FINISHED →
           ∃ i x d l',
             l !! Z.to_nat (active_index s) = Some (x, d)
             ∧ items s !! i = Some x
             ∧ items s' = delete i (items s)
             ∧ next_id s' = next_id s
             ∧ get_item_by_id s' (id x) = None
             ∧ get_collection_index_from_id s' (id x) = -1
             ∧ well_formed s'
             ∧ flatten_hierarchy 3 s' = Some l'
             ∧ active_index s'
               = Z.min (active_index s) (Z.of_nat (length l') - 1)
             ∧ -1 ≤ active_index s' < Z.of_nat (length l')).
Proof.
  intros s.
  assert (well_formed s) as Hwf.
  { assert (well_formed
              (add_item (add_item empty_manager "A" (-1)).2 "B" (-1)).2)
      as [? ? ?]; [|by split].
    apply reachable_well_formed.
    eapply (reachable_step _ (OpAdd "B" (-1)) 0); [|reflexivity].
    eapply (reachable_step _ (OpAdd "A" (-1)) 0); [constructor|reflexivity]. }
  split.
  - apply (proj1 (NLM_OT_RemoveItem_execute_removes_selected 3 s Hwf)).
    simpl. lia.
  - apply (proj2 (NLM_OT_RemoveItem_execute_removes_selected 3 s Hwf)).
Defined.

Lemma NLM_OT_RemoveItem_execute_finished fuel s s' :
  well_formed s →
  NLM_OT_RemoveItem_execute fuel s = Some (FINISHED, s') →
  ∃ l i x d l',
    flatten_hierarchy fuel s = Some l
    ∧ l !! Z.to_nat (active_index s) = Some (x, d)
    ∧ items s !! i = Some x
    ∧ items s' = delete i (items s)
    ∧ next_id s' = next_id s
    ∧ flatten_hierarchy fuel s' = Some l'.
Proof.
  intros Hwf Hex.
  destruct (flatten_hierarchy fuel s) as [l|] eqn:Hl.
  2:{ revert Hex. unfold NLM_OT_RemoveItem_execute.
      unfold get_id_from_flattened_index. by rewrite Hl. }
  destruct (decide (0 ≤ active_index s < Z.of_nat (length l))) as [Hr|Hr].
  - destruct (lookup_lt_is_Some_2 l (Z.to_nat (active_index s)))
      as [[x d] Hx]; [lia|].
    assert (x ∈ items s) as [i Hi]%list_elem_of_lookup_1.
    { eapply flatten_hierarchy_elem_items; [done|].
      by eapply list_elem_of_lookup_2. }
    rewrite (NLM_OT_RemoveItem_execute_in fuel s l x d i) in Hex
      by (done || lia).
    destruct (flatten_hierarchy fuel _) as [l'|] eqn:Hl' in Hex; [|done].
    injection Hex as <-. exists l, i, x, d, l'. simpl.
    split_and!; try done.
    rewrite <-Hl'. by apply flatten_hierarchy_same_items.
  - by rewrite (NLM_OT_RemoveItem_execute_out fuel s l) in Hex
      by (done || lia).
Qed.

(** An item below [x] lies deeper than [x], by the length of the way up
    to it. *)
Lemma hangs_depth_above s x n y m :
  well_formed s → x ∈ items s →
  hangs s (id x) n y → depth_in s m y →
  ∃ m', m = (n + 1 + m')%nat ∧ depth_in s m' x.
Proof.
  intros Hwf Hx Hn. revert m.
  induction Hn as [y Hp|n y z Hz Hid Hn IH]; intros m Hm.
  - destruct Hm as [y Hroot|m y z Hne Hz Hid Hm].
    + apply (wf_range s Hwf) in Hx. lia.
    + exists m. split; [lia|].
      by rewrite (NoDup_fmap_eq id (items s) x z (wf_NoDup s Hwf) Hx Hz)
        by congruence.
  - destruct Hm as [y Hroot|m y z' Hne Hz' Hid' Hm].
    + apply (wf_range s Hwf) in Hz. lia.
    + rewrite <-(NoDup_fmap_eq id (items s) z z' (wf_NoDup s Hwf) Hz Hz')
        in Hm by congruence.
      destruct (IH m Hm) as (m' & -> & Hm'). exists m'. split; [lia|done].
Qed.

(** Once no item carries the id [k], nothing that hung below [k] leads to
    the sentinel. *)
Lemma hangs_cut_off s s' k n y :
  well_formed s →
  (∀ z, z ∈ items s' → z ∈ items s) →
  (∀ z, z ∈ items s' → id z ≠ k) → k ≠ -1 →
  hangs s k n y → ∀ m, ¬ depth_in s' m y.
Proof.
  intros Hwf Hsub Hgone Hk.
  induction 1 as [y Hp|n y z Hz Hid Hn IH]; intros m Hm.
  - destruct Hm as [y Hroot|m y z Hne Hz Hid Hm]; [congruence|].
    apply (Hgone z Hz). congruence.
  - destruct Hm as [y Hroot|m y z' Hne Hz' Hid' Hm].
    + apply (wf_range s Hwf) in Hz. lia.
    + apply (IH m).
      by rewrite (NoDup_fmap_eq id (items s) z z' (wf_NoDup s Hwf) Hz
                    (Hsub z' Hz')) by congruence.
Qed.

(** What does not hang below [x] keeps its way to the sentinel when [x]
    goes. *)
Lemma depth_in_kept s s' x n y :
  (∀ z, z ∈ items s → id z ≠ id x → z ∈ items s') →
  depth_in s n y → (∀ m, ¬ hangs s (id x) m y) → depth_in s' n y.
Proof.
  intros Hkept. induction 1 as [y Hroot|n y z Hne Hz Hid Hn IH]; intros Hno.
  - by apply depth_root.
  - apply (depth_child s' n y z); [done| |done|].
    + apply Hkept; [done|]. intros Hzx. apply (Hno 0%nat).
      apply hangs_child. congruence.
    + apply IH. intros m Hm. apply (Hno (S m)).
      by apply (hangs_below s (id x) m y z).
Qed.

(** X18. When the remove operator finishes, only the item under the
    cursor leaves the store, but its whole subtree leaves the listing:
    every item below it stays stored and is no longer listed at any
    level, and everything else that was listed is still listed, at the
    level it had. *)
Theorem NLM_OT_RemoveItem_execute_drops_subtree fuel s s' :
  well_formed s →
  NLM_OT_RemoveItem_execute fuel s = Some (FINISHED, s') →
  ∃ l l' x d,
    flatten_hierarchy fuel s = Some l
    ∧ flatten_hierarchy fuel s' = Some l'
    ∧ l !! Z.to_nat (active_index s) = Some (x, d)
    ∧ (∀ y, y ∈ items s' ↔ y ∈ items s ∧ y ≠ x)
    ∧ (∀ y n e,
         y ∈ items s → hangs s (id x) n y → y ∈ items s' ∧ (y, e) ∉ l')
    ∧ (∀ y e,
         (y, e) ∈ l' ↔
         (y, e) ∈ l ∧ y ≠ x ∧ ∀ n, ¬ hangs s (id x) n y).
Proof.
  intros Hwf Hex.
  destruct (NLM_OT_RemoveItem_execute_finished fuel s s' Hwf Hex)
    as (l & i & x & d & l' & Hl & Hx & Hi & Hitems & Hnext & Hl').
  pose proof (wf_NoDup s Hwf) as Hnd.
  assert (x ∈ items s) as Hxs by by eapply list_elem_of_lookup_2.
  assert ((x, d) ∈ l) as Hxl by by eapply list_elem_of_lookup_2.
  assert (∀ y, y ∈ items s' ↔ y ∈ items s ∧ y ≠ x) as Hstored.
  { intros y. rewrite Hitems. split.
    - intros Hy. split; [by eapply list_elem_of_delete_inv|].
      intros ->. by apply (elem_of_delete_id (items s) i x x Hnd Hi). 
    - intros [Hy Hne]. apply (elem_of_delete_ne _ i x); [done..|].
      intros Hid. apply Hne. by apply (NoDup_fmap_eq id (items s)). }
  assert (∀ y, y ∈ items s' → id y ≠ id x) as Hgone.
  { intros y. rewrite Hitems.
    by apply (elem_of_delete_id (items s) i x y Hnd Hi). }
  assert (well_formed s') as Hwf'.
  { split.
    - rewrite Hitems, list_fmap_delete.
      eapply sublist_NoDup; [exact Hnd|apply sublist_delete].
    - intros y Hy. rewrite Hnext. apply (wf_range s Hwf).
      by apply Hstored.
    - rewrite Hnext. apply Hwf. }
  apply (flatten_hierarchy_listed fuel s l x d Hwf Hl) in Hxl
    as (_ & nx & -> & Hnx).
  assert (∀ y n, y ∈ items s → hangs s (id x) n y → y ≠ x) as Hbelow.
  { intros y n Hy Hn ->.
    destruct (hangs_depth_above s x n x nx Hwf Hxs Hn Hnx) as (m' & -> & Hm').
    pose proof (depth_in_fun s Hnd _ _ x Hnx Hm'). lia. }
  assert (∀ y n m, hangs s (id x) n y → ¬ depth_in s' m y) as Hcut.
  { intros y n m Hn. apply (hangs_cut_off s s' (id x) n y); try done.
    - intros z Hz. by apply Hstored.
    - apply (wf_range s Hwf) in Hxs. lia. }
  exists l, l', x, (Z.of_nat nx). split_and!; [done..| |].
  - intros y n e Hy Hn. split; [apply Hstored; eauto|].
    intros (_ & m & _ & Hm)%(flatten_hierarchy_listed fuel s' l' y e Hwf' Hl').
    by apply (Hcut y n m).
  - intros y e.
    rewrite (flatten_hierarchy_listed fuel s' l' y e Hwf' Hl').
    rewrite (flatten_hierarchy_listed fuel s l y e Hwf Hl).
    split.
    + intros (Hy & n & -> & Hn). apply Hstored in Hy as Hy'.
      destruct Hy' as [Hys Hne]. split_and!; [done| |done|].
      * exists n. split; [done|].
        apply (depth_in_transfer s' s); [|done].
        intros z Hz. exists z. split; [by apply Hstored|done].
      * intros m Hm. by apply (Hcut y m n).
    + intros ((Hy & n & -> & Hn) & Hne & Hno).
      split; [by apply Hstored|]. exists n. split; [done|].
      apply (depth_in_kept s s' x); [|done..].
      intros z Hz Hzx. apply Hstored. split; [done|congruence].
Qed.

Lemma NLM_OT_RemoveItem_execute_drops_subtree_witness :
  let s :=
    with_active_index
      (add_item (add_item (add_item empty_manager "A" (-1)).2 "B" 0).2
         "C" (-1)).2 0 in
  let s' := {| items := [{| id := 1; name := "B"; parent_id := 0; order := 1 |};
                         {| id := 2; name := "C"; parent_id := -1; order := 2 |}];
               active_index := 0; next_id := 3 |} in
  NLM_OT_RemoveItem_execute 4 s = Some (FINISHED, s')
  ∧ ∃ l l' x d,
      flatten_hierarchy 4 s = Some l
      ∧ flatten_hierarchy 4 s' = Some l'
      ∧ l !! Z.to_nat (active_index s) = Some (x, d)
      ∧ (∀ y, y ∈ items s' ↔ y ∈ items s ∧ y ≠ x)
      ∧ (∀ y n e,
           y ∈ items s → hangs s (id x) n y → y ∈ items s' ∧ (y, e) ∉ l')
      ∧ (∀ y e,
           (y, e) ∈ l' ↔
           (y, e) ∈ l ∧ y ≠ x ∧ ∀ n, ¬ hangs s (id x) n y).
Proof.
  intros s s'.
  assert (NLM_OT_RemoveItem_execute 4 s = Some (FINISHED, s')) as Hex
    by reflexivity.
  split; [done|].
  apply (NLM_OT_RemoveItem_execute_drops_subtree 4 s s'); [|done].
  assert (well_formed
            (add_item (add_item (add_item empty_manager "A" (-1)).2 "B" 0).2
               "C" (-1)).2) as [? ? ?]; [|by split].
  apply reachable_well_formed.
  eapply (reachable_step _ (OpAdd "C" (-1)) 0); [|reflexivity].
  eapply (reachable_step _ (OpAdd "B" 0) 0); [|reflexivity].
  eapply (reachable_step _ (OpAdd "A" (-1)) 0); [constructor|reflexivity].
Defined.

(** ** Moving the item under the cursor up and down *)

Lemma with_active_index_same s : with_active_index s (active_index s) = s.
Proof. by destruct s. Qed.

(** [reorder_item] neither reads nor writes the cursor. *)
Lemma reorder_item_with_active_index s n k direction :
  reorder_item (with_active_index s n) k direction
  = ((reorder_item s k direction).1,
     with_active_index (reorder_item s k direction).2 n).
Proof.
  unfold reorder_item.
  change (find_item (with_active_index s n) k) with (find_item s k).
  destruct (find_item s k) as [[i x]|]; [|done].
  change (sorted_children (with_active_index s n) (parent_id x))
    with (sorted_children s (parent_id x)).
  destruct (index_of_slot _ _) as [idx|]; [|done].
  destruct (_ && _); [by destruct (_ !! _)|].
  destruct (_ && _); [by destruct (_ !! _)|done].
Qed.

Lemma select_item_unique fuel s l k x d i :
  well_formed s → flatten_hierarchy fuel s = Some l →
  l !! i = Some (x, d) → id x = k →
  select_item s l k = with_active_index s (Z.of_nat i).
Proof.
  intros Hwf Hl Hi Hk. unfold select_item.
  destruct (list_find (λ e, id e.1 = k) l) as [[j [x' d']]|] eqn:Hfind.
  - apply (list_find_Some (λ e, id e.1 = k)) in Hfind as (Hj & Hid & _).
    simpl in Hid. do 2 f_equal.
    pose proof (flatten_hierarchy_NoDup_ids fuel s l Hwf Hl) as Hnd.
    eapply NoDup_lookup; [exact Hnd|..]; rewrite !list_lookup_fmap.
    + by rewrite Hj.
    + rewrite Hi. simpl. congruence.
  - apply (list_find_None (λ e, id e.1 = k)) in Hfind.
    rewrite Forall_forall in Hfind.
    destruct (Hfind (x, d)); [by eapply list_elem_of_lookup_2|done].
Qed.

Lemma reorder_execute_out direction fuel s l :
  flatten_hierarchy fuel s = Some l →
  active_index s < 0 ∨ Z.of_nat (length l) ≤ active_index s →
  reorder_execute direction fuel s = Some (CANCELLED, s).
Proof.
  intros Hl Hout. unfold reorder_execute.
  rewrite (get_id_from_flattened_index_Some fuel s l _ Hl).
  by rewrite (bool_decide_eq_false_2 (_ ∧ _)) by lia.
Qed.

Lemma reorder_execute_in direction fuel s l x d :
  well_formed s → flatten_hierarchy fuel s = Some l →
  0 ≤ active_index s →
  l !! Z.to_nat (active_index s) = Some (x, d) →
  reorder_execute direction fuel s =
  match reorder_item s (id x) direction with
  | (true, s') =>
      match flatten_hierarchy fuel s' with
      | None => None
      | Some flattened => Some (FINISHED, select_item s' flattened (id x))
      end
  | (false, s') => Some (CANCELLED, s')
  end.
Proof.
  intros Hwf Hl Hpos Hx. unfold reorder_execute.
  apply lookup_lt_Some in Hx as Hlt.
  rewrite (get_id_from_flattened_index_Some fuel s l _ Hl).
  rewrite (bool_decide_eq_true_2 (_ ∧ _)) by lia. rewrite Hx. simpl.
  assert (0 ≤ id x).
  { apply (wf_range s Hwf x).
    eapply flatten_hierarchy_elem_items; [done|].
    by eapply list_elem_of_lookup_2. }
  by rewrite bool_decide_eq_true_2 by lia.
Qed.

(** The item stays listed when its order is exchanged. *)
Lemma reorder_item_still_listed s k direction fuel fuel' l l' x d :
  well_formed s →
  flatten_hierarchy fuel s = Some l →
  flatten_hierarchy fuel' (reorder_item s k direction).2 = Some l' →
  (x, d) ∈ l → ∃ x', (x', d) ∈ l' ∧ id x' = id x.
Proof.
  intros Hwf Hl Hl' Hx.
  pose proof (same_parents_listing s (reorder_item s k direction).2
                fuel fuel' l l' Hwf (reorder_item_well_formed s k direction Hwf)
                (eq_sym (reorder_item_parents s k direction)) Hl Hl') as Hperm.
  apply (list_elem_of_fmap_2 (λ e, (id e.1, e.2))) in Hx.
  rewrite <-Hperm in Hx.
  apply list_elem_of_fmap in Hx as ([x' d'] & [= Hid ->] & Hx').
  by exists x'.
Qed.

Lemma reorder_execute_finished direction fuel s s' :
  well_formed s →
  reorder_execute direction fuel s = Some (FINISHED, s') →
  ∃ l x d sr l',
    flatten_hierarchy fuel s = Some l
    ∧ 0 ≤ active_index s
    ∧ l !! Z.to_nat (active_index s) = Some (x, d)
    ∧ reorder_item s (id x) direction = (true, sr)
    ∧ flatten_hierarchy fuel sr = Some l'
    ∧ s' = select_item sr l' (id x).
Proof.
  intros Hwf Hex.
  destruct (flatten_hierarchy fuel s) as [l|] eqn:Hl.
  2:{ revert Hex. unfold reorder_execute.
      unfold get_id_from_flattened_index. by rewrite Hl. }
  destruct (decide (0 ≤ active_index s < Z.of_nat (length l))) as [Hr|Hr].
  - destruct (lookup_lt_is_Some_2 l (Z.to_nat (active_index s)))
      as [[x d] Hx]; [lia|].
    rewrite (reorder_execute_in direction fuel s l x d) in Hex
      by (done || lia).
    destruct (reorder_item s (id x) direction) as [[] sr] eqn:Hre; [|done].
    destruct (flatten_hierarchy fuel sr) as [l'|] eqn:Hl'; [|done].
    injection Hex as <-. exists l, x, d, sr, l'.
    split_and!; [done|lia|done..].
  - by rewrite (reorder_execute_out direction fuel s l) in Hex
      by (done || lia).
Qed.

(** X19. The move-up and move-down operators, on a well-formed store:
    each returns when given more nested calls than there are items; it is
    cancelled, with the store untouched, exactly when the cursor is
    outside the listing or [reorder_item] rejects the move; when it
    finishes, the store holds what [reorder_item] made of it and the
    cursor has followed the item: it points at the position where the
    traversal now lists the id it pointed at before. *)
Theorem NLM_OT_MoveUp_MoveDown_execute_follow fuel s direction execute :
  direction = "UP" ∧ execute = NLM_OT_MoveUp_execute
  ∨ direction = "DOWN" ∧ execute = NLM_OT_MoveDown_execute →
  well_formed s →
  ((length (items s) < fuel)%nat → is_Some (execute fuel s))
  ∧ ∀ st s',
      execute fuel s = Some (st, s') →
      ∃ k,
        get_id_from_flattened_index fuel s (active_index s) = Some k
        ∧ (st = CANCELLED ↔
           k = -1 ∨ (reorder_item s k direction).1 = false)
        ∧ (st = CANCELLED → s' = s)
        ∧ (st = FINISHED →
           items s' = items (reorder_item s k direction).2
           ∧ next_id s' = next_id s
           ∧ get_id_from_flattened_index fuel s' (active_index s')
             = Some k).
Proof.
  intros Hop Hwf.
  assert (execute = reorder_execute direction) as ->
    by (by destruct Hop as [[-> ->]|[-> ->]]).
  clear Hop. split.
  - intros Hfuel.
    destruct (flatten_hierarchy_terminates s Hwf) as [l Hl].
    apply (flatten_hierarchy_mono _ fuel) in Hl; [|lia].
    destruct (decide (0 ≤ active_index s < Z.of_nat (length l))) as [Hr|Hr].
    + destruct (lookup_lt_is_Some_2 l (Z.to_nat (active_index s)))
        as [[x d] Hx]; [lia|].
      rewrite (reorder_execute_in direction fuel s l x d) by (done || lia).
      pose proof (reorder_item_well_formed s (id x) direction Hwf) as Hwf'.
      pose proof (reorder_item_parents s (id x) direction) as Hsame.
      destruct (reorder_item s (id x) direction) as [[] sr]; [|done].
      destruct (flatten_hierarchy_terminates sr Hwf') as [l' Hl'].
      apply (flatten_hierarchy_mono _ fuel) in Hl'.
      * by rewrite Hl'.
      * simpl in Hsame.
        rewrite <-(length_fmap (λ z, (id z, parent_id z))), Hsame.
        rewrite length_fmap. lia.
    + by rewrite (reorder_execute_out direction fuel s l) by (done || lia).
  - intros st s' Hex.
    destruct (flatten_hierarchy fuel s) as [l|] eqn:Hl.
    2:{ revert Hex. unfold reorder_execute.
        unfold get_id_from_flattened_index. by rewrite Hl. }
    rewrite (get_id_from_flattened_index_Some fuel s l _ Hl).
    destruct (decide (0 ≤ active_index s < Z.of_nat (length l))) as [Hr|Hr].
    + destruct (lookup_lt_is_Some_2 l (Z.to_nat (active_index s)))
        as [[x d] Hx]; [lia|].
      rewrite (reorder_execute_in direction fuel s l x d) in Hex
        by (done || lia).
      rewrite (bool_decide_eq_true_2 (_ ∧ _)) by lia. rewrite Hx. simpl.
      exists (id x). split; [done|].
      assert ((x, d) ∈ l) as Hxl by by eapply list_elem_of_lookup_2.
      assert (0 ≤ id x).
      { apply (wf_range s Hwf x).
        by eapply flatten_hierarchy_elem_items. }
      pose proof (reorder_item_false s (id x) direction) as Hfalse.
      pose proof (reorder_item_ids s (id x) direction) as [_ Hnext].
      destruct (reorder_item s (id x) direction) as [[] sr] eqn:Hre;
        simpl in *.
      * destruct (flatten_hierarchy fuel sr) as [l'|] eqn:Hl'; [|done].
        injection Hex as <- <-.
        split; [split; [done|intros [?|?]; [lia|done]]|].
        split; [done|]. intros _.
        rewrite select_item_items, select_item_next_id.
        split; [done|]. split; [done|].
        destruct (reorder_item_still_listed s (id x) direction fuel fuel
                    l l' x d Hwf Hl) as (x' & Hx' & Hid);
          [by rewrite Hre|done|].
        by destruct (select_item_cursor fuel sr l' (id x) x' d Hl' Hx' Hid)
          as (_ & _ & _ & _ & ?).
      * injection Hex as <- <-.
        split; [split; [by right|done]|].
        split; [intros _; by apply Hfalse|done].
    + rewrite (reorder_execute_out direction fuel s l) in Hex
        by (done || lia).
      injection Hex as <- <-.
      rewrite (bool_decide_eq_false_2 (_ ∧ _)) by lia.
      exists (-1). split; [done|].
      split; [split; [by left|done]|]. split; done.
Qed.

Lemma NLM_OT_MoveUp_MoveDown_execute_follow_witness :
  let s :=
    with_active_index
      (add_item (add_item empty_manager "A" (-1)).2 "B" (-1)).2 1 in
  is_Some (NLM_OT_MoveUp_execute 3 s)
  ∧ ∀ st s',
      NLM_OT_MoveUp_execute 3 s = Some (st, s') →
      ∃ k,
        get_id_from_flattened_index 3 s (active_index s) = Some k
        ∧ (st = CANCELLED ↔ k = -1 ∨ (reorder_item s k "UP").1 = false)
        ∧ (st = CANCELLED → s' = s)
        ∧ (st = FINISHED →
           items s' = items (reorder_item s k "UP").2
           ∧ next_id s' = next_id s
           ∧ get_id_from_flattened_index 3 s' (active_index s') = Some k).
Proof.
  intros s.
  assert (well_formed s) as Hwf.
  { assert (well_formed
              (add_item (add_item empty_manager "A" (-1)).2 "B" (-1)).2)
      as [? ? ?]; [|by split].
    apply reachable_well_formed.
    eapply (reachable_step _ (OpAdd "B" (-1)) 0); [|reflexivity].
    eapply (reachable_step _ (OpAdd "A" (-1)) 0); [constructor|reflexivity]. }
  assert ("UP" = "UP" ∧ NLM_OT_MoveUp_execute = NLM_OT_MoveUp_execute
          ∨ "UP" = "DOWN" ∧ NLM_OT_MoveUp_execute = NLM_OT_MoveDown_execute)
    as Hop by (by left).
  split.
  - apply (proj1 (NLM_OT_MoveUp_MoveDown_execute_follow 3 s _ _ Hop Hwf)).
    simpl. lia.
  - apply (proj2 (NLM_OT_MoveUp_MoveDown_execute_follow 3 s _ _ Hop Hwf)).
Defined.

Lemma reorder_execute_undo direction direction' fuel s s' :
  well_formed s →
  (∀ k sr, reorder_item s k direction = (true, sr) →
     reorder_item sr k direction' = (true, s)) →
  reorder_execute direction fuel s = Some (FINISHED, s') →
  reorder_execute direction' fuel s' = Some (FINISHED, s).
Proof.
  intros Hwf Hundo Hex.
  destruct (reorder_execute_finished direction fuel s s' Hwf Hex)
    as (l & x & d & sr & l' & Hl & Hpos & Hx & Hre & Hl' & ->).
  assert ((x, d) ∈ l) as Hxl by by eapply list_elem_of_lookup_2.
  destruct (reorder_item_still_listed s (id x) direction fuel fuel
              l l' x d Hwf Hl) as (x' & Hx' & Hid);
    [by rewrite Hre|done|].
  destruct (select_item_cursor fuel sr l' (id x) x' d Hl' Hx' Hid)
    as (i' & Hsel & _ & _ & Hcursor).
  assert (0 ≤ id x).
  { apply (wf_range s Hwf x). by eapply flatten_hierarchy_elem_items. }
  unfold reorder_execute. rewrite Hcursor.
  rewrite bool_decide_eq_true_2 by lia.
  rewrite Hsel, reorder_item_with_active_index, (Hundo _ _ Hre). simpl.
  rewrite (flatten_hierarchy_same_items fuel _ s) by done.
  rewrite Hl. do 2 f_equal.
  rewrite (select_item_unique fuel _ l (id x) x d
             (Z.to_nat (active_index s))); try done.
  - rewrite Z2Nat.id by done. by destruct s.
  - by destruct Hwf.
  - by rewrite (flatten_hierarchy_same_items fuel _ s).
Qed.

(** X20. On a well-formed store whose siblings all carry different
    orders, the move-up operator followed by the move-down operator, when
    the first finishes, finishes too and gives back the store exactly as
    it was, cursor included; and the same for move-down followed by
    move-up. *)
Theorem NLM_OT_MoveUp_MoveDown_execute_undo fuel s s' :
  well_formed s → orders_distinct s →
  (NLM_OT_MoveUp_execute fuel s = Some (FINISHED, s') →
   NLM_OT_MoveDown_execute fuel s' = Some (FINISHED, s))
  ∧ (NLM_OT_MoveDown_execute fuel s = Some (FINISHED, s') →
     NLM_OT_MoveUp_execute fuel s' = Some (FINISHED, s)).
Proof.
  intros Hwf Hd. split; apply reorder_execute_undo; try done.
  - intros k sr. apply (reorder_item_undo s k sr Hd).
  - intros k sr. apply (reorder_item_undo s k sr Hd).
Qed.

Lemma NLM_OT_MoveUp_MoveDown_execute_undo_witness :
  let s :=
    with_active_index
      (add_item (add_item (add_item empty_manager "A" (-1)).2 "B" (-1)).2
         "C" 1).2 1 in
  let s' :=
    {| items := [{| id := 0; name := "A"; parent_id := -1; order := 2 |};
                 {| id := 1; name := "B"; parent_id := -1; order := 1 |};
                 {| id := 2; name := "C"; parent_id := 1; order := 1 |}];
       active_index := 0; next_id := 3 |} in
  NLM_OT_MoveUp_execute 4 s = Some (FINISHED, s')
  ∧ NLM_OT_MoveDown_execute 4 s' = Some (FINISHED, s).
Proof.
  intros s s'.
  assert (NLM_OT_MoveUp_execute 4 s = Some (FINISHED, s')) as Hex
    by reflexivity.
  split; [done|].
  assert (reachable
            (add_item (add_item (add_item empty_manager "A" (-1)).2 "B" (-1)).2
               "C" 1).2) as Hreach.
  { eapply (reachable_step _ (OpAdd "C" 1) 0); [|reflexivity].
    eapply (reachable_step _ (OpAdd "B" (-1)) 0); [|reflexivity].
    eapply (reachable_step _ (OpAdd "A" (-1)) 0); [constructor|reflexivity]. }
  assert (well_formed s) as Hwf.
  { by destruct (reachable_well_formed _ Hreach). }
  assert (orders_distinct s) as Hd.
  { apply (proj1 (reachable_orders _ Hreach)). }
  by apply (proj1 (NLM_OT_MoveUp_MoveDown_execute_undo 4 s s' Hwf Hd)).
Defined.

(** ** Moving the item under the cursor to another parent *)

Lemma move_item_false fuel s k p s' :
  move_item fuel s k p = Some (false, s') → s' = s.
Proof.
  unfold move_item.
  destruct (find_item s k) as [[i x]|]; [|by intros [= <-]].
  destruct (_ || _); [|by intros [= <-]].
  destruct (ancestor_walk _ _ _ _) as [[]|]; [by intros [= <-]|done..].
Qed.

(** X21. The move operator, on a well-formed store.  It is cancelled, and
    the store untouched, exactly when the cursor is outside the listing or
    [move_item] rejects the move.  When it finishes, [move_item] has
    accepted the move of the item under the cursor: that item is now found
    under the new parent, and the cursor has kept its value, whatever is
    listed at that position now.  With the sentinel as new parent and the
    cursor on a listed item it always finishes; and when every item hangs
    from the sentinel it returns for any new parent, given more steps than
    there are items. *)
Theorem NLM_OT_MoveItem_execute_moves_selected fuel p s :
  well_formed s →
  (rooted s → (length (items s) < fuel)%nat →
   is_Some (NLM_OT_MoveItem_execute fuel p s))
  ∧ (∀ l, p = -1 → flatten_hierarchy fuel s = Some l →
       0 ≤ active_index s < Z.of_nat (length l) →
       ∃ s', NLM_OT_MoveItem_execute fuel p s = Some (FINISHED, s'))
  ∧ ∀ st s',
      NLM_OT_MoveItem_execute fuel p s = Some (st, s') →
      ∃ k,
        get_id_from_flattened_index fuel s (active_index s) = Some k
        ∧ (st = CANCELLED ↔
           k = -1 ∨ move_item fuel s k p = Some (false, s))
        ∧ (st = CANCELLED → s' = s)
        ∧ (st = FINISHED →
           move_item fuel s k p = Some (true, s')
           ∧ active_index s' = active_index s
           ∧ ∃ x, get_item_by_id s' k = Some x ∧ parent_id x = p).
Proof.
  intros Hwf.
  assert (∀ l, flatten_hierarchy fuel s = Some l →
            0 ≤ active_index s < Z.of_nat (length l) →
            ∃ x, get_id_from_flattened_index fuel s (active_index s)
                 = Some (id x)
                 ∧ x ∈ items s ∧ 0 ≤ id x) as Hin.
  { intros l Hl Hr.
    destruct (lookup_lt_is_Some_2 l (Z.to_nat (active_index s)))
      as [[x d] Hx]; [lia|].
    assert (x ∈ items s) as Hxs.
    { eapply flatten_hierarchy_elem_items; [done|].
      by eapply list_elem_of_lookup_2. }
    exists x. split_and!; [|done|by apply (wf_range s Hwf x)].
    rewrite (get_id_from_flattened_index_Some fuel s l _ Hl).
    rewrite bool_decide_eq_true_2 by lia. by rewrite Hx. }
  split_and!.
  - intros Hroot Hfuel.
    destruct (flatten_hierarchy_terminates s Hwf) as [l Hl].
    apply (flatten_hierarchy_mono _ fuel) in Hl; [|lia].
    unfold NLM_OT_MoveItem_execute.
    rewrite (get_id_from_flattened_index_Some fuel s l _ Hl).
    case_bool_decide; [|done].
    destruct (move_item_terminates s
                (if bool_decide (0 ≤ active_index s
                                 ∧ active_index s < Z.of_nat (length l))
                 then default (-1)
                        ((λ e, id e.1) <$> l !! Z.to_nat (active_index s))
                 else -1) p Hwf Hroot) as [r Hr].
    apply (move_item_mono _ fuel) in Hr; [|lia].
    rewrite Hr. by destruct r as [[] ?].
  - intros l -> Hl Hr. destruct (Hin l Hl Hr) as (x & Hk & Hx & Hpos).
    unfold NLM_OT_MoveItem_execute. rewrite Hk.
    rewrite bool_decide_eq_true_2 by lia.
    assert (is_Some (get_item_by_id s (id x))) as His
      by (apply get_item_by_id_is_Some; by exists x).
    unfold get_item_by_id in His.
    destruct (find_item s (id x)) as [[i x0]|] eqn:Hfind;
      [|by destruct His].
    destruct (move_item_accepts fuel s (id x) (-1) i x0 Hfind) as [s' Hmove].
    + by left.
    + by rewrite get_item_by_id_sentinel, ancestor_walk_top.
    + rewrite Hmove. by exists s'.
  - intros st s'. unfold NLM_OT_MoveItem_execute.
    destruct (get_id_from_flattened_index fuel s (active_index s))
      as [k|]; [|done].
    intros Hex. exists k. split; [done|].
    case_bool_decide as Hk.
    + destruct (move_item fuel s k p) as [[[] sm]|] eqn:Hmove; [| |done].
      * injection Hex as <- <-.
        split; [split; [done|intros [?|?]; done]|].
        split; [done|]. intros _. split; [done|].
        destruct (move_item_effect fuel s k p sm Hmove)
          as (i & x & x' & Hfind & Hitems & Hid & _ & Hp & _ & _ & _ & Hai).
        split; [done|]. exists x'. split; [|done].
        apply find_item_Some in Hfind as (Hi & _).
        apply lookup_lt_Some in Hi.
        unfold get_item_by_id. rewrite <-Hid.
        rewrite (find_item_unique sm i x'); [done| |].
        -- rewrite (proj1 (move_item_ids _ _ _ _ _ _ Hmove)). apply Hwf.
        -- rewrite Hitems. by apply list_lookup_insert_eq.
      * injection Hex as <- <-.
        apply move_item_false in Hmove as Hs. subst sm.
        split; [split; [by right|done]|]. split; done.
    + injection Hex as <- <-.
      split; [split; [left; by destruct (decide (k = -1))|done]|].
      split; done.
Qed.

Lemma NLM_OT_MoveItem_execute_moves_selected_witness :
  let s :=
    with_active_index
      (add_item (add_item empty_manager "A" (-1)).2 "B" 0).2 1 in
  ∃ s', NLM_OT_MoveItem_execute 3 (-1) s = Some (FINISHED, s').
Proof.
  intros s.
  assert (well_formed s) as Hwf.
  { assert (well_formed (add_item (add_item empty_manager "A" (-1)).2 "B" 0).2)
      as [? ? ?]; [|by split].
    apply reachable_well_formed.
    eapply (reachable_step _ (OpAdd "B" 0) 0); [|reflexivity].
    eapply (reachable_step _ (OpAdd "A" (-1)) 0); [constructor|reflexivity]. }
  eapply (proj1 (proj2 (NLM_OT_MoveItem_execute_moves_selected 3 (-1) s Hwf)));
    [done|reflexivity|simpl; lia].
Defined.
